(** * Question generation for behind-the-scenes: a shallow embedding

    The development follows [src/question_generation/generate_questions.py].
    Python dictionaries keyed by strings or small integers are finite maps,
    dictionaries whose iteration order is observable are association lists in
    insertion order, Python exceptions are an explicit [Raise] result, and the
    shared pseudo-random source is an explicit generator state. *)

From Stdlib Require Import QArith Qround Ascii String.
From stdpp Require Import gmap strings list sorting.

Local Open Scope string_scope.
Local Open Scope Z_scope.
Local Open Scope list_scope.

(** ** Exceptions and results *)

Inductive exn :=
| IndexError
| KeyError
| TypeError
| AssertionError
| ZeroDivisionError
| NameError.

Inductive result (A : Type) :=
| Ok (a : A)
| Raise (e : exn).
Arguments Ok {A} a.
Arguments Raise {A} e.

Definition rbind {A B} (m : result A) (k : A → result B) : result B :=
  match m with
  | Ok a => k a
  | Raise e => Raise e
  end.

Notation "'do' x <- m ; k" := (rbind m (fun x => k))
  (at level 10, x pattern, m at level 100, k at level 200).

Definition of_option {A} (e : exn) (o : option A) : result A :=
  match o with
  | Some a => Ok a
  | None => Raise e
  end.

(** [l[i]] for a non-negative index. *)
Definition py_index {A} (l : list A) (i : nat) : result A :=
  of_option IndexError (l !! i).

(** [l[-k]] for k >= 1. *)
Definition py_index_neg {A} (l : list A) (k : nat) : result A :=
  if decide (1 ≤ k ≤ length l)%nat then py_index l (length l - k)%nat
  else Raise IndexError.

(** [l[i]] for an arbitrary integer index. *)
Definition py_index_Z {A} (l : list A) (i : Z) : result A :=
  if decide (0 ≤ i) then py_index l (Z.to_nat i)
  else py_index_neg l (Z.to_nat (- i)).

(** [l[:n]] for an arbitrary integer bound. *)
Definition py_slice_to {A} (l : list A) (n : Z) : list A :=
  if decide (0 ≤ n) then take (Z.to_nat n) l
  else take (length l - Z.to_nat (- n)) l.

(** ** Stable sorting, as [list.sort(key=...)] and [sorted] *)

Section StableSort.
Context {A : Type} (leb : A → A → bool).

Fixpoint insert_sorted (x : A) (l : list A) : list A :=
  match l with
  | [] => [x]
  | y :: l' => if leb x y then x :: l else y :: insert_sorted x l'
  end.

Definition stable_sort (l : list A) : list A :=
  foldr insert_sorted [] l.
End StableSort.

(** ** Strings: [in], [str.replace], [startswith], [endswith] *)

(** [sub in s] *)
Fixpoint contains (sub s : string) : bool :=
  String.prefix sub s ||
  match s with
  | EmptyString => false
  | String _ s' => contains sub s'
  end.

(** [s.replace(old, new)] for a non-empty [old]: occurrences are replaced
    from left to right without overlap; [skip] counts the characters of the
    occurrence just replaced that are still to be dropped. *)
Fixpoint replace_from (old new : string) (skip : nat) (s : string) : string :=
  match s with
  | EmptyString => EmptyString
  | String c s' =>
      match skip with
      | S k => replace_from old new k s'
      | O =>
          if String.prefix old s
          then new +:+ replace_from old new (String.length old - 1) s'
          else String c (replace_from old new 0 s')
      end
  end.

Definition replace (old new s : string) : string := replace_from old new 0 s.

(** [s.lower()] on ASCII letters. *)
Definition ascii_lower (c : ascii) : ascii :=
  let n := nat_of_ascii c in
  if bool_decide (65 ≤ n ≤ 90)%nat then ascii_of_nat (n + 32) else c.

Fixpoint lower (s : string) : string :=
  match s with
  | EmptyString => EmptyString
  | String c s' => String (ascii_lower c) (lower s')
  end.

Definition startswith (s p : string) : bool := String.prefix p s.
Definition endswith (s p : string) : bool :=
  String.prefix (String.rev p) (String.rev s).

(** ** Scenes *)

Record object := {
  obj_size : string;
  obj_color : string;
  obj_material : string;
  obj_shape : string;
  obj_3d_coords : Q * Q * Q;
}.

(** A filter key is a tuple (size, color, material, shape) where every
    component may be [None]. *)
Abbreviation filter_key := (list (option string)).

(** [scene_struct]: the object list, the relationships table
    (relationship name, then anchor object index, then related indices) and
    the optional ["_filter_options"] entry. *)
Record scene := {
  objects : list object;
  relationships : list (string * list (list Z));
  _filter_options : option (list (filter_key * gset Z));
}.

Definition with_objects (sc : scene) (objs : list object) : scene :=
  {| objects := objs;
     relationships := relationships sc;
     _filter_options := _filter_options sc |}.

Definition with_filter_options (sc : scene) (m : list (filter_key * gset Z)) : scene :=
  {| objects := objects sc;
     relationships := relationships sc;
     _filter_options := Some m |}.

Definition x_coord (o : object) : Q := (obj_3d_coords o).1.1.

Definition x_leb (a b : object) : bool := Qle_bool (x_coord a) (x_coord b).

(** ** The list tasks: delete, append, reverse, sort *)

Definition delete_questions : list (string * string * string) :=
  [ ("delete", "red", "1st"); ("delete", "red", "2nd"); ("delete", "red", "3rd");
    ("delete", "gray", "1st"); ("delete", "gray", "2nd"); ("delete", "gray", "3rd");
    ("delete", "yellow", "1st"); ("delete", "yellow", "2nd"); ("delete", "yellow", "3rd");
    ("delete", "cyan", "1st"); ("delete", "cyan", "2nd"); ("delete", "cyan", "3rd") ].

Definition append_questions : list (string * string * string) :=
  [ ("append", "red", "1st"); ("append", "red", "2nd"); ("append", "red", "3rd");
    ("append", "gray", "1st"); ("append", "gray", "2nd"); ("append", "gray", "3rd");
    ("append", "yellow", "1st"); ("append", "yellow", "2nd"); ("append", "yellow", "3rd");
    ("append", "cyan", "1st"); ("append", "cyan", "2nd"); ("append", "cyan", "3rd") ].

Definition reverse_questions : list (string * string) :=
  [ ("reverse", "1st"); ("reverse", "2nd"); ("reverse", "3rd") ].

Definition sort_questions : list (string * string) :=
  [ ("sort", "1st"); ("sort", "2nd"); ("sort", "3rd") ].

(** The loop of [delete_object]; [counter] is 0 until the first match. *)
Fixpoint delete_object_loop (query_color : string) (counter : nat) (colors : list string)
  : list string :=
  match colors with
  | [] => []
  | color :: rest =>
      if bool_decide (query_color = color) && bool_decide (counter = 0%nat)
      then delete_object_loop query_color (counter + 1) rest
      else color :: delete_object_loop query_color counter rest
  end.

Definition delete_object (query_color : string) (colors : list string) : list string :=
  delete_object_loop query_color 0 colors.

Definition append_object (query_color : string) (colors : list string) : list string :=
  [query_color] ++ colors.

Definition reverse_objects (colors : list string) : list string := reverse colors.

Definition sort_objects (colors : list string) : list string :=
  stable_sort String.leb colors.

Definition get_object_by_position (colors : list string) (position : string)
  : result string :=
  if negb (bool_decide (position ∈ ["1st"; "2nd"; "3rd"])) then Raise AssertionError
  else if bool_decide (position = "1st") then py_index colors 0
  else if bool_decide (position = "2nd") then py_index colors 1
  else py_index colors 2.

(** [objs.sort(...)] sorts the list object held by the scene in place, so the
    scene is returned together with the colours. *)
Definition json_scene_to_colors (sc : scene) : list string * scene :=
  let objs := stable_sort x_leb (objects sc) in
  (obj_color <$> objs, with_objects sc objs).

(** [list.sort] returns [None]; the scene's list is sorted all the same. *)
Definition json_scene_to_objects (sc : scene) : option (list object) * scene :=
  let objs : option (list object) := None in
  (objs, with_objects sc (stable_sort x_leb (objects sc))).

(** The accumulating loops keep [valid_questions] and [answers] in order. *)
Fixpoint delete_loop (colors : list string) (qs : list (string * string * string))
    (valid_questions : list (string * string * string)) (answers : list string)
  : result (list (string * string * string) * list string) :=
  match qs with
  | [] => Ok (valid_questions, answers)
  | (question_type, query_color, query_position) :: qs' =>
      if bool_decide (query_color ∈ colors)
         && bool_decide (query_position ∈ ["1st"; "2nd"])
      then
        let result_colors := delete_object query_color colors in
        do a <- get_object_by_position result_colors query_position;
        delete_loop colors qs'
          (valid_questions ++ [(question_type, query_color, query_position)])
          (answers ++ [a])
      else delete_loop colors qs' valid_questions answers
  end.

Definition get_questions_and_answers_delete (sc : scene)
  : result (list (string * string * string) * list string) * scene :=
  let '(colors, sc) := json_scene_to_colors sc in
  (delete_loop colors delete_questions [] [], sc).

Fixpoint append_loop (colors : list string) (qs : list (string * string * string))
    (valid_questions : list (string * string * string)) (answers : list string)
  : result (list (string * string * string) * list string) :=
  match qs with
  | [] => Ok (valid_questions, answers)
  | (question_type, query_color, query_position) :: qs' =>
      let result_colors := append_object query_color colors in
      do a <- get_object_by_position result_colors query_position;
      append_loop colors qs'
        (valid_questions ++ [(question_type, query_color, query_position)])
        (answers ++ [a])
  end.

Definition get_questions_and_answers_append (sc : scene)
  : result (list (string * string * string) * list string) * scene :=
  let '(colors, sc) := json_scene_to_colors sc in
  (append_loop colors append_questions [] [], sc).

Fixpoint transform_loop (transform : list string → list string) (colors : list string)
    (qs : list (string * string))
    (valid_questions : list (string * string)) (answers : list string)
  : result (list (string * string) * list string) :=
  match qs with
  | [] => Ok (valid_questions, answers)
  | (question_type, query_position) :: qs' =>
      let result_colors := transform colors in
      do a <- get_object_by_position result_colors query_position;
      transform_loop transform colors qs'
        (valid_questions ++ [(question_type, query_position)]) (answers ++ [a])
  end.

Definition get_questions_and_answers_reverse (sc : scene)
  : result (list (string * string) * list string) * scene :=
  let '(colors, sc) := json_scene_to_colors sc in
  (transform_loop reverse_objects colors reverse_questions [] [], sc).

Definition get_questions_and_answers_sort (sc : scene)
  : result (list (string * string) * list string) * scene :=
  let '(colors, sc) := json_scene_to_colors sc in
  (transform_loop sort_objects colors sort_questions [] [], sc).

(** A question is a tuple of strings. *)
Definition to_query_atom_text (question : list string) : result string :=
  do q0 <- py_index question 0;
  if negb (bool_decide (q0 ∈ ["delete"; "append"; "reverse"; "sort"]))
  then Raise AssertionError
  else if bool_decide (q0 = "delete") then
    do q1 <- py_index question 1; do q2 <- py_index question 2;
    Ok ("query3(delete," +:+ q1 +:+ "," +:+ q2 +:+ ")")
  else if bool_decide (q0 = "append") then
    do q1 <- py_index question 1; do q2 <- py_index question 2;
    Ok ("query3(append," +:+ q1 +:+ "," +:+ q2 +:+ ")")
  else if bool_decide (q0 = "reverse") then
    do q1 <- py_index question 1; Ok ("query2(reverse," +:+ q1 +:+ ")")
  else
    do q1 <- py_index question 1; Ok ("query2(sort," +:+ q1 +:+ ")").

Fixpoint mapM {A B} (f : A → result B) (l : list A) : result (list B) :=
  match l with
  | [] => Ok []
  | x :: l' => do y <- f x; do ys <- mapM f l'; Ok (y :: ys)
  end.

Definition tuple3 (q : string * string * string) : list string := [q.1.1; q.1.2; q.2].
Definition tuple2 (q : string * string) : list string := [q.1; q.2].

(** The four generators run one after the other on the same scene object;
    an exception in one of them ends the call. *)
Definition get_questions_and_answers_behind_the_scenes (sc : scene)
  : result (list (list string) * list string * list string) * scene :=
  let '(r1, sc) := get_questions_and_answers_delete sc in
  match r1 with
  | Raise e => (Raise e, sc)
  | Ok (delete_qs, delete_answers) =>
  let '(r2, sc) := get_questions_and_answers_append sc in
  match r2 with
  | Raise e => (Raise e, sc)
  | Ok (append_qs, append_answers) =>
  let '(r3, sc) := get_questions_and_answers_reverse sc in
  match r3 with
  | Raise e => (Raise e, sc)
  | Ok (reverse_qs, reverse_answers) =>
  let '(r4, sc) := get_questions_and_answers_sort sc in
  match r4 with
  | Raise e => (Raise e, sc)
  | Ok (sort_qs, sort_answers) =>
  let valid_questions :=
    (tuple3 <$> delete_qs) ++ (tuple3 <$> append_qs)
      ++ (tuple2 <$> reverse_qs) ++ (tuple2 <$> sort_qs) in
  let answers := delete_answers ++ append_answers ++ reverse_answers ++ sort_answers in
  if negb (bool_decide (length valid_questions = length answers))
  then (Raise AssertionError, sc)
  else
    (do query_atom_texts <- mapM to_query_atom_text valid_questions;
     Ok (valid_questions, query_atom_texts, answers), sc)
  end end end end.

(** ** The "other" post-processing heuristic *)

Definition target_keys : gset string :=
  list_to_set ["<Z>"; "<C>"; "<M>"; "<S>"; "<Z2>"; "<C2>"; "<M2>"; "<S2>"].

Definition key_pairs : list (string * string) :=
  [ ("<Z>", "<Z2>"); ("<C>", "<C2>"); ("<M>", "<M2>"); ("<S>", "<S2>") ].

(** One test of the loop body: [v1 != "" and v2 != "" and v1 != v2], on the
    results of [param_vals.get]. *)
Definition pair_differs (param_vals : gmap string string) (kp : string * string) : bool :=
  let v1 := param_vals !! kp.1 in
  let v2 := param_vals !! kp.2 in
  negb (bool_decide (v1 = Some "")) && negb (bool_decide (v2 = Some ""))
  && negb (bool_decide (v1 = v2)).

(** The [for ... break] loop computing [remove_other]. *)
Fixpoint remove_other_loop (param_vals : gmap string string)
    (pairs : list (string * string)) : bool :=
  match pairs with
  | [] => false
  | kp :: rest =>
      if pair_differs param_vals kp then true
      else remove_other_loop param_vals rest
  end.

Definition other_heuristic (text : string) (param_vals : gmap string string) : string :=
  if negb (contains " other " text) && negb (contains " another " text) then text
  else if negb (bool_decide (dom param_vals = target_keys)) then text
  else
    let remove_other := remove_other_loop param_vals key_pairs in
    if remove_other then
      let text := if contains " other " text then replace " other " " " text else text in
      let text := if contains " another " text then replace " another " " a " text else text in
      text
    else text.

(** ** Association-list dictionaries (insertion ordered) *)

Section Dict.
Context {K V : Type} `{EqDecision K}.

Fixpoint dict_get (k : K) (d : list (K * V)) : option V :=
  match d with
  | [] => None
  | (k', v) :: d' => if decide (k = k') then Some v else dict_get k d'
  end.

(** [d[k] = v]: an existing entry keeps its place. *)
Fixpoint dict_set (k : K) (v : V) (d : list (K * V)) : list (K * V) :=
  match d with
  | [] => [(k, v)]
  | (k', v') :: d' =>
      if decide (k = k') then (k', v) :: d' else (k', v') :: dict_set k v d'
  end.

(** [d.pop(k, None)] *)
Definition dict_pop (k : K) (d : list (K * V)) : list (K * V) :=
  filter (λ kv, kv.1 ≠ k) d.
End Dict.

(** ** Metadata *)

Record metadata := {
  dataset : string;
  types : gmap string (list string);
  meta_filter_options : option (list (list (option string)));
}.

(** ** Attribute index *)

Definition masks : list (list nat) :=
  (λ i, (λ j, (i `div` 2 ^ j) `mod` 2)%nat <$> seq 0 4) <$> seq 0 (2 ^ 4).

Definition object_key (obj : object) : list string :=
  [obj_size obj; obj_color obj; obj_material obj; obj_shape obj].

Definition masked_key (key : list string) (mask : list nat) : filter_key :=
  zip_with (λ a b, if bool_decide (b = 1%nat) then Some a else None) key mask.

Definition attribute_map_add (attribute_map : list (filter_key * gset Z))
    (mk : filter_key) (object_idx : Z) : list (filter_key * gset Z) :=
  let attribute_map :=
    match dict_get mk attribute_map with
    | None => dict_set mk ∅ attribute_map
    | Some _ => attribute_map
    end in
  match dict_get mk attribute_map with
  | Some s => dict_set mk (s ∪ {[object_idx]}) attribute_map
  | None => attribute_map
  end.

Definition precompute_filter_options (sc : scene) (md : metadata) : result scene :=
  if negb (bool_decide (dataset md = "CLEVR-v1.0")) then Raise AssertionError
  else
    let attribute_map :=
      foldl (λ am '(object_idx, obj),
               foldl (λ am mask,
                        attribute_map_add am (masked_key (object_key obj) mask)
                                          (Z.of_nat object_idx))
                     am masks)
            [] (imap pair (objects sc)) in
    Ok (with_filter_options sc attribute_map).

(** [sorted(list(s))] for a set of object indices. *)
Definition sorted_elements (s : gset Z) : list Z :=
  merge_sort Z.le (elements s).

(** ** Python values produced by the program evaluator *)

Inductive pyval :=
| VStr (s : string)
| VInt (n : Z)
| VBool (b : bool)
| VList (l : list Z).

Global Instance pyval_eq_dec : EqDecision pyval.
Proof. solve_decision. Defined.

Definition py_int_of (v : pyval) : option Z :=
  match v with
  | VInt n => Some n
  | VBool b => Some (if b then 1 else 0)
  | _ => None
  end.

(** Python's [==]: booleans are integers, everything else compares by
    type and content. *)
Definition py_eqb (a b : pyval) : bool :=
  match py_int_of a, py_int_of b with
  | Some x, Some y => bool_decide (x = y)
  | None, None => bool_decide (a = b)
  | _, _ => false
  end.

Definition INVALID : pyval := VStr "__INVALID__".

(** [set(object_idxs)] as far as its intersection with sets of object
    indices goes: the characters of a string are never equal to an integer. *)
Definition py_set (v : pyval) : result (gset Z) :=
  match v with
  | VList l => Ok (list_to_set l)
  | VStr _ => Ok ∅
  | _ => Raise TypeError
  end.

(** [table[object_idx]] *)
Definition py_index_val {A} (l : list A) (v : pyval) : result A :=
  match py_int_of v with
  | Some i => py_index_Z l i
  | None => Raise TypeError
  end.

(** [round] on a rational: to the nearest integer, ties to the even one. *)
Definition py_round (x : Q) : Z :=
  let fl := Qfloor x in
  match Qcompare (x - inject_Z fl) (1 # 2) with
  | Lt => fl
  | Gt => fl + 1
  | Eq => if Z.even fl then fl else fl + 1
  end.

(** ** Answer counts: a dictionary from answers to running counts *)

Fixpoint counts_get (answer : pyval) (answer_counts : list (pyval * Z)) : option Z :=
  match answer_counts with
  | [] => None
  | (k, c) :: rest => if py_eqb k answer then Some c else counts_get answer rest
  end.

(** [answer_counts[answer]]: a list is not hashable. *)
Definition counts_lookup (answer : pyval) (answer_counts : list (pyval * Z)) : result Z :=
  match answer with
  | VList _ => Raise TypeError
  | _ => of_option KeyError (counts_get answer answer_counts)
  end.

(** [answer_counts[answer] += 1] for a key that is present. *)
Fixpoint counts_incr (answer : pyval) (answer_counts : list (pyval * Z))
  : list (pyval * Z) :=
  match answer_counts with
  | [] => []
  | (k, c) :: rest =>
      if py_eqb k answer then (k, c + 1) :: rest
      else (k, c) :: counts_incr answer rest
  end.

Definition answer_counts_sorted (answer_counts : list (pyval * Z)) : list Z :=
  stable_sort Z.leb (snd <$> answer_counts).

(** The rejection-sampling test; [Ok true] means the candidate is kept.
    The counts are integers, so [cur > 1.1 * x] is [10 * cur > 11 * x] and
    [cur > 5.0 * m] is [cur > 5 * m]. *)
Definition rejection_sampling (answer_counts : list (pyval * Z)) (answer : pyval)
  : result bool :=
  do cur_answer_count <- counts_lookup answer answer_counts;
  let sorted := answer_counts_sorted answer_counts in
  do median_count <- py_index sorted (length sorted `div` 2)%nat;
  let median_count := Z.max median_count 5 in
  do second <- py_index_neg sorted 2;
  if 11 * second <? 10 * cur_answer_count then Ok false
  else if 5 * median_count <? cur_answer_count then Ok false
  else Ok true.

(** ** Templates and search states *)

Record node := {
  node_type : string;
  inputs : list Z;
  side_inputs : option (list string);
}.

Record param := {
  name : string;
  param_type : string;
}.

Inductive constraint :=
| NEQ (p1 p2 : string)
| NULL (p : string)
| OUT_NEQ (i j : Z)
| Unrecognized (ty : string).

Record template := {
  t_nodes : list node;
  t_params : list param;
  t_constraints : list constraint;
  t_text : list string;
}.

Record state := {
  nodes : list node;
  vals : gmap string string;
  input_map : gmap Z Z;
  next_template_node : nat;
  answer : option pyval;
}.

Definition node_shallow_copy (n : node) : node :=
  {| node_type := node_type n; inputs := inputs n; side_inputs := side_inputs n |}.

(** [{p["name"]: p["type"] for p in template["params"]}]: a later entry
    with the same name wins. *)
Definition param_name_to_type (t : template) : gmap string string :=
  foldl (λ m p, <[name p := param_type p]> m) ∅ (t_params t).

Definition initial_state (t : template) : result state :=
  do n0 <- py_index (t_nodes t) 0;
  Ok {| nodes := [node_shallow_copy n0];
        vals := ∅;
        input_map := {[0 := 0]};
        next_template_node := 1;
        answer := None |}.

(** One constraint against the current state; [Ok true] means the state is
    skipped. *)
Definition constraint_violated (pntt : gmap string string) (st : state)
    (outputs : list pyval) (c : constraint) : result bool :=
  match c with
  | NEQ p1 p2 =>
      match vals st !! p1, vals st !! p2 with
      | Some v1, Some v2 => Ok (negb (bool_decide (v1 = v2)))
      | _, _ => Ok false
      end
  | NULL p =>
      do p_type <- of_option KeyError (pntt !! p);
      match vals st !! p with
      | Some v =>
          let skip := false in
          let skip := if bool_decide (p_type = "Shape") && negb (bool_decide (v = "thing"))
                      then true else skip in
          let skip := if negb (bool_decide (p_type = "Shape")) && negb (bool_decide (v = ""))
                      then true else skip in
          Ok skip
      | None => Ok false
      end
  | OUT_NEQ i j =>
      match input_map st !! i, input_map st !! j with
      | Some i', Some j' =>
          do oi <- py_index_Z outputs i';
          do oj <- py_index_Z outputs j';
          Ok (py_eqb oi oj)
      | _, _ => Ok false
      end
  | Unrecognized _ => Raise AssertionError
  end.

(** The constraint loop with its [break]; [Ok true] is [skip_state]. *)
Fixpoint check_constraints (pntt : gmap string string) (st : state)
    (outputs : list pyval) (cs : list constraint) : result bool :=
  match cs with
  | [] => Ok false
  | c :: cs' =>
      do violated <- constraint_violated pntt st outputs c;
      if violated then Ok true else check_constraints pntt st outputs cs'
  end.

(** [find_filter_options]: the cache is attached to the scene on first use. *)
Definition ensure_filter_options (sc : scene) (md : metadata) : result scene :=
  match _filter_options sc with
  | None => precompute_filter_options sc md
  | Some _ => Ok sc
  end.

Definition find_filter_options (object_idxs : pyval) (sc : scene) (md : metadata)
  : result (list (filter_key * list Z) * scene) :=
  do sc <- ensure_filter_options sc md;
  do object_idxs <- py_set object_idxs;
  do cache <- of_option KeyError (_filter_options sc);
  Ok ((λ '(k, vs), (k, sorted_elements (object_idxs ∩ vs))) <$> cache, sc).

(** Keys of the filter options handled by the expander: a filter tuple, a
    (relationship, filter tuple) pair, or one of the generator objects that
    [add_empty_filter_options] stores as keys; such a generator draws its
    components from [attr_vals] only when it is iterated. *)
Inductive option_key :=
| FilterKey (k : filter_key)
| RelateKey (relationship : string) (k : filter_key)
| GeneratorKey (attr_vals : list (list (option string))).

(** The [while] loop of [add_empty_filter_options]: a new generator object
    is never found among the keys, so every round adds one entry. *)
Fixpoint add_generators (num_to_add : nat) (attr_vals : list (list (option string)))
    (attribute_map : list (option_key * list Z)) : list (option_key * list Z) :=
  match num_to_add with
  | O => attribute_map
  | S n => add_generators n attr_vals (attribute_map ++ [(GeneratorKey attr_vals, [])])
  end.

Definition add_empty_filter_options (attribute_map : list (option_key * list Z))
    (md : metadata) (num_to_add : nat) : result (list (option_key * list Z)) :=
  if negb (bool_decide (dataset md = "CLEVR-v1.0")) then Raise AssertionError
  else
    do attr_vals <-
      mapM (λ t, do vs <- of_option KeyError (types md !! t);
                 Ok ((Some <$> vs) ++ [None]))
           ["Size"; "Color"; "Material"; "Shape"];
    let attr_vals :=
      match meta_filter_options md with
      | Some v => v
      | None => attr_vals
      end in
    Ok (add_generators num_to_add attr_vals attribute_map).

(** ** Relation index *)

Definition relate_filter_inner (relationship : string) (related : gset Z)
    (unique include_zero : bool)
    (acc : list (string * filter_key * list Z) * list (string * filter_key * list Z))
    (entry : filter_key * gset Z)
  : list (string * filter_key * list Z) * list (string * filter_key * list Z) :=
  let '(options, trivial_options) := acc in
  let '(filters, filtered) := entry in
  let intersection := related ∩ filtered in
  let trivial := bool_decide (intersection = filtered) in
  if unique && negb (bool_decide (size intersection = 1%nat)) then acc
  else if negb include_zero && bool_decide (size intersection = 0%nat) then acc
  else if trivial
       then (options, dict_set (relationship, filters) (sorted_elements intersection)
                               trivial_options)
       else (dict_set (relationship, filters) (sorted_elements intersection) options,
             trivial_options).

Fixpoint relate_filter_outer (rels : list (string * list (list Z))) (object_idx : pyval)
    (cache : list (filter_key * gset Z)) (unique include_zero : bool)
    (acc : list (string * filter_key * list Z) * list (string * filter_key * list Z))
  : result (list (string * filter_key * list Z) * list (string * filter_key * list Z)) :=
  match rels with
  | [] => Ok acc
  | (relationship, table) :: rels' =>
      do row <- py_index_val table object_idx;
      let related : gset Z := list_to_set row in
      relate_filter_outer rels' object_idx cache unique include_zero
        (foldl (relate_filter_inner relationship related unique include_zero) acc cache)
  end.

(** [int(round(N * f / (1 - f)))], the fraction taken as a rational. *)
Definition num_trivial_of (N : nat) (f : Q) : result Z :=
  if Qeq_bool (1 - f) 0 then Raise ZeroDivisionError
  else Ok (py_round (inject_Z (Z.of_nat N) * f / (1 - f))).

Definition add_trivial (options : list (string * filter_key * list Z))
    (chosen : list (string * filter_key * list Z)) : list (string * filter_key * list Z) :=
  foldl (λ o '(k, v), dict_set k v o) options chosen.

Section Generation.
Context {rng : Type}.
(** [random.shuffle] and the index drawn by [random.choice]. *)
Variable shuffle : ∀ A : Type, list A → rng → list A * rng.
Variable randbelow : nat → rng → nat * rng.
(** [qeng.answer_question(q, metadata, scene_struct, all_outputs=True)] and
    [qeng.is_degenerate]. *)
Variable answer_question : list node → metadata → scene → result (list pyval).
Variable is_degenerate : list node → metadata → scene → pyval → bool.

Definition choice {A} (l : list A) (g : rng) : result (A * rng) :=
  let '(i, g) := randbelow (length l) g in
  do x <- py_index l (i `mod` length l)%nat;
  Ok (x, g).

Definition find_relate_filter_options (object_idx : pyval) (sc : scene) (md : metadata)
    (unique include_zero : bool) (trivial_frac : Q) (g : rng)
  : result (list (string * filter_key * list Z) * scene * rng) :=
  do sc <- ensure_filter_options sc md;
  do cache <- of_option KeyError (_filter_options sc);
  do (options, trivial_options) <-
    relate_filter_outer (relationships sc) object_idx cache unique include_zero ([], []);
  let N := length options in
  do num_trivial <- num_trivial_of N trivial_frac;
  let '(trivial_options, g) := shuffle _ trivial_options g in
  Ok (add_trivial options (py_slice_to trivial_options num_trivial), sc, g).

(** *** Expansion of one template node *)

(** The values built while one successor is being assembled. *)
Record expansion := {
  new_nodes : list node;
  cur_next_vals : gmap string string;
  next_input : Z;
}.

(** The second argument of [zip(filter_side_inputs, k)]. *)
Inductive key_values :=
| Tuple (k : filter_key)
| Generator (attr_vals : list (list (option string))).

Definition filter_step (md : metadata) (pntt : gmap string string) (st : state)
    (e : expansion) (param_name : string) (param_val : option string)
  : result expansion :=
  do param_type <- of_option KeyError (pntt !! param_name);
  let filter_type := "filter_" +:+ lower param_type in
  match param_val with
  | Some v =>
      let new_nodes :=
        new_nodes e ++ [ {| node_type := filter_type;
                            inputs := [next_input e];
                            side_inputs := Some [v] |} ] in
      Ok {| new_nodes := new_nodes;
            cur_next_vals := <[param_name := v]> (cur_next_vals e);
            next_input := Z.of_nat (length (nodes st)) + Z.of_nat (length new_nodes) - 1 |}
  | None =>
      let v :=
        if bool_decide (dataset md = "CLEVR-v1.0") && bool_decide (param_type = "Shape")
        then "thing" else "" in
      Ok {| new_nodes := new_nodes e;
            cur_next_vals := <[param_name := v]> (cur_next_vals e);
            next_input := next_input e |}
  end.

Fixpoint filter_loop (md : metadata) (pntt : gmap string string) (st : state)
    (filter_side_inputs : list string) (k : key_values) (e : expansion) (g : rng)
  : result (expansion * rng) :=
  match filter_side_inputs with
  | [] => Ok (e, g)
  | param_name :: rest =>
      match k with
      | Tuple [] | Generator [] => Ok (e, g)
      | Tuple (param_val :: k') =>
          do e <- filter_step md pntt st e param_name param_val;
          filter_loop md pntt st rest (Tuple k') e g
      | Generator (v :: vs) =>
          do (param_val, g) <- choice v g;
          do e <- filter_step md pntt st e param_name param_val;
          filter_loop md pntt st rest (Generator vs) e g
      end
  end.

Definition extra_type_of (ty : string) : option string :=
  let extra_type := None in
  let extra_type := if endswith ty "unique" then Some "unique" else extra_type in
  let extra_type := if endswith ty "count" then Some "count" else extra_type in
  let extra_type := if endswith ty "exist" then Some "exist" else extra_type in
  extra_type.

(** The body of [for k in filter_option_keys]. A relate node always gets
    its keys from the relation index and a filter node from the attribute
    index, so the remaining combinations are unreachable. *)
Definition expand_option (md : metadata) (pntt : gmap string string) (st : state)
    (next_node : node) (k : option_key) (g : rng) : result (state * rng) :=
  do in0 <- py_index (inputs next_node) 0;
  do next_input0 <- of_option KeyError (input_map st !! in0);
  do side <- of_option KeyError (side_inputs next_node);
  let e0 := {| new_nodes := []; cur_next_vals := vals st; next_input := next_input0 |} in
  do (e, filter_side_inputs, kv) <-
    (if startswith (node_type next_node) "relate" then
       do param_name <- py_index side 0;
       let filter_side_inputs := drop 1 side in
       do param_type <- of_option KeyError (pntt !! param_name);
       if negb (bool_decide (param_type = "Relation")) then Raise AssertionError
       else
         match k with
         | RelateKey param_val k' =>
             let new_nodes :=
               [ {| node_type := "relate";
                    inputs := [next_input0];
                    side_inputs := Some [param_val] |} ] in
             Ok ({| new_nodes := new_nodes;
                    cur_next_vals := <[param_name := param_val]> (vals st);
                    next_input :=
                      Z.of_nat (length (nodes st)) + Z.of_nat (length new_nodes) - 1 |},
                 filter_side_inputs, Tuple k')
         | _ => Raise TypeError
         end
     else
       match k with
       | FilterKey k' => Ok (e0, side, Tuple k')
       | GeneratorKey attr_vals => Ok (e0, side, Generator attr_vals)
       | RelateKey _ _ => Raise TypeError
       end);
  do (e, g) <- filter_loop md pntt st filter_side_inputs kv e g;
  let input_map := input_map st in
  do new_nodes <-
    match extra_type_of (node_type next_node) with
    | Some extra_type =>
        do i0 <- of_option KeyError (input_map !! in0);
        Ok (new_nodes e ++ [ {| node_type := extra_type;
                                inputs := [i0 + Z.of_nat (length (new_nodes e))];
                                side_inputs := None |} ])
    | None => Ok (new_nodes e)
    end;
  let input_map :=
    <[Z.of_nat (next_template_node st) :=
        Z.of_nat (length (nodes st)) + Z.of_nat (length new_nodes) - 1]> input_map in
  Ok ({| nodes := nodes st ++ new_nodes;
         vals := cur_next_vals e;
         input_map := input_map;
         next_template_node := next_template_node st + 1;
         answer := None |}, g).

Fixpoint expand_options (md : metadata) (pntt : gmap string string) (st : state)
    (next_node : node) (keys : list option_key) (g : rng) : result (list state * rng) :=
  match keys with
  | [] => Ok ([], g)
  | k :: keys' =>
      do (s, g) <- expand_option md pntt st next_node k g;
      do (ss, g) <- expand_options md pntt st next_node keys' g;
      Ok (s :: ss, g)
  end.

Definition special_nodes : list string :=
  [ "filter_unique"; "filter_count"; "filter_exist"; "filter";
    "relate_filter"; "relate_filter_unique"; "relate_filter_count";
    "relate_filter_exist" ].

(** The filter options of a composite node, before the keys are shuffled. *)
Definition special_filter_options (md : metadata) (next_node : node) (answer : pyval)
    (sc : scene) (g : rng) : result (list (option_key * list Z) * scene * rng) :=
  let ty := node_type next_node in
  if startswith ty "relate_filter" then
    let unique := bool_decide (ty = "relate_filter_unique") in
    let include_zero :=
      bool_decide (ty = "relate_filter_count") || bool_decide (ty = "relate_filter_exist") in
    do (filter_options, sc, g) <-
      find_relate_filter_options answer sc md unique include_zero (1 # 10) g;
    Ok ((λ '(r, f, v), (RelateKey r f, v)) <$> filter_options, sc, g)
  else
    do (filter_options, sc) <- find_filter_options answer sc md;
    let filter_options :=
      if bool_decide (ty = "filter") then dict_pop [None; None; None; None] filter_options
      else filter_options in
    if bool_decide (ty = "filter_unique") then
      Ok ((λ '(k, v), (FilterKey k, v))
            <$> filter (λ kv, length kv.2 = 1%nat) filter_options, sc, g)
    else
      do num_to_add <-
        (if bool_decide (ty = "filter_exist") then Ok (length filter_options)
         else if bool_decide (ty = "filter_count") || bool_decide (ty = "filter")
         then Ok (length (filter (λ kv, length kv.2 = 1%nat) filter_options))
         else Raise NameError);
      do filter_options <-
        add_empty_filter_options ((λ '(k, v), (FilterKey k, v)) <$> filter_options)
                                 md num_to_add;
      Ok (filter_options, sc, g).

Definition expand_special (md : metadata) (pntt : gmap string string) (st : state)
    (next_node : node) (answer : pyval) (sc : scene) (g : rng)
  : result (list state * scene * rng) :=
  do (filter_options, sc, g) <- special_filter_options md next_node answer sc g;
  let filter_option_keys := fst <$> filter_options in
  let '(filter_option_keys, g) := shuffle _ filter_option_keys g in
  do (succs, g) <- expand_options md pntt st next_node filter_option_keys g;
  Ok (succs, sc, g).

(** A node with one template parameter: one successor per value. *)
Definition expand_param (md : metadata) (pntt : gmap string string) (st : state)
    (next_node : node) (side : list string) (g : rng) : result (list state * rng) :=
  if negb (bool_decide (length side = 1%nat)) then Raise AssertionError
  else
    do param_name <- py_index side 0;
    do param_type <- of_option KeyError (pntt !! param_name);
    do param_vals <- of_option KeyError (types md !! param_type);
    let '(param_vals, g) := shuffle _ param_vals g in
    do succs <-
      mapM (λ val,
              let input_map :=
                <[Z.of_nat (next_template_node st) := Z.of_nat (length (nodes st))]>
                  (input_map st) in
              do ins <- mapM (λ idx, of_option KeyError (input_map !! idx))
                             (inputs next_node);
              let cur_next_node :=
                {| node_type := node_type next_node;
                   inputs := ins;
                   side_inputs := Some [val] |} in
              Ok {| nodes := nodes st ++ [cur_next_node];
                    vals := <[param_name := val]> (vals st);
                    input_map := input_map;
                    next_template_node := next_template_node st + 1;
                    answer := None |})
           param_vals;
    Ok (succs, g).

(** A node without parameters: exactly one successor. *)
Definition expand_plain (st : state) (next_node : node) : result (list state) :=
  let input_map :=
    <[Z.of_nat (next_template_node st) := Z.of_nat (length (nodes st))]> (input_map st) in
  do ins <- mapM (λ idx, of_option KeyError (input_map !! idx)) (inputs next_node);
  let next_node :=
    {| node_type := node_type next_node; inputs := ins; side_inputs := None |} in
  Ok [ {| nodes := nodes st ++ [next_node];
          vals := vals st;
          input_map := input_map;
          next_template_node := next_template_node st + 1;
          answer := None |} ].

Definition expand (t : template) (md : metadata) (st : state) (answer : pyval)
    (sc : scene) (g : rng) : result (list state * scene * rng) :=
  let pntt := param_name_to_type t in
  do next_node <- py_index (t_nodes t) (next_template_node st);
  let next_node := node_shallow_copy next_node in
  if bool_decide (node_type next_node ∈ special_nodes) then
    expand_special md pntt st next_node answer sc g
  else
    match side_inputs next_node with
    | Some side =>
        do (succs, g) <- expand_param md pntt st next_node side g;
        Ok (succs, sc, g)
    | None =>
        do succs <- expand_plain st next_node;
        Ok (succs, sc, g)
    end.

(** *** One round of the search loop *)

Inductive action :=
| Skip
| Accepted (st : state) (answer_counts : list (pyval * Z))
| Pushed (succs : list state).

Definition with_answer (st : state) (a : pyval) : state :=
  {| nodes := nodes st;
     vals := vals st;
     input_map := input_map st;
     next_template_node := next_template_node st;
     answer := Some a |}.

Definition process_state (t : template) (md : metadata) (st : state)
    (answer_counts : list (pyval * Z)) (sc : scene) (g : rng)
  : result (action * scene * rng) :=
  do outputs <- answer_question (nodes st) md sc;
  do answer <- py_index_neg outputs 1;
  if py_eqb answer INVALID then Ok (Skip, sc, g)
  else
    do skip_state <- check_constraints (param_name_to_type t) st outputs (t_constraints t);
    if skip_state then Ok (Skip, sc, g)
    else if bool_decide (next_template_node st = length (t_nodes t)) then
      do keep <- rejection_sampling answer_counts answer;
      if negb keep then Ok (Skip, sc, g)
      else
        let has_relate :=
          existsb (λ n, bool_decide (node_type n = "relate")) (t_nodes t) in
        if has_relate && is_degenerate (nodes st) md sc answer then Ok (Skip, sc, g)
        else Ok (Accepted (with_answer st answer) (counts_incr answer answer_counts), sc, g)
    else
      do (succs, sc, g) <- expand t md st answer sc g;
      Ok (Pushed succs, sc, g).

(** The search configuration: the stack (top first), the accepted states,
    the answer counts, the scene and the random source. *)
Record config := {
  states : list state;
  final_states : list state;
  answer_counts : list (pyval * Z);
  cur_scene : scene;
  gen : rng;
}.

(** One round of [while states:]: either the loop is left (the stack is
    empty, the cap is reached, or an exception escapes) or it goes on. *)
Inductive round_result :=
| Finished (r : result config)
| Continue (c : config).

Definition round (t : template) (md : metadata) (max_instances : option Z)
    (c : config) : round_result :=
  match states c with
  | [] => Finished (Ok c)
  | st :: rest =>
      match process_state t md st (answer_counts c) (cur_scene c) (gen c) with
      | Raise e => Finished (Raise e)
      | Ok (Skip, sc, g) =>
          Continue {| states := rest; final_states := final_states c;
                      answer_counts := answer_counts c; cur_scene := sc; gen := g |}
      | Ok (Accepted st' counts, sc, g) =>
          let finals := final_states c ++ [st'] in
          let c' := {| states := rest; final_states := finals;
                       answer_counts := counts; cur_scene := sc; gen := g |} in
          if bool_decide (max_instances = Some (Z.of_nat (length finals)))
          then Finished (Ok c')
          else Continue c'
      | Ok (Pushed succs, sc, g) =>
          Continue {| states := reverse succs ++ rest; final_states := final_states c;
                      answer_counts := answer_counts c; cur_scene := sc; gen := g |}
      end
  end.

(** The loop, one round per unit of fuel; [None] is out of fuel. *)
Fixpoint dfs_loop (fuel : nat) (t : template) (md : metadata) (max_instances : option Z)
    (c : config) : option (result config) :=
  match fuel with
  | O => None
  | S fuel' =>
      match round t md max_instances c with
      | Finished r => Some r
      | Continue c' => dfs_loop fuel' t md max_instances c'
      end
  end.

Definition initial_config (st : state) (answer_counts : list (pyval * Z))
    (sc : scene) (g : rng) : config :=
  {| states := [st]; final_states := []; answer_counts := answer_counts;
     cur_scene := sc; gen := g |}.

(** The search part of [instantiate_templates_dfs]: the accepted states
    with the updated counts, scene and random source. The structured
    questions and answers returned by the function are the [nodes] and
    [answer] fields of the accepted states. *)
Definition instantiate_templates_dfs (fuel : nat) (sc : scene) (t : template)
    (md : metadata) (answer_counts : list (pyval * Z)) (max_instances : option Z)
    (g : rng) : option (result config) :=
  match initial_state t with
  | Raise e => Some (Raise e)
  | Ok st => dfs_loop fuel t md max_instances (initial_config st answer_counts sc g)
  end.
End Generation.

(** ** Optional spans of a question text *)

(** [s[:n]] and [s[n:]] *)
Fixpoint str_take (n : nat) (s : string) : string :=
  match n, s with
  | S n', String c s' => String c (str_take n' s')
  | _, _ => EmptyString
  end.

Fixpoint str_drop (n : nat) (s : string) : string :=
  match n, s with
  | S n', String _ s' => str_drop n' s'
  | _, _ => s
  end.

(** The group of the pattern, read after an opening bracket: the greedy
    [[^\[]*] runs up to the next opening bracket or the end and gives back
    characters until a closing bracket follows, so the group ends at the
    last closing bracket of that run. [i] is the offset of the next
    character and [best] the offset of the last closing bracket so far. *)
Fixpoint last_close (s : string) (i : nat) (best : option nat) : option nat :=
  match s with
  | EmptyString => best
  | String c s' =>
      if bool_decide (c = "["%char) then best
      else last_close s' (S i) (if bool_decide (c = "]"%char) then Some i else best)
  end.

(** [re.search(pat, s)]: the start of the leftmost match and the length of
    its group; [i] is the offset of [s] in the whole text. *)
Fixpoint search_optional (s : string) (i : nat) : option (nat * nat) :=
  match s with
  | EmptyString => None
  | String c s' =>
      if bool_decide (c = "["%char) then
        match last_close s' 0 None with
        | Some j => Some (i, j)
        | None => search_optional s' (S i)
        end
      else search_optional s' (S i)
  end.

Section Optionals.
Context {rng : Type}.
(** [random.random() > 0.5] *)
Variable random_gt_half : rng → bool * rng.

(** The [while True] loop, one match per unit of fuel. *)
Fixpoint replace_optionals_loop (fuel : nat) (s : string) (g : rng)
  : option (string * rng) :=
  match search_optional s 0 with
  | None => Some (s, g)
  | Some (i0, j) =>
      match fuel with
      | O => None
      | S fuel' =>
          let i1 := (i0 + j + 2)%nat in
          let '(keep, g) := random_gt_half g in
          let s :=
            if keep
            then str_take i0 s +:+ str_take j (str_drop (i0 + 1) s) +:+ str_drop i1 s
            else str_take i0 s +:+ str_drop i1 s in
          replace_optionals_loop fuel' s g
      end
  end.

(** Every round removes at least the two brackets, so the length of the
    text bounds the number of rounds. *)
Definition replace_optionals (s : string) (g : rng) : option (string * rng) :=
  replace_optionals_loop (String.length s) s g.
End Optionals.

(** ** Scene objects of the image generator

    [src/image_generation/scene.py]. Each attribute class wraps a name;
    its [to_num] falls through to Python's [None] for a name that no
    branch lists. *)

Module CLEVRColor.
Record t := { name : string }.

Definition __str__ (self : t) : string := name self.

Definition to_num (self : t) : option Z :=
  if String.eqb (name self) "gray" then Some 1
  else if String.eqb (name self) "red" then Some 2
  else if String.eqb (name self) "blue" then Some 3
  else if String.eqb (name self) "green" then Some 4
  else if String.eqb (name self) "brown" then Some 5
  else if String.eqb (name self) "purple" then Some 6
  else if String.eqb (name self) "cyan" then Some 7
  else if String.eqb (name self) "yellow" then Some 8
  else None.
End CLEVRColor.

Module CLEVRShape.
Record t := { name : string }.

Definition __str__ (self : t) : string := name self.

Definition to_num (self : t) : option Z :=
  if String.eqb (name self) "cube" then Some 1
  else if String.eqb (name self) "sphere" then Some 2
  else if String.eqb (name self) "cylinder" then Some 3
  else None.
End CLEVRShape.

Module CLEVRSize.
Record t := { name : string }.

Definition __str__ (self : t) : string := name self.

Definition to_num (self : t) : option Z :=
  if String.eqb (name self) "small" then Some 1
  else if String.eqb (name self) "large" then Some 2
  else None.
End CLEVRSize.

Module CLEVRMaterial.
Record t := { name : string }.

Definition __str__ (self : t) : string := name self.

Definition to_num (self : t) : option Z :=
  if String.eqb (name self) "rubber" then Some 1
  else if String.eqb (name self) "metal" then Some 2
  else None.
End CLEVRMaterial.

Module CLEVRObject.
Record t := {
  color : CLEVRColor.t;
  shape : CLEVRShape.t;
  size : CLEVRSize.t;
  material : CLEVRMaterial.t;
}.

Definition __str__ (self : t) : string :=
  "CLEVRObject(" +:+ CLEVRColor.__str__ (color self) +:+ "," +:+
  CLEVRShape.__str__ (shape self) +:+ "," +:+
  CLEVRSize.__str__ (size self) +:+ "," +:+
  CLEVRMaterial.__str__ (material self) +:+ ")".

Definition __repr__ (self : t) : string := __str__ self.

Definition __eq__ (self other : t) : bool :=
  String.eqb (__str__ self) (__str__ other).

(** [k * v] and [a + v] for an integer and the value of a [to_num]:
    arithmetic on [None] raises [TypeError]. *)
Definition int_mul (k : Z) (v : option Z) : result Z :=
  match v with
  | Some n => Ok (k * n)
  | None => Raise TypeError
  end.

Definition int_add (a : Z) (v : option Z) : result Z :=
  match v with
  | Some n => Ok (a + n)
  | None => Raise TypeError
  end.

Definition to_num (self : t) : result Z :=
  do a <- int_mul 1000 (CLEVRSize.to_num (size self));
  do b <- int_mul 100 (CLEVRShape.to_num (shape self));
  do c <- int_mul 10 (CLEVRColor.to_num (color self));
  int_add (a + b + c) (CLEVRMaterial.to_num (material self)).

(** The comparison is [<=] on the numbers. *)
Definition __lt__ (self other : t) : result bool :=
  do a <- to_num self;
  do b <- to_num other;
  Ok (a <=? b).
End CLEVRObject.

(** ** Data sets of list programs

    [src/image_generation/ilp_data_gen.py]. *)

Module IlpDataGen.

Definition colors : list string := ["red"; "gray"; "cyan"; "yellow"].
Definition shapes : list string := ["sphere"].
Definition sizes : list string := ["large"].
Definition materials : list string := ["metal"].

(** [itertools.product] runs through its last argument fastest. *)
Definition gen_all_properties : list CLEVRObject.t :=
  c ← colors; s ← shapes; z ← sizes; m ← materials;
  [ {| CLEVRObject.color := {| CLEVRColor.name := c |};
       CLEVRObject.shape := {| CLEVRShape.name := s |};
       CLEVRObject.size := {| CLEVRSize.name := z |};
       CLEVRObject.material := {| CLEVRMaterial.name := m |} |} ].

(** [x in ls] and [ls1 == ls2] on lists of objects go through [__eq__]. *)
Definition list_in (x : CLEVRObject.t) (ls : list CLEVRObject.t) : bool :=
  existsb (CLEVRObject.__eq__ x) ls.

Fixpoint list_eq (ls1 ls2 : list CLEVRObject.t) : bool :=
  match ls1, ls2 with
  | [], [] => true
  | x :: ls1', y :: ls2' => CLEVRObject.__eq__ x y && list_eq ls1' ls2'
  | _, _ => false
  end.

(** [get_sublist]; [fuel] is the recursion depth that is left, and [None]
    stands for [RecursionError]. *)
Fixpoint get_sublist {A} (fuel : nat) (ls : list A) : option (list (list A)) :=
  match fuel with
  | O => None
  | S fuel' =>
      if bool_decide (length ls = 1%nat) then Some ([ls] ++ [[]])
      else rest ← get_sublist fuel' (drop 1 ls); Some ([ls] ++ rest)
  end.

(** The loop of [delete]; [count] is 0 until the first match. The
    expression statement [next] has no effect. *)
Fixpoint delete_from (a : CLEVRObject.t) (count : nat) (ls : list CLEVRObject.t)
  : list CLEVRObject.t :=
  match ls with
  | [] => []
  | x :: rest =>
      if CLEVRObject.__eq__ a x && bool_decide (count = 0%nat)
      then delete_from a (count + 1) rest
      else x :: delete_from a count rest
  end.

Definition delete (a : CLEVRObject.t) (ls : list CLEVRObject.t) : list CLEVRObject.t :=
  delete_from a 0 ls.

Section Random.
Context {rng : Type}.
Variable randbelow : nat → rng → nat * rng.

(** [[random.choice(ls) for i in range(k)]] *)
Fixpoint random_choices_loop {A} (ls : list A) (k : nat) (g : rng)
  : result (list A * rng) :=
  match k with
  | O => Ok ([], g)
  | S k' =>
      do (x, g) <- choice randbelow ls g;
      do (xs, g) <- random_choices_loop ls k' g;
      Ok (x :: xs, g)
  end.

Definition random_choices {A} (ls : list A) (k : Z) (g : rng) : result (list A * rng) :=
  if k =? 0 then Ok ([], g) else random_choices_loop ls (Z.to_nat k) g.
End Random.

(** *** The problem classes

    An example is a tuple of lists of objects. The record holds the fields
    that the constructors set and the methods below read; [init_clauses],
    [lang] and [noise_rate] are set and never read by them. *)
Definition example : Type :=
  list CLEVRObject.t * list CLEVRObject.t * list CLEVRObject.t.

Record problem := {
  name : string;
  pos_examples : list example;
  neg_examples : list example;
  backgrounds : list example;
  n : Z;
  max_len : Z;
  min_len : Z;
  symbols : list CLEVRObject.t;
}.

Definition with_pos_examples (self : problem) (l : list example) : problem :=
  {| name := name self; pos_examples := l; neg_examples := neg_examples self;
     backgrounds := backgrounds self; n := n self; max_len := max_len self;
     min_len := min_len self; symbols := symbols self |}.

Definition with_neg_examples (self : problem) (l : list example) : problem :=
  {| name := name self; pos_examples := pos_examples self; neg_examples := l;
     backgrounds := backgrounds self; n := n self; max_len := max_len self;
     min_len := min_len self; symbols := symbols self |}.

Definition with_backgrounds (self : problem) (l : list example) : problem :=
  {| name := name self; pos_examples := pos_examples self;
     neg_examples := neg_examples self; backgrounds := l; n := n self;
     max_len := max_len self; min_len := min_len self; symbols := symbols self |}.

(** The state of a new object after the assignments of a constructor. *)
Definition new_problem (name : string) (n max_len min_len : Z) : problem :=
  {| name := name; pos_examples := []; neg_examples := []; backgrounds := [];
     n := n; max_len := max_len; min_len := min_len;
     symbols := gen_all_properties |}.

Module DeleteProblem.
Section Methods.
Context {rng : Type}.
Variable randbelow : nat → rng → nat * rng.
(** [random.randint] *)
Variable randint : Z → Z → rng → result (Z * rng).

(** One round of the [while] loop of [get_pos_examples]. *)
Definition pos_round (self : problem) (g : rng) : result (problem * rng) :=
  do (a1, g) <- choice randbelow (symbols self) g;
  do (n2, g) <- randint (min_len self) (max_len self) g;
  do (ls2, g) <- random_choices randbelow (symbols self) n2 g;
  if list_in a1 ls2
  then Ok (with_pos_examples self (pos_examples self ++ [([a1], ls2, delete a1 ls2)]), g)
  else Ok (self, g).

(** The loops, one round per unit of fuel; [None] is out of fuel. *)
Fixpoint get_pos_examples (fuel : nat) (self : problem) (g : rng)
  : option (result (problem * rng)) :=
  match fuel with
  | O => None
  | S fuel' =>
      if Z.of_nat (length (pos_examples self)) <? n self then
        match pos_round self g with
        | Raise e => Some (Raise e)
        | Ok (self, g) => get_pos_examples fuel' self g
        end
      else Some (Ok (self, g))
  end.

Definition neg_round (self : problem) (i : Z) (g : rng) : result (problem * Z * rng) :=
  do (a1, g) <- choice randbelow (symbols self) g;
  do (n2, g) <- randint (min_len self) (max_len self) g;
  do (ls2, g) <- random_choices randbelow (symbols self) n2 g;
  do (n3, g) <- randint (min_len self - 1) (max_len self - 1) g;
  do (ls3, g) <- random_choices randbelow (symbols self) n3 g;
  if list_in a1 ls2 && negb (list_eq (delete a1 ls2) ls3)
  then Ok (with_neg_examples self (neg_examples self ++ [([a1], ls2, ls3)]), i + 1, g)
  else Ok (self, i, g).

Fixpoint neg_loop (fuel : nat) (self : problem) (i : Z) (g : rng)
  : option (result (problem * rng)) :=
  match fuel with
  | O => None
  | S fuel' =>
      if i <? n self then
        match neg_round self i g with
        | Raise e => Some (Raise e)
        | Ok (self, i, g) => neg_loop fuel' self i g
        end
      else Some (Ok (self, g))
  end.

Definition get_neg_examples (fuel : nat) (self : problem) (g : rng)
  : option (result (problem * rng)) :=
  neg_loop fuel self 0 g.

Definition get_backgrounds (self : problem) : problem :=
  with_backgrounds self
    (backgrounds self ++ ((λ s, ([s], [s], [])) <$> symbols self)).

Definition __init__ (fuel : nat) (n max_len min_len : Z) (g : rng)
  : option (result (problem * rng)) :=
  let self := new_problem "delete" n max_len min_len in
  match get_pos_examples fuel self g with
  | Some (Ok (self, g)) =>
      match get_neg_examples fuel self g with
      | Some (Ok (self, g)) => Some (Ok (get_backgrounds self, g))
      | r => r
      end
  | r => r
  end.
End Methods.
End DeleteProblem.

Module AppendProblem.
Section Methods.
Context {rng : Type}.
Variable randbelow : nat → rng → nat * rng.
Variable randint : Z → Z → rng → result (Z * rng).

Definition pos_round (self : problem) (g : rng) : result (problem * rng) :=
  do (a1, g) <- choice randbelow (symbols self) g;
  do (n2, g) <- randint (min_len self - 1) (max_len self - 1) g;
  do (ls2, g) <- random_choices randbelow (symbols self) n2 g;
  Ok (with_pos_examples self (pos_examples self ++ [([a1], ls2, [a1] ++ ls2)]), g).

Fixpoint get_pos_examples (fuel : nat) (self : problem) (g : rng)
  : option (result (problem * rng)) :=
  match fuel with
  | O => None
  | S fuel' =>
      if Z.of_nat (length (pos_examples self)) <? n self then
        match pos_round self g with
        | Raise e => Some (Raise e)
        | Ok (self, g) => get_pos_examples fuel' self g
        end
      else Some (Ok (self, g))
  end.

Definition neg_round (self : problem) (i : Z) (g : rng) : result (problem * Z * rng) :=
  do (a1, g) <- choice randbelow (symbols self) g;
  do (n2, g) <- randint (min_len self - 1) (max_len self - 1) g;
  do (ls2, g) <- random_choices randbelow (symbols self) n2 g;
  do (n3, g) <- randint (min_len self) (max_len self) g;
  do (ls3, g) <- random_choices randbelow (symbols self) n3 g;
  if negb (list_eq ([a1] ++ ls2) ls3)
  then Ok (with_neg_examples self (neg_examples self ++ [([a1], ls2, ls3)]), i + 1, g)
  else Ok (self, i, g).

Fixpoint neg_loop (fuel : nat) (self : problem) (i : Z) (g : rng)
  : option (result (problem * rng)) :=
  match fuel with
  | O => None
  | S fuel' =>
      if i <? n self then
        match neg_round self i g with
        | Raise e => Some (Raise e)
        | Ok (self, i, g) => neg_loop fuel' self i g
        end
      else Some (Ok (self, g))
  end.

Definition get_neg_examples (fuel : nat) (self : problem) (g : rng)
  : option (result (problem * rng)) :=
  neg_loop fuel self 0 g.

Definition get_backgrounds (self : problem) : problem :=
  with_backgrounds self
    (backgrounds self ++ ((λ _, ([], [], [])) <$> symbols self)).

Definition __init__ (fuel : nat) (n max_len min_len : Z) (g : rng)
  : option (result (problem * rng)) :=
  let self := new_problem "append" n max_len min_len in
  match get_pos_examples fuel self g with
  | Some (Ok (self, g)) =>
      match get_neg_examples fuel self g with
      | Some (Ok (self, g)) => Some (Ok (get_backgrounds self, g))
      | r => r
      end
  | r => r
  end.
End Methods.
End AppendProblem.

End IlpDataGen.

(** ** A small evaluator and concrete inputs

    The program evaluator ([question_engine]) is an external module; the
    evaluator below follows its interface (one output per node, the invalid marker for
    [unique] on a set that is not a singleton) and serves to run the search
    on concrete scenes. *)

Module Demo.
Fixpoint drop_chars (n : nat) (s : string) : string :=
  match n, s with
  | S n', String _ s' => drop_chars n' s'
  | _, _ => s
  end.

Definition attr_of (attr : string) (o : object) : string :=
  if bool_decide (attr = "size") then obj_size o
  else if bool_decide (attr = "color") then obj_color o
  else if bool_decide (attr = "material") then obj_material o
  else obj_shape o.

Definition eval_node (sc : scene) (outputs : list pyval) (n : node) : pyval :=
  let arg := default INVALID (i ← head (inputs n); outputs !! Z.to_nat i) in
  let side := default "" (l ← side_inputs n; head l) in
  let ty := node_type n in
  if bool_decide (ty = "scene") then VList (Z.of_nat <$> seq 0 (length (objects sc)))
  else if bool_decide (arg = INVALID) then INVALID
  else if startswith ty "filter_" then
    match arg with
    | VList l =>
        VList (filter (λ i, (attr_of (drop_chars 7 ty) <$> objects sc !! Z.to_nat i)
                            = Some side) l)
    | _ => INVALID
    end
  else if bool_decide (ty = "unique") then
    match arg with
    | VList [i] => VInt i
    | _ => INVALID
    end
  else if bool_decide (ty = "count") then
    match arg with
    | VList l => VInt (Z.of_nat (length l))
    | _ => INVALID
    end
  else if bool_decide (ty = "exist") then
    match arg with
    | VList l => VBool (negb (bool_decide (l = [])))
    | _ => INVALID
    end
  else if bool_decide (ty = "relate") then
    match arg with
    | VInt i =>
        match dict_get side (relationships sc) with
        | Some table => default INVALID (VList <$> table !! Z.to_nat i)
        | None => INVALID
        end
    | _ => INVALID
    end
  else if startswith ty "query_" then
    match arg with
    | VInt i =>
        default INVALID ((λ o, VStr (attr_of (drop_chars 6 ty) o)) <$> objects sc !! Z.to_nat i)
    | _ => INVALID
    end
  else INVALID.

Definition answer_question (ns : list node) (md : metadata) (sc : scene)
  : result (list pyval) :=
  Ok (foldl (λ outputs n, outputs ++ [eval_node sc outputs n]) [] ns).

Definition is_degenerate (ns : list node) (md : metadata) (sc : scene) (a : pyval) : bool :=
  false.

(** A deterministic random source: the state counts the draws, a shuffle
    reverses the list, a draw below [n] returns the state modulo [n]. *)
Definition shuffle (A : Type) (l : list A) (g : nat) : list A * nat := (reverse l, S g).
Definition randbelow (n : nat) (g : nat) : nat * nat := ((g `mod` n)%nat, S g).

Definition mk_object (size color material shape : string) (x : Z) : object :=
  {| obj_size := size; obj_color := color; obj_material := material;
     obj_shape := shape; obj_3d_coords := (inject_Z x, 0%Q, 0%Q) |}.

Definition md : metadata :=
  {| dataset := "CLEVR-v1.0";
     types := list_to_map
       [ ("Size", ["small"; "large"]); ("Color", ["red"; "gray"; "cyan"; "yellow"]);
         ("Material", ["rubber"; "metal"]); ("Shape", ["cube"; "sphere"]);
         ("Relation", ["left"; "right"]) ];
     meta_filter_options := None |}.

(** Three objects from right to left: red, gray, cyan. *)
Definition scene3 : scene :=
  {| objects := [ mk_object "large" "red" "metal" "sphere" 2;
                  mk_object "large" "gray" "metal" "sphere" 1;
                  mk_object "large" "cyan" "metal" "cube" 0 ];
     relationships := [ ("left", [[1; 2]; [2]; []]); ("right", [[]; [0]; [0; 1]]) ];
     _filter_options := None |}.

Definition scene1 : scene :=
  {| objects := [ mk_object "large" "red" "metal" "sphere" 0 ];
     relationships := [ ("left", [[]]); ("right", [[]]) ];
     _filter_options := None |}.

Definition empty_scene : scene :=
  {| objects := []; relationships := []; _filter_options := None |}.

Definition plain (ty : string) (ins : list Z) : node :=
  {| node_type := ty; inputs := ins; side_inputs := None |}.
Definition with_side (ty : string) (ins : list Z) (side : list string) : node :=
  {| node_type := ty; inputs := ins; side_inputs := Some side |}.

(** "How many things are there?" *)
Definition count_template : template :=
  {| t_nodes := [ plain "scene" []; plain "count" [0] ];
     t_params := [];
     t_constraints := [];
     t_text := ["How many things are there?"] |}.

(** "What color is the <Z> <C> <M> <S>?" with a second, constrained
    parameter pair. *)
Definition query_template : template :=
  {| t_nodes := [ plain "scene" [];
                  with_side "filter_unique" [0] ["<Z>"; "<C>"; "<M>"; "<S>"];
                  plain "query_color" [1] ];
     t_params := [ {| name := "<Z>"; param_type := "Size" |};
                   {| name := "<C>"; param_type := "Color" |};
                   {| name := "<M>"; param_type := "Material" |};
                   {| name := "<S>"; param_type := "Shape" |} ];
     t_constraints := [ NULL "<C>"; NEQ "<Z>" "<M>"; OUT_NEQ 0 1 ];
     t_text := ["What color is the <Z> <C> <M> <S>?"] |}.

Definition integer_counts : list (pyval * Z) :=
  (λ n, (VInt (Z.of_nat n), 0)) <$> seq 0 11.

Definition color_counts : list (pyval * Z) :=
  (λ c, (VStr c, 0)) <$> ["red"; "gray"; "cyan"; "yellow"].

Definition run (fuel : nat) (sc : scene) (t : template) (counts : list (pyval * Z))
    (max_instances : option Z) : option (result (config (rng := nat))) :=
  instantiate_templates_dfs shuffle randbelow answer_question is_degenerate
    fuel sc t md counts max_instances 0%nat.
(** Two objects, already in order of the first coordinate. *)
Definition scene2 : scene :=
  {| objects := [ mk_object "large" "red" "metal" "sphere" 0;
                  mk_object "small" "gray" "rubber" "cube" 1 ];
     relationships := [ ("left", [[]; [0]]); ("right", [[1]; []]) ];
     _filter_options := None |}.

(** One answer-count window: the scenes are processed one after the other
    with the counts carried along. *)
Fixpoint run_window (fuel : nat) (scenes : list scene) (t : template)
    (counts : list (pyval * Z)) : option (list (pyval * Z)) :=
  match scenes with
  | [] => Some counts
  | sc :: rest =>
      match run fuel sc t counts None with
      | Some (Ok c) => run_window fuel rest t (answer_counts c)
      | _ => None
      end
  end.

Definition twelve_scenes : list scene :=
  [ scene1; scene2; scene1; scene2; scene1; scene2;
    scene1; scene2; scene1; scene2; scene1; scene2 ].

(** The configuration in which the complete count program is on top of the
    stack. *)
Definition count_config : config (rng := nat) :=
  {| states := [ {| nodes := [ plain "scene" []; plain "count" [0] ];
                    vals := ∅;
                    input_map := {[ 0 := 0; 1 := 1 ]};
                    next_template_node := 2;
                    answer := None |} ];
     final_states := [];
     answer_counts := integer_counts;
     cur_scene := scene1;
     gen := 0%nat |}.
(** The initial state of the search on [query_template]. *)
Definition query_initial : state :=
  {| nodes := [ plain "scene" [] ];
     vals := ∅;
     input_map := {[ 0 := 0 ]};
     next_template_node := 1;
     answer := None |}.

(** A second stand-in for the index drawn by [random.choice], without the
    period of [randbelow]. *)
Definition randbelow_uneven (n : nat) (g : nat) : nat * nat :=
  (((g `div` 3 + g) `mod` n)%nat, S g).

(** A stand-in for [random.randint(a, b)] with [a <= b]. *)
Definition randint (a b : Z) (g : nat) : result (Z * nat) :=
  Ok (a + Z.of_nat g `mod` (b - a + 1), S g).
End Demo.

(** ** Predicates used in the statements *)

(** The scene after [json_scene_to_colors]. *)
Definition sorted_scene (sc : scene) : scene :=
  with_objects sc (stable_sort x_leb (objects sc)).

Definition query_colors : list string := ["red"; "gray"; "yellow"; "cyan"].

(** Every question (append, c, "1st") is among the returned questions and
    its answer is [c]. *)
Definition append_first_valid (sc : scene) : Prop :=
  ∃ qs answers,
    (get_questions_and_answers_append sc).1 = Ok (qs, answers)
    ∧ ∀ c, c ∈ query_colors →
           ∃ i, qs !! i = Some ("append", c, "1st") ∧ answers !! i = Some c.

(** Parameter values where only the sizes differ. *)
Definition one_pair_differs : gmap string string :=
  list_to_map [ ("<Z>", "large"); ("<C>", "red"); ("<M>", "metal"); ("<S>", "cube");
                ("<Z2>", "small"); ("<C2>", "red"); ("<M2>", "metal"); ("<S2>", "cube") ].

(** [sc'] is [sc], possibly with the attribute index attached. *)
Definition scene_ext (md : metadata) (sc sc' : scene) : Prop :=
  objects sc' = objects sc
  ∧ relationships sc' = relationships sc
  ∧ (sc' = sc ∨ (_filter_options sc = None ∧ precompute_filter_options sc md = Ok sc')).

(** A declared constraint holds over the bound values and the outputs. *)
Definition constraint_holds (pntt : gmap string string) (st : state)
    (outputs : list pyval) (c : constraint) : Prop :=
  match c with
  | NEQ p1 p2 =>
      ∀ v1 v2, vals st !! p1 = Some v1 → vals st !! p2 = Some v2 → v1 = v2
  | NULL p =>
      ∀ v, vals st !! p = Some v →
           ∃ p_type, pntt !! p = Some p_type
                     ∧ v = if bool_decide (p_type = "Shape") then "thing" else ""
  | OUT_NEQ i j =>
      ∀ i' j', input_map st !! i = Some i' → input_map st !! j = Some j' →
               ∃ oi oj, py_index_Z outputs i' = Ok oi
                        ∧ py_index_Z outputs j' = Ok oj
                        ∧ py_eqb oi oj = false
  | Unrecognized _ => False
  end.

(** What the loop has checked of a state before it appends it to
    [final_states]; [sc0] is the scene the search started from. *)
Definition accepted_ok
    (answer_question : list node → metadata → scene → result (list pyval))
    (t : template) (md : metadata) (sc0 : scene) (st' : state) : Prop :=
  ∃ sc outputs a st,
    scene_ext md sc0 sc
    ∧ st' = with_answer st a
    ∧ answer_question (nodes st) md sc = Ok outputs
    ∧ py_index_neg outputs 1 = Ok a
    ∧ py_eqb a INVALID = false
    ∧ check_constraints (param_name_to_type t) st outputs (t_constraints t) = Ok false
    ∧ next_template_node st = length (t_nodes t).

(** The statistics of the rejection test and the balance bound read as an
    invariant of the answer counts. *)
Definition median_of (answer_counts : list (pyval * Z)) : result Z :=
  py_index (answer_counts_sorted answer_counts)
           (length (answer_counts_sorted answer_counts) `div` 2)%nat.

Definition second_largest_of (answer_counts : list (pyval * Z)) : result Z :=
  py_index_neg (answer_counts_sorted answer_counts) 2.

Definition balance_bound (answer_counts : list (pyval * Z)) : Prop :=
  ∃ median second,
    median_of answer_counts = Ok median
    ∧ second_largest_of answer_counts = Ok second
    ∧ ∀ a cnt, (a, cnt) ∈ answer_counts →
               cnt ≤ Z.max 5 (5 * median)
               ∧ (10 * cnt ≤ 11 * second ∨ cnt = second).

(** How a loop that has ended may have ended. *)
Definition loop_exit {rng : Type} (max_instances : option Z)
    (r : result (config (rng := rng))) : Prop :=
  match r with
  | Ok c =>
      states c = [] ∨ max_instances = Some (Z.of_nat (length (final_states c)))
  | Raise _ => True
  end.

(** The loop started in configuration [c] ends. *)
Definition halts {rng : Type}
    (shuffle : ∀ A : Type, list A → rng → list A * rng)
    (randbelow : nat → rng → nat * rng)
    (answer_question : list node → metadata → scene → result (list pyval))
    (is_degenerate : list node → metadata → scene → pyval → bool)
    (t : template) (md : metadata) (mx : option Z) (c : config) : Prop :=
  ∃ fuel r,
    dfs_loop shuffle randbelow answer_question is_degenerate fuel t md mx c = Some r
    ∧ loop_exit mx r.



(** The colours of a scene from left to right, as [json_scene_to_colors]
    returns them. *)
Definition scene_colors (sc : scene) : list string :=
  obj_color <$> stable_sort x_leb (objects sc).

(** A filter key matches an object when each component is [None] or the
    object's attribute. *)
Definition key_matches (k : filter_key) (obj : object) : Prop :=
  Forall2 (λ ko a, ko = None ∨ ko = Some a) k (object_key obj).

(** The sum of the counts of an answer-count table. *)
Definition total_count (answer_counts : list (pyval * Z)) : Z :=
  foldr Z.add 0 answer_counts.*2.

(** A successor extends its parent: the parent's nodes are a prefix of its
    nodes, the template node just expanded is mapped to its last node, and
    it has no answer yet. *)
Definition extends_state (st s : state) : Prop :=
  (∃ new, nodes s = nodes st ++ new)
  ∧ input_map s
    = <[Z.of_nat (next_template_node st) := Z.of_nat (length (nodes s)) - 1]> (input_map st)
  ∧ next_template_node s = S (next_template_node st)
  ∧ answer s = None.

(** The names that the [to_num] methods of the attribute classes list. *)
Definition color_names : list string :=
  ["gray"; "red"; "blue"; "green"; "brown"; "purple"; "cyan"; "yellow"].
Definition shape_names : list string := ["cube"; "sphere"; "cylinder"].
Definition size_names : list string := ["small"; "large"].
Definition material_names : list string := ["rubber"; "metal"].

Definition known_names (o : CLEVRObject.t) : Prop :=
  CLEVRColor.name (CLEVRObject.color o) ∈ color_names ∧
  CLEVRShape.name (CLEVRObject.shape o) ∈ shape_names ∧
  CLEVRSize.name (CLEVRObject.size o) ∈ size_names ∧
  CLEVRMaterial.name (CLEVRObject.material o) ∈ material_names.

(** No comma in the names that the printed form of an object separates
    by commas. *)
Definition comma_free (s : string) : Prop := contains "," s = false.

Definition comma_free_names (o : CLEVRObject.t) : Prop :=
  comma_free (CLEVRColor.name (CLEVRObject.color o)) ∧
  comma_free (CLEVRShape.name (CLEVRObject.shape o)) ∧
  comma_free (CLEVRSize.name (CLEVRObject.size o)).

(** The suffixes of a list, from the list itself down to the empty list. *)
Definition suffixes {A} (ls : list A) : list (list A) :=
  (λ i, drop i ls) <$> seq 0 (S (length ls)).

(** A true and a false instance of [delete] among the examples of the
    delete data set: the first component is a single object that occurs
    in the second, and the third is, or is not, the second without the
    first occurrence of that object. *)
Definition delete_fact (e : IlpDataGen.example) : Prop :=
  ∃ a, e.1.1 = [a] ∧ IlpDataGen.list_in a e.1.2 = true ∧
       e.2 = IlpDataGen.delete a e.1.2.

Definition delete_non_fact (e : IlpDataGen.example) : Prop :=
  ∃ a, e.1.1 = [a] ∧ IlpDataGen.list_in a e.1.2 = true ∧
       IlpDataGen.list_eq (IlpDataGen.delete a e.1.2) e.2 = false.

(** A true instance of [append] drawn from the symbols of a problem. *)
Definition append_fact (self : IlpDataGen.problem) (e : IlpDataGen.example) : Prop :=
  ∃ a, e.1.1 = [a] ∧ e.2 = a :: e.1.2 ∧
       Forall (λ x, x ∈ IlpDataGen.symbols self) e.2 ∧
       IlpDataGen.min_len self ≤ Z.of_nat (length e.2) ≤ IlpDataGen.max_len self.

(** [random.randint(a, b)] returns an integer between its bounds. *)
Definition randint_in_range {rng} (randint : Z → Z → rng → result (Z * rng)) : Prop :=
  ∀ a b g, a ≤ b → ∃ v g', randint a b g = Ok (v, g') ∧ a ≤ v ≤ b.

(** What the loops of a constructor leave alone. *)
Definition same_parameters (self self' : IlpDataGen.problem) : Prop :=
  IlpDataGen.n self' = IlpDataGen.n self ∧
  IlpDataGen.min_len self' = IlpDataGen.min_len self ∧
  IlpDataGen.max_len self' = IlpDataGen.max_len self ∧
  IlpDataGen.symbols self' = IlpDataGen.symbols self ∧
  IlpDataGen.backgrounds self' = IlpDataGen.backgrounds self.

(** * Properties *)

(** ** Sorting *)

Section StableSortFacts.
Context {A : Type} (leb : A → A → bool).

Lemma insert_sorted_perm x l : insert_sorted leb x l ≡ₚ x :: l.
Proof.
  induction l as [|y l IH]; simpl; [done|].
  destruct (leb x y); [done|].
  rewrite IH. apply Permutation_swap.
Qed.

Lemma stable_sort_perm l : stable_sort leb l ≡ₚ l.
Proof.
  induction l as [|x l IH]; simpl; [done|].
  by rewrite insert_sorted_perm, IH.
Qed.

Lemma stable_sort_length l : length (stable_sort leb l) = length l.
Proof. by rewrite stable_sort_perm. Qed.

Hypothesis leb_total : ∀ x y, leb x y = false → leb y x = true.

Lemma insert_sorted_Sorted x l :
  Sorted (λ a b, leb a b = true) l → Sorted (λ a b, leb a b = true) (insert_sorted leb x l).
Proof.
  induction 1 as [|y l Hs IH Hd]; simpl.
  - repeat constructor.
  - destruct (leb x y) eqn:E.
    + constructor; [by constructor | by constructor].
    + constructor; [done|].
      destruct Hd as [|z l' Hz]; simpl.
      * constructor. by apply leb_total.
      * destruct (leb x z); constructor; [by apply leb_total | done].
Qed.

Lemma stable_sort_Sorted l : Sorted (λ a b, leb a b = true) (stable_sort leb l).
Proof.
  induction l as [|x l IH]; simpl; [constructor|].
  by apply insert_sorted_Sorted.
Qed.

Lemma stable_sort_of_Sorted l :
  Sorted (λ a b, leb a b = true) l → stable_sort leb l = l.
Proof.
  induction 1 as [|x l Hs IH Hd]; simpl; [done|].
  rewrite IH. destruct Hd as [|y l' Hy]; simpl; [done|].
  by rewrite Hy.
Qed.

Lemma stable_sort_idemp l : stable_sort leb (stable_sort leb l) = stable_sort leb l.
Proof. apply stable_sort_of_Sorted, stable_sort_Sorted. Qed.
End StableSortFacts.

Lemma x_leb_total a b : x_leb a b = false → x_leb b a = true.
Proof.
  unfold x_leb. intros H. apply Qle_bool_iff.
  destruct (Qlt_le_dec (x_coord b) (x_coord a)) as [Hlt|Hle].
  - by apply Qlt_le_weak.
  - apply Qle_bool_iff in Hle. congruence.
Qed.

(** ** Strings *)

Lemma contains_tail sub c s : contains sub (String c s) = false → contains sub s = false.
Proof.
  simpl. intros H. apply orb_false_iff in H. tauto.
Qed.

Lemma contains_prefix sub s : contains sub s = false → String.prefix sub s = false.
Proof.
  destruct s; simpl; intros H; apply orb_false_iff in H; tauto.
Qed.

Lemma replace_absent old new s : contains old s = false → replace old new s = s.
Proof.
  unfold replace. induction s as [|c s IH]; intros H; [done|].
  pose proof (contains_prefix _ _ H) as Hp.
  cbn [replace_from]. rewrite Hp. f_equal. apply IH.
  by eapply contains_tail.
Qed.

(** ** The scene under the list tasks *)



Lemma sorted_scene_idemp sc : sorted_scene (sorted_scene sc) = sorted_scene sc.
Proof.
  unfold sorted_scene, with_objects; simpl.
  by rewrite (stable_sort_idemp _ x_leb_total).
Qed.

Lemma delete_scene sc : (get_questions_and_answers_delete sc).2 = sorted_scene sc.
Proof. done. Qed.
Lemma append_scene sc : (get_questions_and_answers_append sc).2 = sorted_scene sc.
Proof. done. Qed.
Lemma reverse_scene sc : (get_questions_and_answers_reverse sc).2 = sorted_scene sc.
Proof. done. Qed.
Lemma sort_scene sc : (get_questions_and_answers_sort sc).2 = sorted_scene sc.
Proof. done. Qed.

Lemma behind_the_scenes_scene sc :
  (get_questions_and_answers_behind_the_scenes sc).2 = sorted_scene sc.
Proof.
  unfold get_questions_and_answers_behind_the_scenes.
  pose proof (delete_scene sc) as H1.
  destruct (get_questions_and_answers_delete sc) as [r1 sc1]; simpl in H1; subst sc1.
  destruct r1 as [[dq da]|e]; [|done].
  pose proof (append_scene (sorted_scene sc)) as H2.
  destruct (get_questions_and_answers_append (sorted_scene sc)) as [r2 sc2];
    simpl in H2; subst sc2.
  rewrite !sorted_scene_idemp.
  destruct r2 as [[aq aa]|e]; [|done].
  pose proof (reverse_scene (sorted_scene sc)) as H3.
  destruct (get_questions_and_answers_reverse (sorted_scene sc)) as [r3 sc3];
    simpl in H3; subst sc3.
  rewrite !sorted_scene_idemp.
  destruct r3 as [[rq ra]|e]; [|done].
  pose proof (sort_scene (sorted_scene sc)) as H4.
  destruct (get_questions_and_answers_sort (sorted_scene sc)) as [r4 sc4];
    simpl in H4; subst sc4.
  rewrite !sorted_scene_idemp.
  destruct r4 as [[sq sa]|e]; [|done].
  by destruct (negb _).
Qed.

(** ** The delete task *)

Lemma delete_loop_inv colors todo :
  ∀ acc_q acc_a qs answers,
    Forall (λ q, q.1.2 ∈ colors ∧ (q.2 = "1st" ∨ q.2 = "2nd")) acc_q →
    delete_loop colors todo acc_q acc_a = Ok (qs, answers) →
    Forall (λ q, q.1.2 ∈ colors ∧ (q.2 = "1st" ∨ q.2 = "2nd")) qs
    ∧ ∀ q, q ∈ qs → q ∈ acc_q ∨ q ∈ todo.
Proof.
  induction todo as [|[[ty col] pos] todo IH]; intros acc_q acc_a qs answers Hacc Hrun.
  - simpl in Hrun. inversion Hrun; subst. split; [done|]. auto.
  - simpl in Hrun.
    destruct (bool_decide (col ∈ colors)) eqn:Hc; simpl in Hrun.
    + destruct (bool_decide (pos ∈ ["1st"; "2nd"])) eqn:Hp; simpl in Hrun.
      * destruct (get_object_by_position _ pos) as [a|e]; simpl in Hrun; [|done].
        apply IH in Hrun as [HP Hin].
        -- split; [done|]. intros q Hq. destruct (Hin q Hq) as [H|H].
           ++ apply elem_of_app in H as [H|H]; [by left|].
              apply list_elem_of_singleton in H as ->. right. left.
           ++ right. by right.
        -- apply Forall_app. split; [done|]. constructor; [|done]. simpl.
           apply bool_decide_eq_true in Hc, Hp. split; [done|].
           apply elem_of_cons in Hp as [->|Hp]; [by left|].
           apply elem_of_cons in Hp as [->|Hp]; [by right|].
           by apply elem_of_nil in Hp.
      * apply IH in Hrun as [HP Hin]; [|done]. split; [done|].
        intros q Hq. destruct (Hin q Hq); [by left|right; by right].
    + apply IH in Hrun as [HP Hin]; [|done]. split; [done|].
      intros q Hq. destruct (Hin q Hq); [by left|right; by right].
Qed.

(** C10: every question returned by [get_questions_and_answers_delete] is
    one of the listed delete questions, its position is "1st" or "2nd" and
    never "3rd", and its query colour is the colour of an object of the
    scene. *)
Theorem delete_returns_first_and_second_only sc qs answers sc' :
  get_questions_and_answers_delete sc = (Ok (qs, answers), sc') →
  Forall (λ q, q ∈ delete_questions
               ∧ q.1.1 = "delete"
               ∧ (q.2 = "1st" ∨ q.2 = "2nd") ∧ q.2 ≠ "3rd"
               ∧ q.1.2 ∈ obj_color <$> objects sc) qs.
Proof.
  intros H. apply (f_equal fst) in H.
  change (delete_loop (obj_color <$> stable_sort x_leb (objects sc)) delete_questions [] []
          = Ok (qs, answers)) in H.
  apply delete_loop_inv in H as [HP Hin]; [|constructor].
  apply Forall_forall. intros q Hq.
  rewrite Forall_forall in HP. destruct (HP q Hq) as [Hc Hp].
  destruct (Hin q Hq) as [Hq'|Hq']; [by apply elem_of_nil in Hq'|].
  split; [done|]. split.
  - unfold delete_questions in Hq'.
    repeat (apply elem_of_cons in Hq' as [->|Hq']; [done|]).
    by apply elem_of_nil in Hq'.
  - split; [done|]. split; [by destruct Hp as [-> | ->]|].
    by rewrite (stable_sort_perm x_leb (objects sc)) in Hc.
Qed.

Lemma delete_returns_first_and_second_only_witness :
  Forall (λ q, q ∈ delete_questions
               ∧ q.1.1 = "delete"
               ∧ (q.2 = "1st" ∨ q.2 = "2nd") ∧ q.2 ≠ "3rd"
               ∧ q.1.2 ∈ obj_color <$> objects Demo.scene3)
         [ ("delete", "red", "1st"); ("delete", "red", "2nd");
           ("delete", "gray", "1st"); ("delete", "gray", "2nd");
           ("delete", "cyan", "1st"); ("delete", "cyan", "2nd") ].
Proof.
  apply (delete_returns_first_and_second_only Demo.scene3 _
           ["cyan"; "gray"; "cyan"; "red"; "gray"; "red"] (sorted_scene Demo.scene3)).
  vm_compute. reflexivity.
Defined.

(** ** [json_scene_to_objects] *)

(** C9: [json_scene_to_objects] returns [None] for every scene; the sorted
    list only shows in the scene itself. *)
Theorem json_scene_to_objects_returns_none sc :
  (json_scene_to_objects sc).1 = None
  ∧ objects (json_scene_to_objects sc).2 = stable_sort x_leb (objects sc).
Proof. done. Qed.

(** ** The append task *)


(** The first element after an append is the appended colour, whatever the
    list. *)
Lemma append_first_answer c colors :
  get_object_by_position (append_object c colors) "1st" = Ok c.
Proof. done. Qed.

(** C6, as the code has it: on a scene with at least two objects every
    question (append, c, "1st") is returned and its answer is [c], the
    prepended colour. *)
Theorem append_first_valid_two_objects sc :
  (2 ≤ length (objects sc))%nat → append_first_valid sc.
Proof.
  intros Hlen. unfold append_first_valid, get_questions_and_answers_append,
    json_scene_to_colors.
  cbn [fst].
  assert (Hc : (2 ≤ length (obj_color <$> stable_sort x_leb (objects sc)))%nat)
    by by rewrite length_fmap, stable_sort_length.
  destruct (obj_color <$> stable_sort x_leb (objects sc)) as [|a [|b rest]];
    simpl in Hc; [lia|lia|].
  eexists _, _. split; [vm_compute; reflexivity|].
  intros c Hin. unfold query_colors in Hin.
  apply elem_of_cons in Hin as [->|Hin]; [by exists 0%nat|].
  apply elem_of_cons in Hin as [->|Hin]; [by exists 3%nat|].
  apply elem_of_cons in Hin as [->|Hin]; [by exists 6%nat|].
  apply elem_of_cons in Hin as [->|Hin]; [by exists 9%nat|].
  by apply elem_of_nil in Hin.
Qed.

Lemma append_first_valid_two_objects_witness : append_first_valid Demo.scene3.
Proof.
  apply (append_first_valid_two_objects Demo.scene3). simpl. lia.
Defined.

(** C6, as stated, fails: on a scene without objects the generator raises
    [IndexError] at (append, red, "2nd") and returns no question at all. *)
Lemma append_first_invalid_on_empty_scene :
  (get_questions_and_answers_append Demo.empty_scene).1 = Raise IndexError
  ∧ ¬ append_first_valid Demo.empty_scene.
Proof.
  split; [done|]. intros (qs & answers & H & _). vm_compute in H. discriminate.
Qed.

Example append_first_invalid_on_one_object :
  (get_questions_and_answers_append Demo.scene1).1 = Raise IndexError.
Proof. done. Qed.

Example append_yellow_first :
  ∃ qs answers,
    (get_questions_and_answers_append Demo.scene3).1 = Ok (qs, answers)
    ∧ qs !! 6%nat = Some ("append", "yellow", "1st") ∧ answers !! 6%nat = Some "yellow".
Proof. eexists _, _. split; [vm_compute; reflexivity|done]. Qed.

(** ** The "other" heuristic *)

Lemma remove_other_loop_existsb param_vals pairs :
  remove_other_loop param_vals pairs = existsb (pair_differs param_vals) pairs.
Proof.
  induction pairs as [|kp l IH]; simpl; [done|].
  destruct (pair_differs param_vals kp); simpl; [done|]. apply IH.
Qed.

(** C4, as the code has it: the text changes only if it contains " other "
    or " another ", the keys are exactly the eight comparison slots, and at
    least one pair has two non-empty, different values; then every
    " other " becomes a space and every " another " becomes " a ". *)
Theorem other_heuristic_rewrites text param_vals :
  other_heuristic text param_vals =
    if (contains " other " text || contains " another " text)
       && bool_decide (dom param_vals = target_keys)
       && existsb (pair_differs param_vals) key_pairs
    then replace " another " " a " (replace " other " " " text)
    else text.
Proof.
  unfold other_heuristic. rewrite remove_other_loop_existsb.
  generalize (existsb (pair_differs param_vals) key_pairs). intros b.
  destruct (contains " other " text) eqn:Ho; simpl.
  - destruct (bool_decide (dom param_vals = target_keys)); simpl; [|done].
    destruct b; [|done].
    destruct (contains " another " (replace " other " " " text)) eqn:Ha; [done|].
    by rewrite (replace_absent _ _ _ Ha).
  - destruct (contains " another " text) eqn:Ha; simpl; [|done].
    destruct (bool_decide (dom param_vals = target_keys)); simpl; [|done].
    destruct b; [|done].
    by rewrite (replace_absent _ _ _ Ho).
Qed.


(** C4, as stated, fails: with only the sizes different the text is
    rewritten although three of the four pairs are equal. *)
Lemma other_heuristic_one_pair_suffices :
  other_heuristic "Is there another cube of the same color?" one_pair_differs
    = "Is there a cube of the same color?"
  ∧ dom one_pair_differs = target_keys
  ∧ pair_differs one_pair_differs ("<C>", "<C2>") = false
  ∧ ¬ Forall (λ kp, pair_differs one_pair_differs kp = true) key_pairs.
Proof.
  split; [by vm_compute|]. split; [by vm_compute|]. split; [by vm_compute|].
  intros H. apply Forall_cons in H as [_ H]. apply Forall_cons in H as [H _].
  vm_compute in H. discriminate.
Qed.

(** ** The scene under the attribute and relation indices *)


Lemma scene_ext_refl md sc : scene_ext md sc sc.
Proof. repeat split; auto. Qed.

Lemma Ok_inj {A} (a b : A) : Ok a = Ok b → a = b.
Proof. by intros [= ->]. Qed.

Lemma precompute_filter_options_frame sc md sc' :
  precompute_filter_options sc md = Ok sc' →
  objects sc' = objects sc ∧ relationships sc' = relationships sc
  ∧ is_Some (_filter_options sc').
Proof.
  unfold precompute_filter_options. destruct (negb _); [discriminate|].
  intros H. apply Ok_inj in H. subst sc'.
  split; [reflexivity|]. split; [reflexivity|].
  eexists. reflexivity.
Qed.

Lemma scene_ext_trans md sc1 sc2 sc3 :
  scene_ext md sc1 sc2 → scene_ext md sc2 sc3 → scene_ext md sc1 sc3.
Proof.
  intros (Ho1 & Hr1 & H1) (Ho2 & Hr2 & H2).
  destruct H2 as [->|[Hn2 Hp2]]; [by repeat split|].
  destruct H1 as [->|[Hn1 Hp1]]; [repeat split; auto|].
  apply precompute_filter_options_frame in Hp1 as (_ & _ & [x Hx]). congruence.
Qed.

Lemma ensure_filter_options_ext sc md sc' :
  ensure_filter_options sc md = Ok sc' → scene_ext md sc sc' ∧ is_Some (_filter_options sc').
Proof.
  unfold ensure_filter_options. destruct (_filter_options sc) eqn:E.
  - intros [= <-]. split; [apply scene_ext_refl|]. rewrite E. eauto.
  - intros H. pose proof (precompute_filter_options_frame _ _ _ H) as (Ho & Hr & Hs).
    repeat split; auto.
Qed.

(** Case analysis on the first failing or succeeding step of a computation
    in the result monad. *)
Ltac split_pairs :=
  repeat match goal with
    | x : (_ * _)%type |- _ => destruct x
    end.

Ltac bind_ok H :=
  repeat match type of H with
    | rbind ?m _ = Ok _ =>
        let E := fresh "E" in
        let a := fresh "a" in
        destruct m as [a|] eqn:E; cbn beta iota delta [rbind] in H;
        [split_pairs|discriminate H]
    | (let '(_, _) := ?p in _) = Ok _ =>
        let E := fresh "E" in destruct p eqn:E
    end.

Ltac ok_inj H :=
  apply Ok_inj in H;
  repeat (apply pair_equal_spec in H; let H' := fresh H in destruct H as [H H']);
  subst.

Lemma find_filter_options_ext v sc md fo sc' :
  find_filter_options v sc md = Ok (fo, sc') → scene_ext md sc sc'.
Proof.
  unfold find_filter_options. intros H. bind_ok H. ok_inj H.
  by apply ensure_filter_options_ext in E as [? _].
Qed.

(** ** The search loop *)

Section GenerationFacts.
Context {rng : Type}.
Variable shuffle : ∀ A : Type, list A → rng → list A * rng.
Variable randbelow : nat → rng → nat * rng.
Variable answer_question : list node → metadata → scene → result (list pyval).
Variable is_degenerate : list node → metadata → scene → pyval → bool.

Local Abbreviation process_state' :=
  (process_state shuffle randbelow answer_question is_degenerate).
Local Abbreviation round' := (round shuffle randbelow answer_question is_degenerate).
Local Abbreviation dfs_loop' := (dfs_loop shuffle randbelow answer_question is_degenerate).
Local Abbreviation expand' := (expand shuffle randbelow).
Local Abbreviation halts' := (halts shuffle randbelow answer_question is_degenerate).

Lemma find_relate_filter_options_ext v sc md u z f g opts sc' g' :
  find_relate_filter_options shuffle v sc md u z f g = Ok (opts, sc', g') →
  scene_ext md sc sc'.
Proof.
  unfold find_relate_filter_options. intros H. bind_ok H. ok_inj H.
  by apply ensure_filter_options_ext in E as [? _].
Qed.

Lemma special_filter_options_ext md n v sc g fo sc' g' :
  special_filter_options shuffle md n v sc g = Ok (fo, sc', g') → scene_ext md sc sc'.
Proof.
  unfold special_filter_options. intros H.
  destruct (startswith (node_type n) "relate_filter").
  - bind_ok H. ok_inj H. by eapply find_relate_filter_options_ext.
  - bind_ok H. apply find_filter_options_ext in E.
    destruct (bool_decide (node_type n = "filter_unique")).
    + by ok_inj H.
    + bind_ok H. by ok_inj H.
Qed.

Lemma expand_ext t md st a sc g succs sc' g' :
  expand' t md st a sc g = Ok (succs, sc', g') → scene_ext md sc sc'.
Proof.
  unfold expand. intros H. bind_ok H.
  destruct (bool_decide (_ ∈ special_nodes)).
  - unfold expand_special in H. bind_ok H.
    apply special_filter_options_ext in E0. by ok_inj H.
  - destruct (side_inputs _).
    + bind_ok H. ok_inj H. apply scene_ext_refl.
    + bind_ok H. ok_inj H. apply scene_ext_refl.
Qed.

(** *** Successor states *)

Lemma expand_option_next md pntt st n k g s g' :
  expand_option randbelow md pntt st n k g = Ok (s, g') →
  next_template_node s = S (next_template_node st).
Proof.
  unfold expand_option. intros H. bind_ok H. ok_inj H. simpl. lia.
Qed.

Lemma expand_options_next md pntt st n keys :
  ∀ g succs g',
    expand_options randbelow md pntt st n keys g = Ok (succs, g') →
    Forall (λ s, next_template_node s = S (next_template_node st)) succs.
Proof.
  induction keys as [|k keys IH]; intros g succs g' H; simpl in H.
  - ok_inj H. constructor.
  - bind_ok H. ok_inj H. constructor.
    + by eapply expand_option_next.
    + by eapply IH.
Qed.

Lemma mapM_Forall {A B} (f : A → result B) (P : B → Prop) l :
  (∀ x y, f x = Ok y → P y) → ∀ ys, mapM f l = Ok ys → Forall P ys.
Proof.
  intros Hf. induction l as [|x l IH]; intros ys H; simpl in H.
  - ok_inj H. constructor.
  - bind_ok H. ok_inj H. constructor; eauto.
Qed.

Lemma expand_param_next md pntt st n side g succs g' :
  expand_param shuffle md pntt st n side g = Ok (succs, g') →
  Forall (λ s, next_template_node s = S (next_template_node st)) succs.
Proof.
  unfold expand_param. intros H. destruct (negb _); [discriminate|].
  bind_ok H. ok_inj H.
  eapply mapM_Forall; [|exact E3].
  intros val s Hs. simpl in Hs. bind_ok Hs. ok_inj Hs. simpl. lia.
Qed.

Lemma expand_plain_next st n succs :
  expand_plain st n = Ok succs →
  Forall (λ s, next_template_node s = S (next_template_node st)) succs.
Proof.
  unfold expand_plain. intros H. bind_ok H. ok_inj H.
  constructor; [simpl; lia|constructor].
Qed.

Lemma expand_next t md st a sc g succs sc' g' :
  expand' t md st a sc g = Ok (succs, sc', g') →
  (next_template_node st < length (t_nodes t))%nat
  ∧ Forall (λ s, next_template_node s = S (next_template_node st)) succs.
Proof.
  unfold expand. intros H. bind_ok H. split.
  { unfold py_index in E. destruct (t_nodes t !! next_template_node st) eqn:El;
      [|discriminate]. by apply lookup_lt_Some in El. }
  destruct (bool_decide (_ ∈ special_nodes)).
  - unfold expand_special in H. bind_ok H. ok_inj H. by eapply expand_options_next.
  - destruct (side_inputs _).
    + bind_ok H. ok_inj H. by eapply expand_param_next.
    + bind_ok H. ok_inj H. by eapply expand_plain_next.
Qed.

(** *** One round *)

Lemma process_state_accepted t md st ac sc g st' ac' sc' g' :
  process_state' t md st ac sc g = Ok (Accepted st' ac', sc', g') →
  sc' = sc ∧ g' = g
  ∧ ∃ outputs a,
      answer_question (nodes st) md sc = Ok outputs
      ∧ py_index_neg outputs 1 = Ok a
      ∧ py_eqb a INVALID = false
      ∧ check_constraints (param_name_to_type t) st outputs (t_constraints t) = Ok false
      ∧ next_template_node st = length (t_nodes t)
      ∧ rejection_sampling ac a = Ok true
      ∧ st' = with_answer st a
      ∧ ac' = counts_incr a ac.
Proof.
  unfold process_state. intros H. bind_ok H.
  destruct (py_eqb a0 INVALID) eqn:Hinv; [by ok_inj H|].
  bind_ok H. destruct a1; [by ok_inj H|].
  destruct (bool_decide (next_template_node st = length (t_nodes t))) eqn:Hn.
  - apply bool_decide_eq_true in Hn. bind_ok H.
    destruct a1; simpl in H; [|by ok_inj H].
    destruct (_ && _); [by ok_inj H|].
    ok_inj H. injection H as <- <-.
    split; [done|]. split; [done|]. by exists a, a0.
  - bind_ok H. by ok_inj H.
Qed.

Lemma process_state_pushed t md st ac sc g succs sc' g' :
  process_state' t md st ac sc g = Ok (Pushed succs, sc', g') →
  (next_template_node st < length (t_nodes t))%nat
  ∧ Forall (λ s, next_template_node s = S (next_template_node st)) succs.
Proof.
  unfold process_state. intros H. bind_ok H.
  destruct (py_eqb a0 INVALID); [by ok_inj H|].
  bind_ok H. destruct a1; [by ok_inj H|].
  destruct (bool_decide (next_template_node st = length (t_nodes t))).
  - bind_ok H. destruct a1; simpl in H; [|by ok_inj H].
    destruct (_ && _); by ok_inj H.
  - bind_ok H. ok_inj H. injection H as <-. by eapply expand_next.
Qed.

Lemma process_state_ext t md st ac sc g act sc' g' :
  process_state' t md st ac sc g = Ok (act, sc', g') → scene_ext md sc sc'.
Proof.
  unfold process_state. intros H. bind_ok H.
  destruct (py_eqb a0 INVALID); [ok_inj H; apply scene_ext_refl|].
  bind_ok H. destruct a1; [ok_inj H; apply scene_ext_refl|].
  destruct (bool_decide (next_template_node st = length (t_nodes t))).
  - bind_ok H. destruct a1; simpl in H; [|ok_inj H; apply scene_ext_refl].
    destruct (_ && _); ok_inj H; apply scene_ext_refl.
  - bind_ok H. ok_inj H. by eapply expand_ext.
Qed.

(** *** The loop *)

Lemma round_inv t md mx c c' :
  round' t md mx c = Continue c' ∨ round' t md mx c = Finished (Ok c') →
  (states c = [] ∧ c' = c)
  ∨ ∃ st rest act,
      states c = st :: rest
      ∧ process_state' t md st (answer_counts c) (cur_scene c) (gen c)
        = Ok (act, cur_scene c', gen c')
      ∧ match act with
        | Skip =>
            states c' = rest ∧ final_states c' = final_states c
            ∧ answer_counts c' = answer_counts c
        | Accepted st' ac' =>
            states c' = rest ∧ final_states c' = final_states c ++ [st']
            ∧ answer_counts c' = ac'
        | Pushed succs =>
            states c' = reverse succs ++ rest ∧ final_states c' = final_states c
            ∧ answer_counts c' = answer_counts c
        end.
Proof.
  unfold round. destruct (states c) as [|st rest] eqn:Es.
  - intros [H|H]; [discriminate|]. left. split; [done|]. congruence.
  - intros H. right. exists st, rest.
    destruct (process_state' t md st (answer_counts c) (cur_scene c) (gen c))
      as [[[act sc] g]|e]; [|destruct H; discriminate].
    exists act. destruct act as [|st' ac'|succs].
    + destruct H as [H|H]; [|discriminate]. injection H as <-. by simpl.
    + destruct (bool_decide _); destruct H as [H|H]; try discriminate.
      * apply (f_equal (λ r, match r with Finished (Ok x) => x | _ => c end)) in H.
        simpl in H. subst c'. by simpl.
      * injection H as <-. by simpl.
    + destruct H as [H|H]; [|discriminate]. injection H as <-. by simpl.
Qed.

Lemma dfs_loop_invariant t md mx (I : config → Prop) :
  (∀ c c', I c →
           round' t md mx c = Continue c' ∨ round' t md mx c = Finished (Ok c') → I c') →
  ∀ fuel c c', I c → dfs_loop' fuel t md mx c = Some (Ok c') → I c'.
Proof.
  intros Hstep. induction fuel as [|fuel IH]; intros c c' Hc H; simpl in H; [discriminate|].
  destruct (round' t md mx c) as [r|c1] eqn:Er.
  - injection H as ->. eapply Hstep; eauto.
  - eapply IH; [|exact H]. eapply Hstep; eauto.
Qed.

Lemma dfs_loop_accepted t md mx sc0 fuel c c' :
  scene_ext md sc0 (cur_scene c) →
  Forall (accepted_ok answer_question t md sc0) (final_states c) →
  dfs_loop' fuel t md mx c = Some (Ok c') →
  scene_ext md sc0 (cur_scene c')
  ∧ Forall (accepted_ok answer_question t md sc0) (final_states c').
Proof.
  intros Hsc Hfin Hrun.
  apply (dfs_loop_invariant t md mx
           (λ c, scene_ext md sc0 (cur_scene c)
                 ∧ Forall (accepted_ok answer_question t md sc0) (final_states c)))
    with (fuel := fuel) (c := c); [|done|done].
  clear. intros c c' [Hsc Hfin] Hr.
  apply round_inv in Hr as [[_ ->]|(st & rest & act & Es & Hp & Hact)]; [done|].
  pose proof (process_state_ext _ _ _ _ _ _ _ _ _ Hp) as Hext.
  split; [by eapply scene_ext_trans|].
  destruct act as [|st' ac'|succs].
  - destruct Hact as (_ & -> & _). done.
  - destruct Hact as (_ & -> & _). apply Forall_app. split; [done|].
    constructor; [|done].
    apply process_state_accepted in Hp
      as (_ & _ & outputs & a & Ho & Ha & Hinv & Hcs & Hn & _ & -> & _).
    by exists (cur_scene c), outputs, a, st.
  - destruct Hact as (_ & -> & _). done.
Qed.

Lemma instantiate_accepted fuel sc t md counts mx g c :
  instantiate_templates_dfs shuffle randbelow answer_question is_degenerate
    fuel sc t md counts mx g = Some (Ok c) →
  scene_ext md sc (cur_scene c)
  ∧ Forall (accepted_ok answer_question t md sc) (final_states c).
Proof.
  unfold instantiate_templates_dfs. destruct (initial_state t) as [st|e]; [|discriminate].
  intros H. eapply dfs_loop_accepted; [| |exact H]; simpl.
  - apply scene_ext_refl.
  - constructor.
Qed.

Lemma py_index_neg_last {A} (l : list A) a : py_index_neg l 1 = Ok a → last l = Some a.
Proof.
  unfold py_index_neg, py_index. destruct (decide _) as [Hl|]; [|discriminate].
  rewrite last_lookup. replace (pred (length l)) with (length l - 1)%nat by lia.
  destruct (l !! (length l - 1)%nat); simpl; [|discriminate].
  intros H. apply Ok_inj in H. by subst.
Qed.

Lemma py_eqb_invalid a : py_eqb a INVALID = false → a ≠ INVALID.
Proof. intros H ->. by vm_compute in H. Qed.

Lemma constraint_violated_holds pntt st outputs c :
  constraint_violated pntt st outputs c = Ok false → constraint_holds pntt st outputs c.
Proof.
  destruct c as [p1 p2|p|i j|ty]; simpl; intros H.
  - intros v1 v2 H1 H2. rewrite H1, H2 in H. apply Ok_inj in H.
    apply negb_false_iff, bool_decide_eq_true in H. done.
  - bind_ok H. intros v Hv. rewrite Hv in H. apply Ok_inj in H.
    exists a. split.
    { destruct (pntt !! p); simpl in E; [|discriminate]. apply Ok_inj in E. by subst. }
    destruct (bool_decide (a = "Shape")); simpl in H.
    + destruct (bool_decide (v = "thing")) eqn:Ev; simpl in H; [|discriminate].
      by apply bool_decide_eq_true in Ev.
    + destruct (bool_decide (v = "")) eqn:Ev; simpl in H; [|discriminate].
      by apply bool_decide_eq_true in Ev.
  - intros i' j' Hi Hj. rewrite Hi, Hj in H. bind_ok H. apply Ok_inj in H.
    by exists a, a0.
  - discriminate.
Qed.

Lemma check_constraints_holds pntt st outputs cs :
  check_constraints pntt st outputs cs = Ok false →
  Forall (constraint_holds pntt st outputs) cs.
Proof.
  induction cs as [|c cs IH]; simpl; intros H; [constructor|].
  bind_ok H. destruct a; [by apply Ok_inj in H|].
  constructor; [by apply constraint_violated_holds|by apply IH].
Qed.

Lemma constraint_holds_with_answer pntt st a outputs c :
  constraint_holds pntt st outputs c → constraint_holds pntt (with_answer st a) outputs c.
Proof. by destruct c. Qed.

(** C1: every state in the accepted list carries an answer that is the last
    output of the evaluator on its node sequence and differs from the invalid
    marker. *)
Theorem accepted_states_valid fuel sc t md counts mx g c :
  instantiate_templates_dfs shuffle randbelow answer_question is_degenerate
    fuel sc t md counts mx g = Some (Ok c) →
  Forall (λ st, ∃ a sc' outputs,
                  answer st = Some a
                  ∧ a ≠ INVALID
                  ∧ scene_ext md sc sc'
                  ∧ answer_question (nodes st) md sc' = Ok outputs
                  ∧ last outputs = Some a)
         (final_states c).
Proof.
  intros H. apply instantiate_accepted in H as [_ H].
  eapply Forall_impl; [exact H|]. clear.
  intros st' (sc' & outputs & a & st & Hext & -> & Ho & Ha & Hinv & _).
  exists a, sc', outputs. simpl.
  split; [done|]. split; [by apply py_eqb_invalid|].
  split; [done|]. split; [done|]. by apply py_index_neg_last.
Qed.

(** C2: every constraint declared on the template holds for every accepted
    state, over its bound values and the outputs of its nodes. *)
Theorem accepted_states_satisfy_constraints fuel sc t md counts mx g c :
  instantiate_templates_dfs shuffle randbelow answer_question is_degenerate
    fuel sc t md counts mx g = Some (Ok c) →
  Forall (λ st, ∃ sc' outputs,
                  scene_ext md sc sc'
                  ∧ answer_question (nodes st) md sc' = Ok outputs
                  ∧ Forall (constraint_holds (param_name_to_type t) st outputs)
                           (t_constraints t))
         (final_states c).
Proof.
  intros H. apply instantiate_accepted in H as [_ H].
  eapply Forall_impl; [exact H|]. clear.
  intros st' (sc' & outputs & a & st & Hext & -> & Ho & Ha & Hinv & Hcs & _).
  exists sc', outputs. simpl. split; [done|]. split; [done|].
  apply check_constraints_holds in Hcs.
  eapply Forall_impl; [exact Hcs|]. intros c. apply constraint_holds_with_answer.
Qed.

(** *** Rejection sampling *)

Lemma rejection_sampling_keep ac a :
  rejection_sampling ac a = Ok true →
  ∃ cur median second,
    counts_lookup a ac = Ok cur
    ∧ median_of ac = Ok median
    ∧ second_largest_of ac = Ok second
    ∧ 10 * cur ≤ 11 * second
    ∧ cur ≤ 5 * Z.max median 5.
Proof.
  unfold rejection_sampling. intros H. bind_ok H.
  destruct (11 * a2 <? 10 * a0) eqn:H1; [by apply Ok_inj in H|].
  destruct (5 * Z.max a1 5 <? a0) eqn:H2; [by apply Ok_inj in H|].
  exists a0, a1, a2. repeat split; auto; lia.
Qed.

Lemma counts_get_incr a ac cur :
  counts_get a ac = Some cur → counts_get a (counts_incr a ac) = Some (cur + 1).
Proof.
  induction ac as [|[k c] ac IH]; simpl; [discriminate|].
  destruct (py_eqb k a) eqn:Ek; simpl; rewrite Ek; [|done].
  by intros [= ->].
Qed.

Lemma counts_lookup_incr a ac cur :
  counts_lookup a ac = Ok cur → counts_lookup a (counts_incr a ac) = Ok (cur + 1).
Proof.
  unfold counts_lookup. destruct a; try discriminate;
    (destruct (counts_get _ ac) eqn:E; simpl; [|discriminate];
     intros H; apply Ok_inj in H; subst;
     by rewrite (counts_get_incr _ _ _ E)).
Qed.

(** C3, as the code has it: a round changes the answer counts only by
    accepting a state; the count of the accepted answer, before it is
    incremented, is at most 1.1 times the second-largest count and at most
    5 times max(median, 5) of the counts at that moment, and it grows by
    exactly one. *)
Theorem acceptance_respects_thresholds t md mx c c' :
  round' t md mx c = Continue c' ∨ round' t md mx c = Finished (Ok c') →
  (final_states c' = final_states c ∧ answer_counts c' = answer_counts c)
  ∨ ∃ st' a cur median second,
      final_states c' = final_states c ++ [st']
      ∧ answer st' = Some a
      ∧ counts_lookup a (answer_counts c) = Ok cur
      ∧ median_of (answer_counts c) = Ok median
      ∧ second_largest_of (answer_counts c) = Ok second
      ∧ 10 * cur ≤ 11 * second
      ∧ cur ≤ 5 * Z.max median 5
      ∧ answer_counts c' = counts_incr a (answer_counts c)
      ∧ counts_lookup a (answer_counts c') = Ok (cur + 1).
Proof.
  intros Hr.
  apply round_inv in Hr as [[_ ->]|(st & rest & act & Es & Hp & Hact)]; [by left|].
  destruct act as [|st' ac'|succs].
  - left. by destruct Hact as (_ & -> & ->).
  - right. destruct Hact as (_ & -> & ->).
    apply process_state_accepted in Hp
      as (_ & _ & outputs & a & _ & _ & _ & _ & _ & Hrs & -> & ->).
    apply rejection_sampling_keep in Hrs as (cur & median & second & Hc & Hm & Hs & H1 & H2).
    exists (with_answer st a), a, cur, median, second.
    repeat split; auto using counts_lookup_incr.
  - left. by destruct Hact as (_ & -> & ->).
Qed.

(** *** Termination *)

Lemma round_finished_exit t md mx c r : round' t md mx c = Finished r → loop_exit mx r.
Proof.
  unfold round. destruct (states c) as [|st rest] eqn:Es.
  - intros [= <-]. simpl. by left.
  - destruct (process_state' t md st (answer_counts c) (cur_scene c) (gen c))
      as [[[act sc] g]|e].
    + destruct act as [|st' ac'|succs]; try discriminate.
      destruct (bool_decide _) eqn:Eb; [|discriminate].
      intros [= <-]. simpl. right. by apply bool_decide_eq_true in Eb.
    + by intros [= <-].
Qed.

Lemma halts_finish t md mx c r : round' t md mx c = Finished r → halts' t md mx c.
Proof.
  intros H. exists 1%nat, r. simpl. rewrite H. split; [done|].
  by eapply round_finished_exit.
Qed.

Lemma halts_step t md mx c c' :
  round' t md mx c = Continue c' → halts' t md mx c' → halts' t md mx c.
Proof.
  intros H (fuel & r & Hrun & Hexit). exists (S fuel), r. simpl. by rewrite H.
Qed.

Lemma halts_stack t md mx :
  ∀ d stack,
    Forall (λ s, (length (t_nodes t) - next_template_node s ≤ d)%nat) stack →
    ∀ rest,
      (∀ fs ac sc g, halts' t md mx (Build_config rest fs ac sc g)) →
      ∀ fs ac sc g, halts' t md mx (Build_config (stack ++ rest) fs ac sc g).
Proof.
  induction d as [d IHd] using lt_wf_ind.
  induction stack as [|s stack IHs]; intros Hall rest Hrest fs ac sc g; [apply Hrest|].
  apply Forall_cons in Hall as [Hs Hall].
  destruct (round' t md mx (Build_config ((s :: stack) ++ rest) fs ac sc g))
    as [r|c'] eqn:Er; [by eapply halts_finish|].
  eapply halts_step; [exact Er|].
  pose proof (round_inv _ _ _ _ _ (or_introl Er)) as [[Hnil _]|(st & rest' & act & Es & Hp & Hact)];
    [discriminate|].
  simpl in Es. injection Es as <- <-. simpl in Hp.
  destruct c' as [st' fs' ac' sc' g']. simpl in Hact, Hp.
  destruct act as [|sa aa|succs].
  - destruct Hact as (-> & _). by apply IHs.
  - destruct Hact as (-> & _). by apply IHs.
  - destruct Hact as (-> & _).
    apply process_state_pushed in Hp as [Hlt Hsuccs].
    apply (IHd (length (t_nodes t) - S (next_template_node s))%nat); [lia| |].
    + apply Forall_reverse. eapply Forall_impl; [exact Hsuccs|].
      intros x Hx. simpl in Hx. rewrite Hx. lia.
    + intros fs1 ac1 sc1 g1. by apply IHs.
Qed.

Lemma halts_all t md mx c : halts' t md mx c.
Proof.
  destruct c as [stack fs ac sc g].
  rewrite <- (app_nil_r stack).
  apply (halts_stack t md mx (length (t_nodes t))).
  - apply Forall_forall. intros s _. lia.
  - intros fs1 ac1 sc1 g1. by eapply halts_finish.
Qed.

(** C7: the search loop ends for every scene and template, with the stack
    empty, the cap reached or an exception; the initial state and every
    pushed successor have a next-template-node index that is at most the
    number of template nodes, and a successor's index is its parent's plus
    one. *)
Theorem dfs_terminates sc t md counts mx g :
  (∃ fuel r,
     instantiate_templates_dfs shuffle randbelow answer_question is_degenerate
       fuel sc t md counts mx g = Some r
     ∧ loop_exit mx r)
  ∧ (∀ st, initial_state t = Ok st →
           (next_template_node st ≤ length (t_nodes t))%nat)
  ∧ (∀ st ac sc1 g1 succs sc2 g2,
       process_state' t md st ac sc1 g1 = Ok (Pushed succs, sc2, g2) →
       Forall (λ s, next_template_node s = S (next_template_node st)
                    ∧ (next_template_node s ≤ length (t_nodes t))%nat) succs).
Proof.
  split; [|split].
  - unfold instantiate_templates_dfs. destruct (initial_state t) as [st|e].
    + apply halts_all.
    + by exists 0%nat, (Raise e).
  - unfold initial_state, py_index. intros st H.
    destruct (t_nodes t) as [|n0 ns]; simpl in H; [discriminate|].
    apply Ok_inj in H. subst st. simpl. lia.
  - intros st ac sc1 g1 succs sc2 g2 H.
    apply process_state_pushed in H as [Hlt Hs].
    eapply Forall_impl; [exact Hs|]. intros s Hn. simpl in Hn. split; [done|lia].
Qed.

(** *** The scene *)

(** C8, as the code has it: the list tasks sort the scene's object list in
    place by the first coordinate and change nothing else; the attribute
    index and the template expander leave objects and relationships as they
    are and only attach the index. *)
Theorem scene_changes :
  (∀ sc,
     (get_questions_and_answers_behind_the_scenes sc).2 = sorted_scene sc
     ∧ objects (sorted_scene sc) = stable_sort x_leb (objects sc)
     ∧ objects (sorted_scene sc) ≡ₚ objects sc
     ∧ relationships (sorted_scene sc) = relationships sc
     ∧ _filter_options (sorted_scene sc) = _filter_options sc)
  ∧ (∀ sc md sc',
       precompute_filter_options sc md = Ok sc' →
       objects sc' = objects sc ∧ relationships sc' = relationships sc)
  ∧ (∀ fuel sc t md counts mx g c,
       instantiate_templates_dfs shuffle randbelow answer_question is_degenerate
         fuel sc t md counts mx g = Some (Ok c) →
       scene_ext md sc (cur_scene c)).
Proof.
  split; [|split].
  - intros sc. split; [apply behind_the_scenes_scene|].
    split; [done|]. split; [apply stable_sort_perm|]. done.
  - intros sc md sc' H. by apply precompute_filter_options_frame in H as (? & ? & _).
  - intros fuel sc t md counts mx g c H. by apply instantiate_accepted in H as [? _].
Qed.
End GenerationFacts.

(** ** Concrete runs *)

Lemma accepted_states_valid_witness :
  ∃ c, Demo.run 100 Demo.scene3 Demo.query_template Demo.color_counts None = Some (Ok c)
       ∧ Forall (λ st, ∃ a sc' outputs,
                         answer st = Some a
                         ∧ a ≠ INVALID
                         ∧ scene_ext Demo.md Demo.scene3 sc'
                         ∧ Demo.answer_question (nodes st) Demo.md sc' = Ok outputs
                         ∧ last outputs = Some a)
                (final_states c).
Proof.
  eexists. split; [vm_compute; reflexivity|].
  apply (accepted_states_valid Demo.shuffle Demo.randbelow Demo.answer_question
           Demo.is_degenerate 100 Demo.scene3 Demo.query_template Demo.md
           Demo.color_counts None 0%nat).
  vm_compute. reflexivity.
Defined.

Lemma accepted_states_satisfy_constraints_witness :
  ∃ c, Demo.run 100 Demo.scene3 Demo.query_template Demo.color_counts (Some 1)
       = Some (Ok c)
       ∧ Forall (λ st, ∃ sc' outputs,
                         scene_ext Demo.md Demo.scene3 sc'
                         ∧ Demo.answer_question (nodes st) Demo.md sc' = Ok outputs
                         ∧ Forall (constraint_holds
                                     (param_name_to_type Demo.query_template) st outputs)
                                  (t_constraints Demo.query_template))
                (final_states c).
Proof.
  eexists. split; [vm_compute; reflexivity|].
  apply (accepted_states_satisfy_constraints Demo.shuffle Demo.randbelow
           Demo.answer_question Demo.is_degenerate 100 Demo.scene3 Demo.query_template
           Demo.md Demo.color_counts (Some 1) 0%nat).
  vm_compute. reflexivity.
Defined.

Example query_run_accepts_one :
  ∃ c, Demo.run 100 Demo.scene3 Demo.query_template Demo.color_counts None = Some (Ok c)
       ∧ answer <$> final_states c = [Some (VStr "cyan")]
       ∧ answer_counts c
         = [(VStr "red", 0); (VStr "gray", 0); (VStr "cyan", 1); (VStr "yellow", 0)].
Proof. eexists. split; [vm_compute; reflexivity|]. by vm_compute. Qed.

Lemma acceptance_respects_thresholds_witness :
  ∃ c',
    round Demo.shuffle Demo.randbelow Demo.answer_question Demo.is_degenerate
      Demo.count_template Demo.md None Demo.count_config = Continue c'
    ∧ ((final_states c' = final_states Demo.count_config
        ∧ answer_counts c' = answer_counts Demo.count_config)
       ∨ ∃ st' a cur median second,
           final_states c' = final_states Demo.count_config ++ [st']
           ∧ answer st' = Some a
           ∧ counts_lookup a (answer_counts Demo.count_config) = Ok cur
           ∧ median_of (answer_counts Demo.count_config) = Ok median
           ∧ second_largest_of (answer_counts Demo.count_config) = Ok second
           ∧ 10 * cur ≤ 11 * second
           ∧ cur ≤ 5 * Z.max median 5
           ∧ answer_counts c' = counts_incr a (answer_counts Demo.count_config)
           ∧ counts_lookup a (answer_counts c') = Ok (cur + 1)).
Proof.
  eexists. split; [vm_compute; reflexivity|].
  apply (acceptance_respects_thresholds Demo.shuffle Demo.randbelow Demo.answer_question
           Demo.is_degenerate Demo.count_template Demo.md None Demo.count_config).
  left. vm_compute. reflexivity.
Defined.

Lemma integer_counts_zero : Forall (λ p : pyval * Z, p.2 = 0) Demo.integer_counts.
Proof. repeat constructor. Qed.

(** C3, as stated, fails: from counts that are all zero one acceptance
    takes the answer 1 to the count 1, above 1.1 times the second-largest
    count, which is still 0 and is not the count of that answer. *)
Lemma balance_bound_broken_by_acceptance :
  balance_bound Demo.integer_counts
  ∧ ∃ c, Demo.run 10 Demo.scene1 Demo.count_template Demo.integer_counts None
         = Some (Ok c)
         ∧ counts_get (VInt 1) (answer_counts c) = Some 1
         ∧ second_largest_of (answer_counts c) = Ok 0
         ∧ ¬ balance_bound (answer_counts c).
Proof.
  split.
  - exists 0, 0. split; [by vm_compute|]. split; [by vm_compute|].
    intros a cnt Hin. pose proof integer_counts_zero as Hz.
    rewrite Forall_forall in Hz. apply Hz in Hin. simpl in Hin. lia.
  - eexists. split; [vm_compute; reflexivity|].
    split; [by vm_compute|]. split; [by vm_compute|].
    intros (median & second & Hm & Hs & H).
    vm_compute in Hs. apply Ok_inj in Hs. subst second.
    destruct (H (VInt 1) 1) as [_ [Hc|Hc]]; [|lia|lia].
    simpl. apply elem_of_cons. right. apply elem_of_cons. by left.
Qed.

(** The other threshold of C3 fails as well: after twelve scenes of one
    window two answers have the count 6 while the median count is 0, so 6
    exceeds max(5, 5 * median). *)
Example balance_bound_median_exceeded :
  ∃ counts,
    Demo.run_window 10 Demo.twelve_scenes Demo.count_template Demo.integer_counts
    = Some counts
    ∧ counts_get (VInt 1) counts = Some 6
    ∧ counts_get (VInt 2) counts = Some 6
    ∧ median_of counts = Ok 0
    ∧ ¬ (6 ≤ Z.max 5 (5 * 0)).
Proof.
  eexists. split; [vm_compute; reflexivity|].
  split; [by vm_compute|]. split; [by vm_compute|]. split; [by vm_compute|]. lia.
Qed.

(** C8, as stated, fails: the list tasks leave the objects of a scene in
    the order of their first coordinate, not in their original order. *)
Lemma scene_order_changed :
  (∃ out, (get_questions_and_answers_behind_the_scenes Demo.scene3).1 = Ok out)
  ∧ obj_color <$> objects Demo.scene3 = ["red"; "gray"; "cyan"]
  ∧ obj_color <$> objects (get_questions_and_answers_behind_the_scenes Demo.scene3).2
    = ["cyan"; "gray"; "red"]
  ∧ objects (get_questions_and_answers_behind_the_scenes Demo.scene3).2
    ≠ objects Demo.scene3.
Proof.
  split; [eexists; vm_compute; reflexivity|].
  split; [by vm_compute|]. split; [by vm_compute|].
  intros H. apply (f_equal (fmap obj_color)) in H. vm_compute in H. discriminate.
Qed.

(** ** Dictionaries *)

Section DictFacts.
Context {K V : Type} `{EqDecision K}.

Lemma dict_set_fresh (k : K) (v : V) d : k ∉ d.*1 → dict_set k v d = d ++ [(k, v)].
Proof.
  induction d as [|[k' v'] d IH]; simpl; intros Hk; [done|].
  apply not_elem_of_cons in Hk as [Hne Hk].
  destruct (decide (k = k')); [done|]. by rewrite IH.
Qed.

Lemma dict_set_present (k : K) (v : V) d : k ∈ d.*1 → (dict_set k v d).*1 = d.*1.
Proof.
  induction d as [|[k' v'] d IH]; simpl; intros Hk; [by apply elem_of_nil in Hk|].
  destruct (decide (k = k')); [done|].
  apply elem_of_cons in Hk as [?|Hk]; [done|]. simpl. f_equal. by apply IH.
Qed.

Lemma dict_set_NoDup (k : K) (v : V) d : NoDup d.*1 → NoDup (dict_set k v d).*1.
Proof.
  intros Hd. destruct (decide (k ∈ d.*1)) as [Hk|Hk].
  - by rewrite dict_set_present.
  - rewrite dict_set_fresh, fmap_app by done. simpl.
    apply NoDup_app. split; [done|]. split; [|apply NoDup_singleton].
    intros x Hx Hx'. apply list_elem_of_singleton in Hx'. by subst.
Qed.

End DictFacts.

Lemma foldl_preserves {A B} (P : A → Prop) (f : A → B → A) l :
  (∀ a b, P a → P (f a b)) → ∀ a, P a → P (foldl f a l).
Proof.
  intros Hf. induction l as [|b l IH]; intros a Ha; simpl; [done|]. apply IH, Hf, Ha.
Qed.

Lemma attribute_map_add_NoDup am mk idx :
  NoDup am.*1 → NoDup (attribute_map_add am mk idx).*1.
Proof.
  intros H. unfold attribute_map_add.
  destruct (dict_get mk am) eqn:E.
  - rewrite E. by apply dict_set_NoDup.
  - destruct (dict_get mk (dict_set mk ∅ am)); [|by apply dict_set_NoDup].
    by do 2 apply dict_set_NoDup.
Qed.

Lemma precompute_filter_options_NoDup sc md sc' cache :
  precompute_filter_options sc md = Ok sc' →
  _filter_options sc' = Some cache → NoDup cache.*1.
Proof.
  unfold precompute_filter_options. destruct (negb _); [discriminate|].
  intros H. apply Ok_inj in H. subst sc'.
  unfold with_filter_options. cbn [_filter_options].
  intros H. apply (inj Some) in H. subst cache.
  apply (foldl_preserves (λ am : list (filter_key * gset Z), NoDup am.*1)).
  - intros am [idx obj] Ham.
    apply (foldl_preserves (λ am : list (filter_key * gset Z), NoDup am.*1)); [|done].
    intros am' mask Ham'. by apply attribute_map_add_NoDup.
  - constructor.
Qed.

(** ** The relation index *)











Example trivial_fraction_default :
  ∃ options sc' g',
    find_relate_filter_options Demo.shuffle (VInt 0) Demo.scene3 Demo.md false false
      (1 # 10) 0%nat = Ok (options, sc', g')
    ∧ length options = 9%nat
    ∧ num_trivial_of 8 (1 # 10) = Ok 1.
Proof. eexists _, _, _. split; [vm_compute; reflexivity|]. by vm_compute. Qed.

(** * Further properties of the list tasks *)

Lemma delete_object_loop_done c n l : delete_object_loop c (S n) l = l.
Proof.
  induction l as [|x l IH]; simpl; [done|].
  rewrite andb_false_r. by rewrite IH.
Qed.

(** X1: [delete_object] drops the first occurrence of the colour and keeps
    everything else in order; a list without the colour is returned as it
    is. *)
Theorem delete_object_first_occurrence c l1 l2 :
  c ∉ l1 →
  delete_object c l1 = l1 ∧ delete_object c (l1 ++ c :: l2) = l1 ++ l2.
Proof.
  unfold delete_object. induction l1 as [|x l1 IH]; intros Hc.
  - split; [done|]. simpl. rewrite bool_decide_eq_true_2 by done. simpl.
    apply delete_object_loop_done.
  - apply not_elem_of_cons in Hc as [Hne Hc]. destruct (IH Hc) as [IH1 IH2].
    simpl. rewrite bool_decide_eq_false_2 by done. simpl. by rewrite IH1, IH2.
Qed.

Lemma delete_object_first_occurrence_witness :
  delete_object "gray" ["red"; "cyan"] = ["red"; "cyan"]
  ∧ delete_object "gray" (["red"; "cyan"] ++ "gray" :: ["gray"; "red"])
    = ["red"; "cyan"] ++ ["gray"; "red"].
Proof.
  apply (delete_object_first_occurrence "gray" ["red"; "cyan"] ["gray"; "red"]).
  intros H. apply elem_of_cons in H as [H|H]; [discriminate|].
  apply elem_of_cons in H as [H|H]; [discriminate|]. by apply elem_of_nil in H.
Defined.

Lemma string_leb_total a b : String.leb a b = false → String.leb b a = true.
Proof. intros H. destruct (String.leb_total a b) as [H'|H']; congruence. Qed.

(** X2: [sort_objects] returns the colours in ascending lexicographic
    order, and the result is a permutation of its argument. *)
Theorem sort_objects_sorted_permutation colors :
  Sorted (λ a b, String.leb a b = true) (sort_objects colors)
  ∧ sort_objects colors ≡ₚ colors.
Proof.
  split.
  - apply stable_sort_Sorted, string_leb_total.
  - apply stable_sort_perm.
Qed.

(** X3: [json_scene_to_colors] leaves the scene's objects in ascending order
    of the first coordinate, returns their colours in that order, and a
    second call returns the same colours and changes nothing. *)
Theorem json_scene_to_colors_sorted_idempotent sc :
  Sorted (λ a b, x_leb a b = true) (objects (json_scene_to_colors sc).2)
  ∧ (json_scene_to_colors sc).1 = obj_color <$> objects (json_scene_to_colors sc).2
  ∧ json_scene_to_colors (json_scene_to_colors sc).2 = json_scene_to_colors sc.
Proof.
  split; [apply stable_sort_Sorted, x_leb_total|]. split; [done|].
  unfold json_scene_to_colors, with_objects. simpl.
  by rewrite (stable_sort_idemp _ x_leb_total).
Qed.

Lemma scene_colors_sorted sc : scene_colors (sorted_scene sc) = scene_colors sc.
Proof.
  unfold scene_colors, sorted_scene, with_objects. simpl.
  by rewrite (stable_sort_idemp _ x_leb_total).
Qed.

Lemma scene_colors_length sc : length (scene_colors sc) = length (objects sc).
Proof. unfold scene_colors. by rewrite length_fmap, stable_sort_length. Qed.

Lemma delete_generator_eq sc :
  get_questions_and_answers_delete sc
  = (delete_loop (scene_colors sc) delete_questions [] [], sorted_scene sc).
Proof. done. Qed.

Lemma append_generator_eq sc :
  get_questions_and_answers_append sc
  = (append_loop (scene_colors sc) append_questions [] [], sorted_scene sc).
Proof. done. Qed.

Lemma reverse_generator_eq sc :
  get_questions_and_answers_reverse sc
  = (transform_loop reverse_objects (scene_colors sc) reverse_questions [] [],
     sorted_scene sc).
Proof. done. Qed.

Lemma sort_generator_eq sc :
  get_questions_and_answers_sort sc
  = (transform_loop sort_objects (scene_colors sc) sort_questions [] [], sorted_scene sc).
Proof. done. Qed.

Lemma delete_object_loop_length c n l :
  (length l - 1 ≤ length (delete_object_loop c n l))%nat.
Proof.
  revert n. induction l as [|x l IH]; intros n; simpl; [lia|].
  destruct (_ && _); simpl.
  - replace (n + 1)%nat with (S n) by lia. rewrite delete_object_loop_done. lia.
  - specialize (IH n). lia.
Qed.

Lemma get_object_by_position_ok colors position :
  position ∈ ["1st"; "2nd"; "3rd"] → (3 ≤ length colors)%nat →
  ∃ a, get_object_by_position colors position = Ok a.
Proof.
  intros Hp Hl. destruct colors as [|a [|b [|c rest]]]; simpl in Hl; try lia.
  apply elem_of_cons in Hp as [->|Hp]; [by exists a|].
  apply elem_of_cons in Hp as [->|Hp]; [by exists b|].
  apply elem_of_cons in Hp as [->|Hp]; [by exists c|].
  by apply elem_of_nil in Hp.
Qed.

Lemma get_object_by_position_ok2 colors position :
  position ∈ ["1st"; "2nd"] → (2 ≤ length colors)%nat →
  ∃ a, get_object_by_position colors position = Ok a.
Proof.
  intros Hp Hl. destruct colors as [|a [|b rest]]; simpl in Hl; try lia.
  apply elem_of_cons in Hp as [->|Hp]; [by exists a|].
  apply elem_of_cons in Hp as [->|Hp]; [by exists b|].
  by apply elem_of_nil in Hp.
Qed.

Lemma delete_loop_complete colors todo :
  (3 ≤ length colors)%nat →
  ∀ acc_q acc_a,
    ∃ ans,
      delete_loop colors todo acc_q acc_a
      = Ok (acc_q ++ filter (λ q, q.1.2 ∈ colors ∧ q.2 ∈ ["1st"; "2nd"]) todo,
            acc_a ++ ans)
      ∧ length ans
        = length (filter (λ q, q.1.2 ∈ colors ∧ q.2 ∈ ["1st"; "2nd"]) todo).
Proof.
  intros Hl. induction todo as [|[[ty col] pos] todo IH]; intros acc_q acc_a.
  - exists []. simpl. by rewrite !app_nil_r.
  - cbn [delete_loop]. rewrite <- bool_decide_and, filter_cons. cbn [fst snd].
    destruct (decide (col ∈ colors ∧ pos ∈ ["1st"; "2nd"])) as [[Hc Hp]|Hn].
    + rewrite bool_decide_eq_true_2 by done.
      destruct (get_object_by_position_ok2 (delete_object col colors) pos Hp) as [a Ha].
      { pose proof (delete_object_loop_length col 0 colors). unfold delete_object. lia. }
      rewrite Ha. cbn [rbind].
      destruct (IH (acc_q ++ [(ty, col, pos)]) (acc_a ++ [a])) as (ans & -> & Hlen).
      exists (a :: ans). rewrite <- !app_assoc. simpl. split; [done|]. by rewrite Hlen.
    + rewrite bool_decide_eq_false_2 by done. apply IH.
Qed.

Lemma append_loop_complete colors todo :
  (2 ≤ length colors)%nat →
  Forall (λ q : string * string * string, q.2 ∈ ["1st"; "2nd"; "3rd"]) todo →
  ∀ acc_q acc_a,
    ∃ ans,
      append_loop colors todo acc_q acc_a = Ok (acc_q ++ todo, acc_a ++ ans)
      ∧ length ans = length todo.
Proof.
  intros Hl. induction 1 as [|[[ty col] pos] todo Hp Htodo IH]; intros acc_q acc_a.
  - exists []. simpl. by rewrite !app_nil_r.
  - cbn [append_loop]. simpl in Hp.
    destruct (get_object_by_position_ok (append_object col colors) pos Hp) as [a Ha].
    { unfold append_object. rewrite length_app. simpl. lia. }
    rewrite Ha. cbn [rbind].
    destruct (IH (acc_q ++ [(ty, col, pos)]) (acc_a ++ [a])) as (ans & -> & Hlen).
    exists (a :: ans). rewrite <- !app_assoc. simpl. split; [done|]. by rewrite Hlen.
Qed.

Lemma transform_loop_complete transform colors todo :
  (3 ≤ length (transform colors))%nat →
  Forall (λ q : string * string, q.2 ∈ ["1st"; "2nd"; "3rd"]) todo →
  ∀ acc_q acc_a,
    ∃ ans,
      transform_loop transform colors todo acc_q acc_a = Ok (acc_q ++ todo, acc_a ++ ans)
      ∧ length ans = length todo.
Proof.
  intros Hl. induction 1 as [|[ty pos] todo Hp Htodo IH]; intros acc_q acc_a.
  - exists []. simpl. by rewrite !app_nil_r.
  - cbn [transform_loop]. simpl in Hp.
    destruct (get_object_by_position_ok (transform colors) pos Hp Hl) as [a Ha].
    rewrite Ha. cbn [rbind].
    destruct (IH (acc_q ++ [(ty, pos)]) (acc_a ++ [a])) as (ans & -> & Hlen).
    exists (a :: ans). rewrite <- !app_assoc. simpl. split; [done|]. by rewrite Hlen.
Qed.

Lemma mapM_ok {A B} (f : A → result B) l :
  Forall (λ x, ∃ y, f x = Ok y) l → ∃ ys, mapM f l = Ok ys ∧ length ys = length l.
Proof.
  induction 1 as [|x l [y Hy] Hl (ys & IH & Hlen)]; [by exists []|].
  exists (y :: ys). simpl. rewrite Hy, IH. simpl. by rewrite Hlen.
Qed.

(** X4: on a scene with at least three objects the delete generator returns
    exactly the listed questions whose colour is in the scene and whose
    position is "1st" or "2nd", in the order of the list, each with an
    answer. *)
Theorem delete_generator_complete sc :
  (3 ≤ length (objects sc))%nat →
  ∃ answers,
    (get_questions_and_answers_delete sc).1
    = Ok (filter (λ q, q.1.2 ∈ scene_colors sc ∧ q.2 ∈ ["1st"; "2nd"]) delete_questions,
          answers)
    ∧ length answers
      = length (filter (λ q, q.1.2 ∈ scene_colors sc ∧ q.2 ∈ ["1st"; "2nd"])
                       delete_questions).
Proof.
  intros Hl. rewrite delete_generator_eq. cbn [fst].
  destruct (delete_loop_complete (scene_colors sc) delete_questions) with (acc_q := @nil (string * string * string)) (acc_a := @nil string)
    as (ans & H & Hlen).
  { by rewrite scene_colors_length. }
  exists ans. by rewrite H.
Qed.

Lemma delete_generator_complete_witness :
  ∃ answers,
    (get_questions_and_answers_delete Demo.scene3).1
    = Ok (filter (λ q, q.1.2 ∈ scene_colors Demo.scene3 ∧ q.2 ∈ ["1st"; "2nd"])
                 delete_questions,
          answers)
    ∧ length answers
      = length (filter (λ q, q.1.2 ∈ scene_colors Demo.scene3 ∧ q.2 ∈ ["1st"; "2nd"])
                       delete_questions).
Proof. apply (delete_generator_complete Demo.scene3). simpl. lia. Defined.

Lemma transform_loop_three transform colors (qs : list (string * string)) a b c rest t1 t2 t3 :
  transform colors = a :: b :: c :: rest →
  qs = [(t1, "1st"); (t2, "2nd"); (t3, "3rd")] →
  transform_loop transform colors qs [] [] = Ok (qs, [a; b; c]).
Proof. intros H ->. cbn [transform_loop]. rewrite H. reflexivity. Qed.

(** X5: on a scene with at least three objects the reverse generator
    answers its three questions with the colours of the three rightmost
    objects, from the right, and the sort generator with the three smallest
    colours in lexicographic order. *)
Theorem reverse_and_sort_answers sc :
  (3 ≤ length (objects sc))%nat →
  (get_questions_and_answers_reverse sc).1
  = Ok (reverse_questions, take 3 (reverse (scene_colors sc)))
  ∧ (get_questions_and_answers_sort sc).1
    = Ok (sort_questions, take 3 (sort_objects (scene_colors sc))).
Proof.
  intros Hl. rewrite reverse_generator_eq, sort_generator_eq. cbn [fst].
  rewrite <- scene_colors_length in Hl. split.
  - assert (Hr : (3 ≤ length (reverse_objects (scene_colors sc)))%nat)
      by (unfold reverse_objects; by rewrite length_reverse).
    unfold reverse_objects in *.
    destruct (reverse (scene_colors sc)) as [|a [|b [|c rest]]] eqn:E;
      simpl in Hr; try lia.
    by apply (transform_loop_three _ _ _ a b c rest "reverse" "reverse" "reverse").
  - assert (Hr : (3 ≤ length (sort_objects (scene_colors sc)))%nat)
      by (unfold sort_objects; by rewrite stable_sort_length).
    destruct (sort_objects (scene_colors sc)) as [|a [|b [|c rest]]] eqn:E;
      simpl in Hr; try lia.
    by apply (transform_loop_three _ _ _ a b c rest "sort" "sort" "sort").
Qed.

Lemma reverse_and_sort_answers_witness :
  (get_questions_and_answers_reverse Demo.scene3).1
  = Ok (reverse_questions, take 3 (reverse (scene_colors Demo.scene3)))
  ∧ (get_questions_and_answers_sort Demo.scene3).1
    = Ok (sort_questions, take 3 (sort_objects (scene_colors Demo.scene3))).
Proof. apply (reverse_and_sort_answers Demo.scene3). simpl. lia. Defined.

Lemma query_texts_ok_delete :
  Forall (λ q, ∃ t, to_query_atom_text (tuple3 q) = Ok t) delete_questions.
Proof. repeat constructor; eexists; vm_compute; reflexivity. Qed.

Lemma query_texts_ok_append :
  Forall (λ q, ∃ t, to_query_atom_text (tuple3 q) = Ok t) append_questions.
Proof. repeat constructor; eexists; vm_compute; reflexivity. Qed.

Lemma query_texts_ok_reverse :
  Forall (λ q, ∃ t, to_query_atom_text (tuple2 q) = Ok t) reverse_questions.
Proof. repeat constructor; eexists; vm_compute; reflexivity. Qed.

Lemma query_texts_ok_sort :
  Forall (λ q, ∃ t, to_query_atom_text (tuple2 q) = Ok t) sort_questions.
Proof. repeat constructor; eexists; vm_compute; reflexivity. Qed.

Lemma positions_append :
  Forall (λ q : string * string * string, q.2 ∈ ["1st"; "2nd"; "3rd"]) append_questions.
Proof. repeat constructor; apply bool_decide_unpack; by vm_compute. Qed.

Lemma positions_reverse :
  Forall (λ q : string * string, q.2 ∈ ["1st"; "2nd"; "3rd"]) reverse_questions.
Proof. repeat constructor; apply bool_decide_unpack; by vm_compute. Qed.

Lemma positions_sort :
  Forall (λ q : string * string, q.2 ∈ ["1st"; "2nd"; "3rd"]) sort_questions.
Proof. repeat constructor; apply bool_decide_unpack; by vm_compute. Qed.

(** X6: on a scene with at least three objects
    [get_questions_and_answers_behind_the_scenes] returns: the questions
    are the valid delete questions followed by all append, reverse and sort
    questions, and there is one query text and one answer per question, so
    its assertion on the lengths holds. *)
Theorem behind_the_scenes_returns sc :
  (3 ≤ length (objects sc))%nat →
  ∃ texts answers,
    (get_questions_and_answers_behind_the_scenes sc).1
    = Ok ((tuple3 <$> filter (λ q, q.1.2 ∈ scene_colors sc ∧ q.2 ∈ ["1st"; "2nd"])
                             delete_questions)
          ++ (tuple3 <$> append_questions)
          ++ (tuple2 <$> reverse_questions) ++ (tuple2 <$> sort_questions),
          texts, answers)
    ∧ length texts
      = (length (filter (λ q, q.1.2 ∈ scene_colors sc ∧ q.2 ∈ ["1st"; "2nd"])
                        delete_questions) + 18)%nat
    ∧ length answers = length texts.
Proof.
  intros Hl. pose proof Hl as Hc. rewrite <- scene_colors_length in Hc.
  unfold get_questions_and_answers_behind_the_scenes.
  rewrite delete_generator_eq. cbv beta iota zeta.
  destruct (delete_loop_complete (scene_colors sc) delete_questions Hc [] [])
    as (dans & -> & Hd).
  rewrite append_generator_eq, scene_colors_sorted, sorted_scene_idemp.
  cbv beta iota zeta.
  destruct (append_loop_complete (scene_colors sc) append_questions) with (acc_q := @nil (string * string * string)) (acc_a := @nil string)
    as (aans & -> & Ha); [lia|apply positions_append|].
  rewrite reverse_generator_eq, scene_colors_sorted, sorted_scene_idemp.
  cbv beta iota zeta.
  destruct (transform_loop_complete reverse_objects (scene_colors sc) reverse_questions)
    with (acc_q := @nil (string * string)) (acc_a := @nil string)
    as (rans & -> & Hr);
    [unfold reverse_objects; by rewrite length_reverse|apply positions_reverse|].
  rewrite sort_generator_eq, scene_colors_sorted, sorted_scene_idemp.
  cbv beta iota zeta.
  destruct (transform_loop_complete sort_objects (scene_colors sc) sort_questions)
    with (acc_q := @nil (string * string)) (acc_a := @nil string)
    as (sans & -> & Hs);
    [unfold sort_objects; by rewrite stable_sort_length|apply positions_sort|].
  rewrite !app_nil_l.
  set (dq := filter (λ q, q.1.2 ∈ scene_colors sc ∧ q.2 ∈ ["1st"; "2nd"]) delete_questions)
    in *.
  assert (Hlen : length ((tuple3 <$> dq) ++ (tuple3 <$> append_questions)
                         ++ (tuple2 <$> reverse_questions) ++ (tuple2 <$> sort_questions))
                 = length (dans ++ aans ++ rans ++ sans)).
  { rewrite !length_app, !length_fmap, Hd, Ha, Hr, Hs. done. }
  rewrite bool_decide_eq_true_2 by exact Hlen. cbv beta iota zeta. cbn [negb fst].
  destruct (mapM_ok to_query_atom_text
              ((tuple3 <$> dq) ++ (tuple3 <$> append_questions)
               ++ (tuple2 <$> reverse_questions) ++ (tuple2 <$> sort_questions)))
    as (texts & -> & Ht).
  { rewrite !Forall_app, !Forall_fmap. split; [|split; [|split]].
    - apply Forall_forall. intros q Hq. apply list_elem_of_filter in Hq as [_ Hq].
      pose proof query_texts_ok_delete as H. rewrite Forall_forall in H. by apply H.
    - apply query_texts_ok_append.
    - apply query_texts_ok_reverse.
    - apply query_texts_ok_sort. }
  exists texts, (dans ++ aans ++ rans ++ sans). cbn [rbind]. split; [done|].
  rewrite Ht, <- Hlen. rewrite !length_app, !length_fmap. split; [|done].
  simpl. lia.
Qed.

Lemma behind_the_scenes_returns_witness :
  ∃ texts answers,
    (get_questions_and_answers_behind_the_scenes Demo.scene3).1
    = Ok ((tuple3 <$> filter (λ q, q.1.2 ∈ scene_colors Demo.scene3
                                   ∧ q.2 ∈ ["1st"; "2nd"])
                             delete_questions)
          ++ (tuple3 <$> append_questions)
          ++ (tuple2 <$> reverse_questions) ++ (tuple2 <$> sort_questions),
          texts, answers)
    ∧ length texts
      = (length (filter (λ q, q.1.2 ∈ scene_colors Demo.scene3 ∧ q.2 ∈ ["1st"; "2nd"])
                        delete_questions) + 18)%nat
    ∧ length answers = length texts.
Proof. apply (behind_the_scenes_returns Demo.scene3). simpl. lia. Defined.

Lemma get_object_by_position_error colors position e :
  get_object_by_position colors position = Raise e →
  e = AssertionError ∧ position ∉ ["1st"; "2nd"; "3rd"]
  ∨ e = IndexError ∧ position ∈ ["1st"; "2nd"; "3rd"].
Proof.
  unfold get_object_by_position, py_index.
  destruct (bool_decide (position ∈ ["1st"; "2nd"; "3rd"])) eqn:Hp; simpl.
  - apply bool_decide_eq_true in Hp. intros H. right. split; [|done].
    repeat (destruct (bool_decide _) in H);
      match type of H with
      | of_option _ ?o = _ => destruct o; simpl in H; congruence
      end.
  - apply bool_decide_eq_false in Hp. intros [= <-]. by left.
Qed.

Lemma delete_loop_error colors todo :
  ∀ acc_q acc_a e, delete_loop colors todo acc_q acc_a = Raise e → e = IndexError.
Proof.
  induction todo as [|[[ty col] pos] todo IH]; intros acc_q acc_a e H; simpl in H;
    [discriminate|].
  destruct (bool_decide (col ∈ colors)); simpl in H; [|by eapply IH].
  destruct (bool_decide (pos ∈ ["1st"; "2nd"])) eqn:Hp; [|by eapply IH].
  destruct (get_object_by_position _ pos) as [a|e'] eqn:Eg; simpl in H; [by eapply IH|].
  injection H as <-. apply bool_decide_eq_true in Hp.
  apply get_object_by_position_error in Eg as [[_ Hn]|[-> _]]; [|done].
  exfalso. apply Hn.
  apply elem_of_cons in Hp as [->|Hp]; [apply elem_of_cons; by left|].
  apply elem_of_cons in Hp as [->|Hp];
    [apply elem_of_cons; right; apply elem_of_cons; by left|].
  by apply elem_of_nil in Hp.
Qed.

(** X7: on a scene with fewer than three objects
    [get_questions_and_answers_behind_the_scenes] raises [IndexError] and
    returns no question. *)
Theorem behind_the_scenes_raises sc :
  (length (objects sc) < 3)%nat →
  (get_questions_and_answers_behind_the_scenes sc).1 = Raise IndexError.
Proof.
  intros Hl. rewrite <- scene_colors_length in Hl.
  unfold get_questions_and_answers_behind_the_scenes.
  rewrite delete_generator_eq. cbv beta iota zeta.
  destruct (delete_loop (scene_colors sc) delete_questions [] []) as [[dq da]|e] eqn:Ed.
  2:{ cbn [fst]. f_equal. by eapply delete_loop_error. }
  rewrite append_generator_eq, scene_colors_sorted, sorted_scene_idemp.
  cbv beta iota zeta.
  destruct (scene_colors sc) as [|a [|b [|c rest]]] eqn:Ec; simpl in Hl; [| | |lia].
  - change (append_loop [] append_questions [] []) with (@Raise (list (string * string * string) * list string) IndexError).
    reflexivity.
  - change (append_loop [a] append_questions [] []) with (@Raise (list (string * string * string) * list string) IndexError).
    reflexivity.
  - destruct (append_loop [a; b] append_questions [] []) as [[aq aa]|e] eqn:Ea;
      [|vm_compute in Ea; discriminate].
    rewrite reverse_generator_eq, scene_colors_sorted, sorted_scene_idemp, Ec.
    cbv beta iota zeta.
    change (transform_loop reverse_objects [a; b] reverse_questions [] [])
      with (@Raise (list (string * string) * list string) IndexError).
    reflexivity.
Qed.

Lemma behind_the_scenes_raises_witness :
  (get_questions_and_answers_behind_the_scenes Demo.scene2).1 = Raise IndexError.
Proof. apply (behind_the_scenes_raises Demo.scene2). simpl. lia. Defined.

(** * Further properties of the attribute index *)

Section DictLookupFacts.
Context {K V : Type} `{EqDecision K}.

Lemma dict_get_set_eq (k : K) (v : V) d : dict_get k (dict_set k v d) = Some v.
Proof.
  induction d as [|[k' v'] d IH]; simpl.
  - by destruct (decide (k = k)).
  - destruct (decide (k = k')) as [->|Hne]; simpl.
    + by destruct (decide (k' = k')).
    + by destruct (decide (k = k')).
Qed.

Lemma dict_get_set_ne (k k' : K) (v : V) d :
  k' ≠ k → dict_get k' (dict_set k v d) = dict_get k' d.
Proof.
  intros Hne. induction d as [|[k0 v0] d IH]; simpl.
  - by destruct (decide (k' = k)).
  - destruct (decide (k = k0)) as [->|Hk]; simpl.
    + by destruct (decide (k' = k0)).
    + destruct (decide (k' = k0)); [done|]. apply IH.
Qed.

Lemma dict_get_Some_elem_of (k : K) (v : V) d : dict_get k d = Some v → (k, v) ∈ d.
Proof.
  induction d as [|[k0 v0] d IH]; simpl; [discriminate|].
  destruct (decide (k = k0)) as [->|Hk].
  - intros [= ->]. apply elem_of_cons. by left.
  - intros H. apply elem_of_cons. right. by apply IH.
Qed.

Lemma dict_get_None_not_elem_of (k : K) (d : list (K * V)) :
  dict_get k d = None → k ∉ d.*1.
Proof.
  induction d as [|[k0 v0] d IH]; simpl; [intros _; apply not_elem_of_nil|].
  destruct (decide (k = k0)) as [->|Hk]; [discriminate|].
  intros H. apply not_elem_of_cons. split; [done|]. by apply IH.
Qed.
End DictLookupFacts.

(** The set stored under a key, empty when the key is absent. *)
Lemma attribute_map_add_lookup am mk idx k i :
  i ∈ default ∅ (dict_get k (attribute_map_add am mk idx))
  ↔ i ∈ default ∅ (dict_get k am) ∨ (k = mk ∧ i = idx).
Proof.
  unfold attribute_map_add. destruct (dict_get mk am) as [s|] eqn:E.
  - rewrite E. destruct (decide (k = mk)) as [->|Hne].
    + rewrite dict_get_set_eq, E. simpl. set_solver.
    + rewrite dict_get_set_ne by done. naive_solver.
  - rewrite dict_get_set_eq. destruct (decide (k = mk)) as [->|Hne].
    + rewrite dict_get_set_eq, E. simpl. set_solver.
    + rewrite !dict_get_set_ne by done. naive_solver.
Qed.

Lemma attribute_map_add_nonempty am mk idx :
  (∀ k s, dict_get k am = Some s → s ≠ ∅) →
  ∀ k s, dict_get k (attribute_map_add am mk idx) = Some s → s ≠ ∅.
Proof.
  intros Ham k s. unfold attribute_map_add. destruct (dict_get mk am) as [s0|] eqn:E.
  - rewrite E. destruct (decide (k = mk)) as [->|Hne].
    + rewrite dict_get_set_eq. intros [= <-]. set_solver.
    + rewrite dict_get_set_ne by done. apply Ham.
  - rewrite dict_get_set_eq. destruct (decide (k = mk)) as [->|Hne].
    + rewrite dict_get_set_eq. intros [= <-]. set_solver.
    + rewrite !dict_get_set_ne by done. apply Ham.
Qed.

Lemma masks_fold_lookup (f : list nat → filter_key) idx ms :
  ∀ am k i,
    i ∈ default ∅ (dict_get k (foldl (λ am mask, attribute_map_add am (f mask) idx) am ms))
    ↔ i ∈ default ∅ (dict_get k am) ∨ (i = idx ∧ ∃ mask, mask ∈ ms ∧ f mask = k).
Proof.
  induction ms as [|m ms IH]; intros am k i; simpl.
  - split; [by left|]. intros [?|(_ & mask & Hin & _)]; [done|].
    by apply elem_of_nil in Hin.
  - rewrite IH, attribute_map_add_lookup. split.
    + intros [[?|[-> ->]]|(-> & mask & Hin & <-)].
      * by left.
      * right. split; [done|]. exists m. split; [apply elem_of_cons; by left|done].
      * right. split; [done|]. exists mask. split; [apply elem_of_cons; by right|done].
    + intros [?|(-> & mask & Hin & <-)]; [by left; left|].
      apply elem_of_cons in Hin as [->|Hin]; [left; by right|].
      right. split; [done|]. by exists mask.
Qed.

Lemma objects_fold_lookup (l : list (nat * object)) :
  ∀ am k i,
    i ∈ default ∅
          (dict_get k
             (foldl (λ am '(object_idx, obj),
                       foldl (λ am mask,
                                attribute_map_add am (masked_key (object_key obj) mask)
                                                  (Z.of_nat object_idx))
                             am masks)
                    am l))
    ↔ i ∈ default ∅ (dict_get k am)
      ∨ ∃ j obj mask, (j, obj) ∈ l ∧ i = Z.of_nat j ∧ mask ∈ masks
                      ∧ masked_key (object_key obj) mask = k.
Proof.
  induction l as [|[j obj] l IH]; intros am k i; cbn [foldl].
  - split; [by left|]. intros [?|(j & obj & mask & Hin & _)]; [done|].
    by apply elem_of_nil in Hin.
  - rewrite IH, (masks_fold_lookup (masked_key (object_key obj))). split.
    + intros [[?|(-> & mask & Hin & <-)]|(j' & obj' & mask & Hin & -> & Hm & <-)].
      * by left.
      * right. exists j, obj, mask. split; [apply elem_of_cons; by left|done].
      * right. exists j', obj', mask. split; [apply elem_of_cons; by right|done].
    + intros [?|(j' & obj' & mask & Hin & -> & Hm & <-)]; [by left; left|].
      apply elem_of_cons in Hin as [[= -> ->]|Hin].
      * left. right. split; [done|]. by exists mask.
      * right. by exists j', obj', mask.
Qed.

Lemma masks_values :
  masks = [ [0; 0; 0; 0]; [1; 0; 0; 0]; [0; 1; 0; 0]; [1; 1; 0; 0];
            [0; 0; 1; 0]; [1; 0; 1; 0]; [0; 1; 1; 0]; [1; 1; 1; 0];
            [0; 0; 0; 1]; [1; 0; 0; 1]; [0; 1; 0; 1]; [1; 1; 0; 1];
            [0; 0; 1; 1]; [1; 0; 1; 1]; [0; 1; 1; 1]; [1; 1; 1; 1] ]%nat.
Proof. by vm_compute. Qed.

Lemma masked_key_matches obj mask :
  mask ∈ masks → key_matches (masked_key (object_key obj) mask) obj.
Proof.
  rewrite masks_values. intros H. unfold key_matches, object_key.
  repeat (apply elem_of_cons in H as [->|H];
          [cbn; repeat (constructor; [first [by left|by right]|]); by constructor|]).
  by apply elem_of_nil in H.
Qed.

Lemma key_matches_masked k obj :
  key_matches k obj → ∃ mask, mask ∈ masks ∧ masked_key (object_key obj) mask = k.
Proof.
  unfold key_matches, object_key. intros H.
  apply Forall2_cons_inv_r in H as (k1 & r1 & H1 & H & ->).
  apply Forall2_cons_inv_r in H as (k2 & r2 & H2 & H & ->).
  apply Forall2_cons_inv_r in H as (k3 & r3 & H3 & H & ->).
  apply Forall2_cons_inv_r in H as (k4 & r4 & H4 & H & ->).
  apply Forall2_nil_inv_r in H as ->.
  exists [ match k1 with Some _ => 1 | None => 0 end;
           match k2 with Some _ => 1 | None => 0 end;
           match k3 with Some _ => 1 | None => 0 end;
           match k4 with Some _ => 1 | None => 0 end ]%nat.
  rewrite masks_values.
  destruct H1 as [-> | ->], H2 as [-> | ->], H3 as [-> | ->], H4 as [-> | ->];
    (split;
     [repeat (first [apply list_elem_of_here|apply list_elem_of_further])
     |reflexivity]).
Qed.

(** X8: the attribute index built by [precompute_filter_options] has one
    entry per filter key that matches at least one object, and the set
    stored under a key holds exactly the indices of the objects it
    matches. *)
Theorem attribute_index_correct sc md sc' :
  precompute_filter_options sc md = Ok sc' →
  ∃ cache,
    _filter_options sc' = Some cache
    ∧ NoDup cache.*1
    ∧ (∀ k s, dict_get k cache = Some s →
              s ≠ ∅
              ∧ ∀ i, i ∈ s ↔ ∃ j obj, i = Z.of_nat j ∧ objects sc !! j = Some obj
                                      ∧ key_matches k obj)
    ∧ (∀ j obj k, objects sc !! j = Some obj → key_matches k obj →
                  ∃ s, dict_get k cache = Some s ∧ Z.of_nat j ∈ s).
Proof.
  intros H. pose proof (precompute_filter_options_frame _ _ _ H) as (_ & _ & [cache Hc]).
  exists cache. split; [done|]. split; [by eapply precompute_filter_options_NoDup|].
  unfold precompute_filter_options in H. destruct (negb _); [discriminate|].
  apply Ok_inj in H. subst sc'. unfold with_filter_options in Hc. cbn [_filter_options] in Hc.
  apply (inj Some) in Hc. subst cache.
  set (am := foldl _ _ _).
  assert (Hlook : ∀ k i, i ∈ default ∅ (dict_get k am)
                         ↔ ∃ j obj, i = Z.of_nat j ∧ objects sc !! j = Some obj
                                    ∧ key_matches k obj).
  { intros k i. subst am. rewrite objects_fold_lookup. simpl. split.
    - intros [Hin|(j & obj & mask & Hin & -> & Hm & <-)]; [by apply elem_of_empty in Hin|].
      exists j, obj. split; [done|]. split; [|by apply masked_key_matches].
      apply elem_of_lookup_imap in Hin as (j' & obj' & [= -> ->] & Hl). done.
    - intros (j & obj & -> & Hl & Hk). right.
      apply key_matches_masked in Hk as (mask & Hm & <-).
      exists j, obj, mask. split; [|done].
      apply elem_of_lookup_imap. by exists j, obj. }
  assert (Hne : ∀ k s, dict_get k am = Some s → s ≠ ∅).
  { subst am.
    apply (foldl_preserves
             (λ am : list (filter_key * gset Z), ∀ k s, dict_get k am = Some s → s ≠ ∅)).
    - intros am [idx obj] Ham.
      apply (foldl_preserves
               (λ am : list (filter_key * gset Z), ∀ k s, dict_get k am = Some s → s ≠ ∅));
        [|done].
      intros am' mask Ham'. by apply attribute_map_add_nonempty.
    - intros k s Hk. discriminate. }
  split.
  - intros k s Hk. split; [by eapply Hne|]. intros i. rewrite <- Hlook, Hk. done.
  - intros j obj k Hl Hk.
    assert (Hin : Z.of_nat j ∈ default ∅ (dict_get k am)) by (apply Hlook; by exists j, obj).
    destruct (dict_get k am) as [s|]; [by exists s|]. by apply elem_of_empty in Hin.
Qed.

Lemma attribute_index_correct_witness :
  ∃ sc',
    precompute_filter_options Demo.scene3 Demo.md = Ok sc'
    ∧ ∃ cache,
        _filter_options sc' = Some cache
        ∧ NoDup cache.*1
        ∧ (∀ k s, dict_get k cache = Some s →
                  s ≠ ∅
                  ∧ ∀ i, i ∈ s ↔ ∃ j obj, i = Z.of_nat j
                                          ∧ objects Demo.scene3 !! j = Some obj
                                          ∧ key_matches k obj)
        ∧ (∀ j obj k, objects Demo.scene3 !! j = Some obj → key_matches k obj →
                      ∃ s, dict_get k cache = Some s ∧ Z.of_nat j ∈ s).
Proof.
  eexists. split; [vm_compute; reflexivity|].
  eapply (attribute_index_correct Demo.scene3 Demo.md). vm_compute. reflexivity.
Defined.

Lemma sorted_elements_spec (s : gset Z) :
  Sorted Z.le (sorted_elements s) ∧ NoDup (sorted_elements s)
  ∧ ∀ i, i ∈ sorted_elements s ↔ i ∈ s.
Proof.
  unfold sorted_elements. split; [apply (Sorted_merge_sort Z.le)|]. split.
  - rewrite merge_sort_Permutation. apply NoDup_elements.
  - intros i. rewrite merge_sort_Permutation. apply elem_of_elements.
Qed.

Lemma sorted_elements_length (s : gset Z) : length (sorted_elements s) = size s.
Proof. unfold sorted_elements. by rewrite merge_sort_Permutation. Qed.

(** X9: [find_filter_options] returns the keys of the attribute index in
    its order; the list under a key is ascending, without duplicates, and
    holds exactly the given object indices that the key matches in the
    index. *)
Theorem find_filter_options_values v sc md fo sc' idxs :
  find_filter_options v sc md = Ok (fo, sc') →
  py_set v = Ok idxs →
  ∃ cache,
    _filter_options sc' = Some cache
    ∧ fo.*1 = cache.*1
    ∧ Forall2 (λ kl kvs, kl.1 = kvs.1
                         ∧ Sorted Z.le kl.2 ∧ NoDup kl.2
                         ∧ ∀ i, i ∈ kl.2 ↔ i ∈ idxs ∧ i ∈ kvs.2)
              fo cache.
Proof.
  unfold find_filter_options. intros H Hv. bind_ok H. ok_inj H.
  apply Ok_inj in Hv. subst a0.
  exists a1. split.
  { destruct (_filter_options sc'); simpl in E1; [|discriminate].
    apply Ok_inj in E1. by subst. }
  split.
  - rewrite <- list_fmap_compose. apply list_fmap_ext. by intros _ [k vs] _.
  - apply Forall2_fmap_l. apply Forall_Forall2_diag. apply Forall_forall.
    intros [k vs] _. simpl. split; [done|].
    destruct (sorted_elements_spec (idxs ∩ vs)) as (Hs & Hn & Hm).
    split; [done|]. split; [done|]. intros i. rewrite Hm. apply elem_of_intersection.
Qed.

Lemma find_filter_options_values_witness :
  ∃ fo sc',
    find_filter_options (VList [0; 2]) Demo.scene3 Demo.md = Ok (fo, sc')
    ∧ ∃ cache,
        _filter_options sc' = Some cache
        ∧ fo.*1 = cache.*1
        ∧ Forall2 (λ kl kvs, kl.1 = kvs.1
                             ∧ Sorted Z.le kl.2 ∧ NoDup kl.2
                             ∧ ∀ i, i ∈ kl.2 ↔ i ∈ ({[0; 2]} : gset Z) ∧ i ∈ kvs.2)
                  fo cache.
Proof.
  eexists _, _. split; [vm_compute; reflexivity|].
  eapply (find_filter_options_values (VList [0; 2]) Demo.scene3 Demo.md).
  - vm_compute. reflexivity.
  - vm_compute. reflexivity.
Defined.

(** * Further properties of the filter options of composite nodes *)

Lemma add_generators_replicate n attr_vals am :
  add_generators n attr_vals am = am ++ replicate n (GeneratorKey attr_vals, []).
Proof.
  revert am. induction n as [|n IH]; intros am; simpl; [by rewrite app_nil_r|].
  by rewrite IH, <- app_assoc.
Qed.

Lemma add_empty_filter_options_replicate am md n am' :
  add_empty_filter_options am md n = Ok am' →
  ∃ attr_vals, am' = am ++ replicate n (GeneratorKey attr_vals, []).
Proof.
  unfold add_empty_filter_options. destruct (negb _); [discriminate|].
  intros H. bind_ok H. apply Ok_inj in H. subst am'.
  eexists. apply add_generators_replicate.
Qed.

Ltac eval_in H b := let v := eval vm_compute in b in change b with v in H.



(** X11: for [filter_exist], [filter_count] and [filter] nodes the options
    are the keys of the attribute index (without the all-[None] key for
    [filter]) followed by generator keys with empty lists: as many as there
    are index keys for [filter_exist], as many as there are keys with a
    single object for the other two. *)
Theorem filter_options_padding {rng : Type}
    (shuffle : ∀ A : Type, list A → rng → list A * rng) md n v sc g fo sc' g' :
  node_type n ∈ ["filter_exist"; "filter_count"; "filter"] →
  special_filter_options shuffle md n v sc g = Ok (fo, sc', g') →
  ∃ real attr_vals,
    fo = ((λ '(k, l), (FilterKey k, l)) <$> real)
         ++ replicate (if bool_decide (node_type n = "filter_exist") then length real
                       else length (filter (λ kv, length kv.2 = 1%nat) real))
                      (GeneratorKey attr_vals, [])
    ∧ ∃ all, find_filter_options v sc md = Ok (all, sc')
             ∧ real = if bool_decide (node_type n = "filter")
                      then filter (λ kv, kv.1 ≠ [None; None; None; None]) all
                      else all.
Proof.
  intros Hty H. unfold special_filter_options in H.
  apply elem_of_cons in Hty as [Hty|Hty];
    [|apply elem_of_cons in Hty as [Hty|Hty];
      [|apply elem_of_cons in Hty as [Hty|Hty]; [|by apply elem_of_nil in Hty]]];
    rewrite Hty in *.
  - eval_in H (startswith "filter_exist" "relate_filter").
    eval_in H (bool_decide ("filter_exist" = "filter")).
    eval_in H (bool_decide ("filter_exist" = "filter_unique")).
    eval_in H (bool_decide ("filter_exist" = "filter_exist")).
    cbv beta iota zeta in H. bind_ok H. ok_inj H.
    apply add_empty_filter_options_replicate in E0 as [attr_vals ->].
    exists l, attr_vals. split; [done|]. by exists l.
  - eval_in H (startswith "filter_count" "relate_filter").
    eval_in H (bool_decide ("filter_count" = "filter")).
    eval_in H (bool_decide ("filter_count" = "filter_unique")).
    eval_in H (bool_decide ("filter_count" = "filter_exist")).
    eval_in H (bool_decide ("filter_count" = "filter_count")).
    cbv beta iota zeta in H. cbn [orb] in H. cbv beta iota zeta in H.
    bind_ok H. ok_inj H.
    apply add_empty_filter_options_replicate in E0 as [attr_vals ->].
    exists l, attr_vals. split; [done|]. by exists l.
  - eval_in H (startswith "filter" "relate_filter").
    eval_in H (bool_decide ("filter" = "filter")).
    eval_in H (bool_decide ("filter" = "filter_unique")).
    eval_in H (bool_decide ("filter" = "filter_exist")).
    eval_in H (bool_decide ("filter" = "filter_count")).
    cbv beta iota zeta in H. cbn [orb] in H. cbv beta iota zeta in H.
    bind_ok H. ok_inj H.
    apply add_empty_filter_options_replicate in E0 as [attr_vals ->].
    exists (dict_pop [None; None; None; None] l), attr_vals. split; [done|]. by exists l.
Qed.

Lemma filter_options_padding_witness :
  ∃ fo sc' g',
    special_filter_options Demo.shuffle Demo.md
      (Demo.with_side "filter_exist" [0] ["<Z>"; "<C>"; "<M>"; "<S>"])
      (VList [0; 1]) Demo.scene3 0%nat = Ok (fo, sc', g')
    ∧ ∃ real attr_vals,
        fo = ((λ '(k, l), (FilterKey k, l)) <$> real)
             ++ replicate (length real) (GeneratorKey attr_vals, [])
        ∧ ∃ all, find_filter_options (VList [0; 1]) Demo.scene3 Demo.md = Ok (all, sc')
                 ∧ real = all.
Proof.
  eexists _, _, _. split; [vm_compute; reflexivity|].
  eapply (filter_options_padding Demo.shuffle Demo.md
            (Demo.with_side "filter_exist" [0] ["<Z>"; "<C>"; "<M>"; "<S>"])
            (VList [0; 1]) Demo.scene3 0%nat).
  - apply list_elem_of_here.
  - vm_compute. reflexivity.
Defined.

(** * Further properties of the relation index *)

Lemma dict_set_Forall {K V} `{EqDecision K} (P : K * V → Prop) k v (d : list (K * V)) :
  P (k, v) → Forall P d → Forall P (dict_set k v d).
Proof.
  intros Hkv. induction 1 as [|[k' v'] d Hx Hd IH]; simpl; [by repeat constructor|].
  destruct (decide (k = k')) as [<-|]; constructor; auto.
Qed.

Lemma relate_filter_inner_values (P : string * filter_key * list Z → Prop)
    r related u z acc entry :
  (∀ k s, (u = true → size s = 1%nat) → (z = false → size s ≠ 0%nat) →
          P (k, sorted_elements s)) →
  Forall P acc.1 ∧ Forall P acc.2 →
  Forall P (relate_filter_inner r related u z acc entry).1
  ∧ Forall P (relate_filter_inner r related u z acc entry).2.
Proof.
  intros HP [H1 H2]. destruct acc as [o tr], entry as [filters filtered].
  unfold relate_filter_inner. cbn [fst snd] in *.
  destruct (bool_decide (size (related ∩ filtered) = 1%nat)) eqn:E1;
    destruct (bool_decide (size (related ∩ filtered) = 0%nat)) eqn:E0;
    destruct u, z; cbn [andb negb]; try done;
    (assert (HPk : P (r, filters, sorted_elements (related ∩ filtered)));
     [apply HP; intros; try done;
      try (by apply bool_decide_eq_true in E1);
      try (by apply bool_decide_eq_false in E0)
     |destruct (bool_decide (related ∩ filtered = filtered)); cbn [fst snd];
      (split; [try done; by apply dict_set_Forall|try done; by apply dict_set_Forall])]).
Qed.

Lemma relate_filter_outer_values (P : string * filter_key * list Z → Prop)
    v cache u z rels :
  (∀ k s, (u = true → size s = 1%nat) → (z = false → size s ≠ 0%nat) →
          P (k, sorted_elements s)) →
  ∀ acc acc',
    Forall P acc.1 ∧ Forall P acc.2 →
    relate_filter_outer rels v cache u z acc = Ok acc' →
    Forall P acc'.1 ∧ Forall P acc'.2.
Proof.
  intros HP. induction rels as [|[r table] rels IH]; intros acc acc' Hacc H.
  - simpl in H. apply Ok_inj in H. by subst.
  - cbn [relate_filter_outer] in H.
    destruct (py_index_val table v) as [row|]; cbn [rbind] in H; [|discriminate].
    eapply IH; [|exact H].
    apply (foldl_preserves
             (λ acc : list (string * filter_key * list Z) * list (string * filter_key * list Z),
                Forall P acc.1 ∧ Forall P acc.2)); [|done].
    intros a b Ha. by apply relate_filter_inner_values.
Qed.

(** X12: with [unique] every list returned by [find_relate_filter_options]
    holds exactly one object, and without [include_zero] no returned list
    is empty; this holds for the trivial pairs that are added as well. *)
Theorem relate_options_unique_nonempty {rng : Type}
    (shuffle : ∀ A : Type, list A → rng → list A * rng)
    object_idx sc md unique include_zero f g options sc' g' :
  (∀ A (l : list A) g, (shuffle A l g).1 ≡ₚ l) →
  find_relate_filter_options shuffle object_idx sc md unique include_zero f g
  = Ok (options, sc', g') →
  (unique = true → Forall (λ kv, ∃ i, kv.2 = [i]) options)
  ∧ (include_zero = false → Forall (λ kv, kv.2 ≠ []) options).
Proof.
  intros Hperm H. unfold find_relate_filter_options in H. bind_ok H. ok_inj H.
  set (P := λ kv : string * filter_key * list Z,
              (unique = true → ∃ i, kv.2 = [i]) ∧ (include_zero = false → kv.2 ≠ [])).
  assert (HP : ∀ k s, (unique = true → size s = 1%nat) →
                      (include_zero = false → size s ≠ 0%nat) →
                      P (k, sorted_elements s)).
  { intros k s H1 H0. subst P. cbn [snd]. split.
    - intros Hu. specialize (H1 Hu). rewrite <- sorted_elements_length in H1.
      destruct (sorted_elements s) as [|i [|??]]; try discriminate. by exists i.
    - intros Hz Hnil. specialize (H0 Hz). rewrite <- sorted_elements_length, Hnil in H0.
      done. }
  pose proof (relate_filter_outer_values P _ _ _ _ _ HP ([], []) _
                (conj (Forall_nil_2 _) (Forall_nil_2 _)) E1) as [Ho Ht].
  cbn [fst snd] in Ho, Ht.
  assert (Hall : Forall P (add_trivial l (py_slice_to l1 a1))).
  { assert (Hsh : Forall P l1).
    { pose proof (Hperm _ l0 g) as Hp. rewrite E3 in Hp. simpl in Hp. by rewrite Hp. }
    assert (Hsl : Forall P (py_slice_to l1 a1)).
    { unfold py_slice_to. destruct (decide _); by apply Forall_take. }
    unfold add_trivial. revert Ho. generalize l. induction Hsl as [|[k v] ch Hk Hch IH].
    - done.
    - intros d Hd. simpl. apply IH. by apply dict_set_Forall. }
  split; intros Hflag; (eapply Forall_impl; [exact Hall|]); intros kv [H1 H0]; auto.
Qed.

Lemma relate_options_unique_nonempty_witness :
  ∃ options sc' g',
    find_relate_filter_options Demo.shuffle (VInt 0) Demo.scene3 Demo.md true false
      (1 # 10) 0%nat = Ok (options, sc', g')
    ∧ (true = true → Forall (λ kv, ∃ i, kv.2 = [i]) options)
    ∧ (false = false → Forall (λ kv, kv.2 ≠ []) options).
Proof.
  eexists _, _, _. split; [vm_compute; reflexivity|].
  eapply (relate_options_unique_nonempty Demo.shuffle (VInt 0) Demo.scene3 Demo.md
            true false (1 # 10) 0%nat).
  - intros A l g. simpl. apply reverse_Permutation.
  - vm_compute. reflexivity.
Defined.

(** * Further properties of the search loop *)

Section SearchFacts.
Context {rng : Type}.
Variable shuffle : ∀ A : Type, list A → rng → list A * rng.
Variable randbelow : nat → rng → nat * rng.
Variable answer_question : list node → metadata → scene → result (list pyval).
Variable is_degenerate : list node → metadata → scene → pyval → bool.

Local Abbreviation process_state' :=
  (process_state shuffle randbelow answer_question is_degenerate).
Local Abbreviation round' := (round shuffle randbelow answer_question is_degenerate).
Local Abbreviation dfs_loop' := (dfs_loop shuffle randbelow answer_question is_degenerate).

Lemma dfs_loop_exit_invariant t md mx (I J : config → Prop) :
  (∀ c c', I c → round' t md mx c = Continue c' → I c') →
  (∀ c c', I c → round' t md mx c = Finished (Ok c') → J c') →
  ∀ fuel c c', I c → dfs_loop' fuel t md mx c = Some (Ok c') → J c'.
Proof.
  intros Hcont Hfin. induction fuel as [|fuel IH]; intros c c' Hc H; simpl in H;
    [discriminate|].
  destruct (round' t md mx c) as [r|c1] eqn:Er.
  - injection H as ->. eapply Hfin; eauto.
  - eapply IH; [|exact H]. eapply Hcont; eauto.
Qed.

Lemma round_finished_cases t md mx c c' :
  round' t md mx c = Finished (Ok c') →
  (states c = [] ∧ c' = c)
  ∨ (∃ st', final_states c' = final_states c ++ [st']
            ∧ mx = Some (Z.of_nat (length (final_states c')))).
Proof.
  unfold round. destruct (states c) as [|st rest] eqn:Es.
  - intros H. left. split; [done|]. congruence.
  - destruct (process_state' t md st (answer_counts c) (cur_scene c) (gen c))
      as [[[act sc] g]|e]; [|discriminate].
    destruct act as [|st' ac'|succs]; try discriminate.
    destruct (bool_decide _) eqn:Eb; [|discriminate].
    intros H. right. exists st'.
    apply (f_equal (λ r, match r with Finished (Ok x) => x | _ => c end)) in H.
    simpl in H. subst c'. simpl. split; [done|]. by apply bool_decide_eq_true in Eb.
Qed.

Lemma round_continue_cases t md mx c c' :
  round' t md mx c = Continue c' →
  final_states c' = final_states c
  ∨ (∃ st', final_states c' = final_states c ++ [st']
            ∧ mx ≠ Some (Z.of_nat (length (final_states c')))).
Proof.
  unfold round. destruct (states c) as [|st rest] eqn:Es; [discriminate|].
  destruct (process_state' t md st (answer_counts c) (cur_scene c) (gen c))
    as [[[act sc] g]|e]; [|discriminate].
  destruct act as [|st' ac'|succs].
  - intros [= <-]. by left.
  - destruct (bool_decide _) eqn:Eb; [discriminate|].
    intros [= <-]. right. exists st'. simpl. split; [done|].
    by apply bool_decide_eq_false in Eb.
  - intros [= <-]. by left.
Qed.

(** X13: with a cap of at least one the search accepts at most that many
    states and stops short of the cap only with an empty stack; without a
    cap, or with a cap below one, it always runs until the stack is
    empty. *)
Theorem cap_respected fuel sc t md counts mx g c :
  instantiate_templates_dfs shuffle randbelow answer_question is_degenerate
    fuel sc t md counts mx g = Some (Ok c) →
  match mx with
  | Some m =>
      if decide (1 ≤ m)
      then Z.of_nat (length (final_states c)) ≤ m
           ∧ (Z.of_nat (length (final_states c)) < m → states c = [])
      else states c = []
  | None => states c = []
  end.
Proof.
  unfold instantiate_templates_dfs. destruct (initial_state t) as [st|e]; [|discriminate].
  intros H.
  eapply (dfs_loop_exit_invariant t md mx
            (λ c, ∀ m, mx = Some m → 1 ≤ m → Z.of_nat (length (final_states c)) < m)
            (λ c, match mx with
                  | Some m =>
                      if decide (1 ≤ m)
                      then Z.of_nat (length (final_states c)) ≤ m
                           ∧ (Z.of_nat (length (final_states c)) < m → states c = [])
                      else states c = []
                  | None => states c = []
                  end)); [| | |exact H].
  - intros c1 c2 HI Hr m -> Hm. specialize (HI m eq_refl Hm).
    apply round_continue_cases in Hr as [->|(st' & Hf & Hne)]; [done|].
    rewrite Hf in *. rewrite length_app in *. simpl in *.
    assert (m ≠ Z.of_nat (length (final_states c1) + 1)) by congruence. lia.
  - intros c1 c2 HI Hr.
    apply round_finished_cases in Hr as [[Hnil ->]|(st' & Hf & Hmx)].
    + destruct mx as [m|]; [|done]. destruct (decide (1 ≤ m)); [|done].
      specialize (HI m eq_refl l). split; [lia|done].
    + rewrite Hmx. destruct (decide _) as [_|Hn]; [split; lia|].
      rewrite Hf, length_app in Hn. simpl in Hn. lia.
  - simpl. intros m _ Hm. lia.
Qed.
End SearchFacts.

Lemma cap_respected_witness :
  ∃ c,
    Demo.run 100 Demo.scene3 Demo.query_template Demo.color_counts (Some 1) = Some (Ok c)
    ∧ Z.of_nat (length (final_states c)) ≤ 1
    ∧ (Z.of_nat (length (final_states c)) < 1 → states c = []).
Proof.
  eexists. split; [vm_compute; reflexivity|].
  apply (cap_respected Demo.shuffle Demo.randbelow Demo.answer_question Demo.is_degenerate
           100 Demo.scene3 Demo.query_template Demo.md Demo.color_counts (Some 1) 0%nat).
  vm_compute. reflexivity.
Defined.

Section SearchCountsFacts.
Context {rng : Type}.
Variable shuffle : ∀ A : Type, list A → rng → list A * rng.
Variable randbelow : nat → rng → nat * rng.
Variable answer_question : list node → metadata → scene → result (list pyval).
Variable is_degenerate : list node → metadata → scene → pyval → bool.

Local Abbreviation process_state' :=
  (process_state shuffle randbelow answer_question is_degenerate).

Lemma counts_incr_keys a ac : (counts_incr a ac).*1 = ac.*1.
Proof.
  induction ac as [|[k c] ac IH]; simpl; [done|].
  destruct (py_eqb k a); simpl; [done|]. f_equal. apply IH.
Qed.

Lemma counts_incr_total a ac cur :
  counts_get a ac = Some cur → total_count (counts_incr a ac) = total_count ac + 1.
Proof.
  unfold total_count. induction ac as [|[k c] ac IH]; simpl; [discriminate|].
  destruct (py_eqb k a); simpl; [lia|]. intros H. specialize (IH H).
  rewrite <- Z.add_assoc. f_equal. exact IH.
Qed.

Lemma counts_lookup_get a ac cur : counts_lookup a ac = Ok cur → counts_get a ac = Some cur.
Proof.
  unfold counts_lookup.
  destruct a; try discriminate; (destruct (counts_get _ ac); simpl; [|discriminate]);
    intros H; apply Ok_inj in H; by subst.
Qed.

(** X14: every accepted state has consumed all template nodes; a search
    never adds or removes an answer of the count table, and the sum of the
    counts grows by exactly the number of accepted states. *)
Theorem accepted_complete_and_counted fuel sc t md counts mx g c :
  instantiate_templates_dfs shuffle randbelow answer_question is_degenerate
    fuel sc t md counts mx g = Some (Ok c) →
  Forall (λ st, next_template_node st = length (t_nodes t)) (final_states c)
  ∧ (answer_counts c).*1 = counts.*1
  ∧ total_count (answer_counts c)
    = total_count counts + Z.of_nat (length (final_states c)).
Proof.
  unfold instantiate_templates_dfs. destruct (initial_state t) as [st|e]; [|discriminate].
  intros H.
  eapply (dfs_loop_invariant shuffle randbelow answer_question is_degenerate t md mx
            (λ c, Forall (λ st, next_template_node st = length (t_nodes t)) (final_states c)
                  ∧ (answer_counts c).*1 = counts.*1
                  ∧ total_count (answer_counts c)
                    = total_count counts + Z.of_nat (length (final_states c))));
    [| |exact H].
  - clear. intros c c' (Hf & Hk & Hs) Hr.
    apply round_inv in Hr as [[_ ->]|(st & rest & act & Es & Hp & Hact)]; [done|].
    destruct act as [|st' ac'|succs].
    + destruct Hact as (_ & -> & ->). done.
    + destruct Hact as (_ & -> & ->).
      apply process_state_accepted in Hp
        as (_ & _ & outputs & a & _ & _ & _ & _ & Hn & Hrs & -> & ->).
      apply rejection_sampling_keep in Hrs as (cur & _ & _ & Hc & _).
      apply counts_lookup_get in Hc.
      split; [|split].
      * apply Forall_app. split; [done|]. by constructor.
      * by rewrite counts_incr_keys.
      * rewrite (counts_incr_total _ _ _ Hc), Hs, length_app. simpl. lia.
    + destruct Hact as (_ & -> & ->). done.
  - simpl. split; [constructor|]. split; [done|]. lia.
Qed.

(** *** Successors *)

Lemma expand_option_extends md pntt st n k g s g' :
  expand_option randbelow md pntt st n k g = Ok (s, g') → extends_state st s.
Proof.
  unfold expand_option, extends_state. intros H. bind_ok H. ok_inj H. cbn.
  split; [by eexists|]. split; [|split; [lia|done]].
  f_equal. rewrite length_app. lia.
Qed.

Lemma expand_options_extends md pntt st n keys :
  ∀ g succs g',
    expand_options randbelow md pntt st n keys g = Ok (succs, g') →
    Forall (extends_state st) succs.
Proof.
  induction keys as [|k keys IH]; intros g succs g' H; simpl in H.
  - ok_inj H. constructor.
  - bind_ok H. ok_inj H. constructor.
    + by eapply expand_option_extends.
    + by eapply IH.
Qed.

Lemma expand_param_extends md pntt st n side g succs g' :
  expand_param shuffle md pntt st n side g = Ok (succs, g') →
  Forall (extends_state st) succs.
Proof.
  unfold expand_param. intros H. destruct (negb _); [discriminate|].
  bind_ok H. ok_inj H.
  eapply mapM_Forall; [|exact E3].
  intros val s Hs. simpl in Hs. bind_ok Hs. ok_inj Hs. unfold extends_state. cbn.
  split; [by eexists|]. split; [|split; [lia|done]].
  f_equal. rewrite length_app. simpl. lia.
Qed.

Lemma expand_plain_extends st n succs :
  expand_plain st n = Ok succs → Forall (extends_state st) succs.
Proof.
  unfold expand_plain. intros H. bind_ok H. ok_inj H.
  constructor; [|constructor]. unfold extends_state. cbn.
  split; [by eexists|]. split; [|split; [lia|done]].
  f_equal. rewrite length_app. simpl. lia.
Qed.

(** X15: every successor pushed by a round keeps its parent's nodes as a
    prefix of its own, maps the template node just expanded to its last
    concrete node and leaves the rest of the index map unchanged, and carries
    no answer. *)
Theorem pushed_successors_extend t md st ac sc g succs sc' g' :
  process_state' t md st ac sc g = Ok (Pushed succs, sc', g') →
  Forall (extends_state st) succs.
Proof.
  unfold process_state. intros H. bind_ok H.
  destruct (py_eqb a0 INVALID); [by ok_inj H|].
  bind_ok H. destruct a1; [by ok_inj H|].
  destruct (bool_decide (next_template_node st = length (t_nodes t))).
  - bind_ok H. destruct a1; simpl in H; [|by ok_inj H].
    destruct (_ && _); by ok_inj H.
  - bind_ok H. ok_inj H. injection H as <-.
    unfold expand in E2. bind_ok E2.
    destruct (bool_decide (_ ∈ special_nodes)).
    + unfold expand_special in E2. bind_ok E2. ok_inj E2. by eapply expand_options_extends.
    + destruct (side_inputs _).
      * bind_ok E2. ok_inj E2. by eapply expand_param_extends.
      * bind_ok E2. ok_inj E2. by eapply expand_plain_extends.
Qed.
End SearchCountsFacts.

Lemma accepted_complete_and_counted_witness :
  ∃ c,
    Demo.run 100 Demo.scene3 Demo.query_template Demo.color_counts None = Some (Ok c)
    ∧ Forall (λ st, next_template_node st = length (t_nodes Demo.query_template))
             (final_states c)
    ∧ (answer_counts c).*1 = Demo.color_counts.*1
    ∧ total_count (answer_counts c)
      = total_count Demo.color_counts + Z.of_nat (length (final_states c)).
Proof.
  eexists. split; [vm_compute; reflexivity|].
  apply (accepted_complete_and_counted Demo.shuffle Demo.randbelow Demo.answer_question
           Demo.is_degenerate 100 Demo.scene3 Demo.query_template Demo.md
           Demo.color_counts None 0%nat).
  vm_compute. reflexivity.
Defined.

Lemma pushed_successors_extend_witness :
  ∃ succs sc' g',
    process_state Demo.shuffle Demo.randbelow Demo.answer_question Demo.is_degenerate
      Demo.query_template Demo.md Demo.query_initial Demo.color_counts Demo.scene3 0%nat
    = Ok (Pushed succs, sc', g')
    ∧ Forall (extends_state Demo.query_initial) succs.
Proof.
  eexists _, _, _. split; [vm_compute; reflexivity|].
  eapply (pushed_successors_extend Demo.shuffle Demo.randbelow Demo.answer_question
            Demo.is_degenerate Demo.query_template Demo.md Demo.query_initial
            Demo.color_counts Demo.scene3 0%nat).
  vm_compute. reflexivity.
Defined.

(** * Further properties of rejection sampling *)

Lemma counts_get_elem_of a ac c : counts_get a ac = Some c → ∃ k, (k, c) ∈ ac.
Proof.
  induction ac as [|[k c'] ac IH]; simpl; [discriminate|].
  destruct (py_eqb k a).
  - intros [= ->]. exists k. apply list_elem_of_here.
  - intros H. destruct (IH H) as [k' Hk]. exists k'. by apply list_elem_of_further.
Qed.

Lemma answer_counts_sorted_zero ac :
  Forall (λ kc : pyval * Z, kc.2 = 0) ac → Forall (λ c, c = 0) (answer_counts_sorted ac).
Proof.
  intros H. unfold answer_counts_sorted. rewrite stable_sort_perm. by apply Forall_fmap.
Qed.

(** X16: on a count table whose counts are all zero and that lists at
    least two answers, rejection sampling keeps every listed answer. *)
Theorem rejection_sampling_fresh ac a cur :
  Forall (λ kc : pyval * Z, kc.2 = 0) ac →
  (2 ≤ length ac)%nat →
  counts_lookup a ac = Ok cur →
  rejection_sampling ac a = Ok true.
Proof.
  intros Hz Hlen Hc. unfold rejection_sampling. rewrite Hc. cbn [rbind].
  assert (cur = 0) as ->.
  { apply counts_lookup_get, counts_get_elem_of in Hc as [k Hk].
    rewrite Forall_forall in Hz. by apply Hz in Hk. }
  pose proof (answer_counts_sorted_zero ac Hz) as Hs.
  assert (Hl : length (answer_counts_sorted ac) = length ac)
    by (unfold answer_counts_sorted; by rewrite stable_sort_length, length_fmap).
  rewrite Forall_forall in Hs.
  unfold py_index_neg, py_index.
  destruct (answer_counts_sorted ac !! (length (answer_counts_sorted ac) `div` 2)%nat)
    as [m|] eqn:Em.
  2:{ apply lookup_ge_None in Em. rewrite Hl in Em.
      pose proof (Nat.div_lt (length ac) 2). lia. }
  assert (m = 0) as -> by (eapply Hs, list_elem_of_lookup_2, Em).
  cbn [of_option rbind]. destruct (decide _) as [_|Hn]; [|lia].
  destruct (answer_counts_sorted ac !! (length (answer_counts_sorted ac) - 2)%nat)
    as [s2|] eqn:E2.
  2:{ apply lookup_ge_None in E2. lia. }
  assert (s2 = 0) as -> by (eapply Hs, list_elem_of_lookup_2, E2).
  reflexivity.
Qed.

Lemma rejection_sampling_fresh_witness :
  rejection_sampling Demo.color_counts (VStr "gray") = Ok true.
Proof.
  apply (rejection_sampling_fresh Demo.color_counts (VStr "gray") 0).
  - repeat constructor.
  - simpl. lia.
  - reflexivity.
Defined.

(** X17: rejection sampling raises [TypeError] for a list answer,
    [KeyError] for an answer that the count table does not list, and
    [IndexError] when the table lists the answer but has a single entry. *)
Theorem rejection_sampling_raises ac a :
  (∀ l, a = VList l → rejection_sampling ac a = Raise TypeError)
  ∧ ((∀ l, a ≠ VList l) → counts_get a ac = None →
     rejection_sampling ac a = Raise KeyError)
  ∧ (∀ cur, counts_lookup a ac = Ok cur → length ac = 1%nat →
            rejection_sampling ac a = Raise IndexError).
Proof.
  split; [|split].
  - intros l ->. reflexivity.
  - intros Hl Hg. unfold rejection_sampling, counts_lookup. rewrite Hg.
    destruct a; try reflexivity. by destruct (Hl l).
  - intros cur Hc Hlen. unfold rejection_sampling. rewrite Hc. cbn [rbind].
    destruct ac as [|[k c] [|??]]; try discriminate. reflexivity.
Qed.

(** * Properties of the optional spans *)

Lemma str_length_app s1 s2 :
  String.length (s1 +:+ s2) = (String.length s1 + String.length s2)%nat.
Proof. induction s1 as [|c s1 IH]; simpl; [done|]. by rewrite IH. Qed.

Lemma str_take_length n s : String.length (str_take n s) = (n `min` String.length s)%nat.
Proof.
  revert s. induction n as [|n IH]; intros [|c s]; simpl; try done. by rewrite IH.
Qed.

Lemma str_drop_length n s : String.length (str_drop n s) = (String.length s - n)%nat.
Proof.
  revert s. induction n as [|n IH]; intros [|c s]; simpl; try done; lia.
Qed.

Lemma last_close_bound s :
  ∀ i best j,
    last_close s i best = Some j →
    best = Some j ∨ (i ≤ j < i + String.length s)%nat.
Proof.
  induction s as [|c s IH]; intros i best j H; simpl in H; [by left|].
  destruct (bool_decide (c = "["%char)); [by left|].
  apply IH in H as [H|H]; [|right; simpl; lia].
  destruct (bool_decide (c = "]"%char)); [|by left].
  injection H as <-. right. simpl. lia.
Qed.

Lemma search_optional_bound s :
  ∀ i i0 j,
    search_optional s i = Some (i0, j) →
    (i ≤ i0 ∧ (i0 - i) + j + 2 ≤ String.length s)%nat.
Proof.
  induction s as [|c s IH]; intros i i0 j H; simpl in H; [discriminate|].
  destruct (bool_decide (c = "["%char)).
  - destruct (last_close s 0 None) as [j'|] eqn:El.
    + injection H as <- <-. apply last_close_bound in El as [El|El]; [discriminate|].
      simpl. lia.
    + apply IH in H. simpl. lia.
  - apply IH in H. simpl. lia.
Qed.

Lemma search_optional_none_no_open s i :
  contains "[" s = false → search_optional s i = None.
Proof.
  revert i. induction s as [|c s IH]; intros i H; [done|].
  simpl in H. apply orb_false_iff in H as [Hc Hs].
  simpl. rewrite IH by done.
  destruct (bool_decide (c = "["%char)) eqn:E; [|done].
  apply bool_decide_eq_true in E. subst c. by destruct s.
Qed.

Lemma last_close_none_no_close s i :
  contains "]" s = false → last_close s i None = None.
Proof.
  revert i. induction s as [|c s IH]; intros i H; [done|].
  simpl in H. apply orb_false_iff in H as [Hc Hs].
  simpl. destruct (bool_decide (c = "["%char)); [done|].
  destruct (bool_decide (c = "]"%char)) eqn:E; [|by apply IH].
  apply bool_decide_eq_true in E. subst c. by destruct s.
Qed.

Lemma search_optional_none_no_close s i :
  contains "]" s = false → search_optional s i = None.
Proof.
  revert i. induction s as [|c s IH]; intros i H; [done|].
  simpl in H. apply orb_false_iff in H as [Hc Hs].
  simpl. rewrite IH, last_close_none_no_close by done.
  by destruct (bool_decide (c = "["%char)).
Qed.

Section OptionalsFacts.
Context {rng : Type}.
Variable random_gt_half : rng → bool * rng.

Lemma replace_optionals_loop_resolves fuel :
  ∀ s g,
    (String.length s ≤ fuel)%nat →
    ∃ s' g',
      replace_optionals_loop random_gt_half fuel s g = Some (s', g')
      ∧ search_optional s' 0 = None
      ∧ (String.length s' ≤ String.length s)%nat.
Proof.
  induction fuel as [|fuel IH]; intros s g Hlen.
  - destruct s; [|simpl in Hlen; lia]. by exists "", g.
  - cbn [replace_optionals_loop].
    destruct (search_optional s 0) as [[i0 j]|] eqn:Es; [|by exists s, g].
    apply search_optional_bound in Es as [_ Hb].
    destruct (random_gt_half g) as [keep g1].
    set (s1 := if keep then _ else _).
    assert (Hs1 : (String.length s1 + 2 ≤ String.length s)%nat).
    { subst s1. destruct keep;
        rewrite !str_length_app, ?str_take_length, ?str_drop_length; lia. }
    destruct (IH s1 g1) as (s' & g' & Hrun & Hnone & Hle); [lia|].
    exists s', g'. split; [done|]. split; [done|]. lia.
Qed.

(** X18: [replace_optionals] ends for every text; the text it returns has
    no bracketed span left and is not longer than the text it was given. *)
Theorem replace_optionals_resolves s g :
  ∃ s' g',
    replace_optionals random_gt_half s g = Some (s', g')
    ∧ search_optional s' 0 = None
    ∧ (String.length s' ≤ String.length s)%nat.
Proof. by apply replace_optionals_loop_resolves. Qed.

(** X19: a text without an opening bracket, or without a closing bracket,
    is returned unchanged and no random number is drawn. *)
Theorem replace_optionals_without_brackets s g :
  contains "[" s = false ∨ contains "]" s = false →
  replace_optionals random_gt_half s g = Some (s, g).
Proof.
  intros H. unfold replace_optionals.
  assert (Hn : search_optional s 0 = None).
  { destruct H; [by apply search_optional_none_no_open
                |by apply search_optional_none_no_close]. }
  destruct (String.length s); simpl; by rewrite Hn.
Qed.
End OptionalsFacts.

Lemma replace_optionals_without_brackets_witness :
  replace_optionals (λ g : nat, (true, S g)) "What color is the cube?" 0%nat
  = Some ("What color is the cube?", 0%nat).
Proof.
  apply (replace_optionals_without_brackets (λ g : nat, (true, S g))).
  left. reflexivity.
Defined.

Example replace_optionals_keep_and_drop :
  replace_optionals (λ g : nat, (Nat.even g, S g)) "A [aa] B [bb]" 0%nat
  = Some ("A aa B ", 2%nat).
Proof. reflexivity. Qed.

(** * The attribute index as a cache *)

(** X20: once [find_filter_options] has returned, the index is attached to
    the scene: a later call on that scene, for any object indices, leaves
    the scene as it is and reads the same index. *)
Theorem find_filter_options_cached v sc md fo sc' v2 fo2 sc2 :
  find_filter_options v sc md = Ok (fo, sc') →
  find_filter_options v2 sc' md = Ok (fo2, sc2) →
  sc2 = sc' ∧ fo2.*1 = fo.*1.
Proof.
  unfold find_filter_options. intros H1 H2. bind_ok H1. ok_inj H1.
  bind_ok H2. ok_inj H2.
  apply ensure_filter_options_ext in E as [_ [cache Hc]].
  unfold ensure_filter_options in E2. rewrite Hc in E2. apply Ok_inj in E2. subst sc2.
  split; [done|].
  rewrite Hc in E1, E4. simpl in E1, E4. apply Ok_inj in E1, E4. subst.
  rewrite <- !list_fmap_compose. apply list_fmap_ext. by intros _ [k vs] _.
Qed.

Lemma find_filter_options_cached_witness :
  ∃ fo sc' fo2 sc2,
    find_filter_options (VList [0; 1; 2]) Demo.scene3 Demo.md = Ok (fo, sc')
    ∧ find_filter_options (VList [1]) sc' Demo.md = Ok (fo2, sc2)
    ∧ sc2 = sc' ∧ fo2.*1 = fo.*1.
Proof.
  eexists _, _, _, _. split; [vm_compute; reflexivity|].
  split; [vm_compute; reflexivity|].
  eapply (find_filter_options_cached (VList [0; 1; 2]) Demo.scene3 Demo.md _ _ (VList [1]));
    vm_compute; reflexivity.
Defined.

(** * Scene objects: numbers, order and equality *)

Ltac eqb_cases :=
  repeat match goal with
  | |- context [String.eqb ?a ?b] => destruct (String.eqb_spec a b); subst
  | H : context [String.eqb ?a ?b] |- _ => destruct (String.eqb_spec a b); subst
  end.

Ltac in_names := repeat first [apply list_elem_of_here | apply list_elem_of_further].

Ltac not_in_names :=
  let H := fresh in
  intros H; repeat (apply elem_of_cons in H; destruct H as [H|H]; [congruence|]);
  by apply elem_of_nil in H.

Lemma color_to_num_spec (c : CLEVRColor.t) :
  match CLEVRColor.to_num c with
  | Some k => CLEVRColor.name c ∈ color_names ∧ 1 ≤ k ≤ 8
  | None => CLEVRColor.name c ∉ color_names
  end.
Proof.
  destruct c as [n]. unfold CLEVRColor.to_num, color_names. cbn [CLEVRColor.name].
  eqb_cases; first [split; [in_names|lia] | not_in_names].
Qed.

Lemma shape_to_num_spec (c : CLEVRShape.t) :
  match CLEVRShape.to_num c with
  | Some k => CLEVRShape.name c ∈ shape_names ∧ 1 ≤ k ≤ 3
  | None => CLEVRShape.name c ∉ shape_names
  end.
Proof.
  destruct c as [n]. unfold CLEVRShape.to_num, shape_names. cbn [CLEVRShape.name].
  eqb_cases; first [split; [in_names|lia] | not_in_names].
Qed.

Lemma size_to_num_spec (c : CLEVRSize.t) :
  match CLEVRSize.to_num c with
  | Some k => CLEVRSize.name c ∈ size_names ∧ 1 ≤ k ≤ 2
  | None => CLEVRSize.name c ∉ size_names
  end.
Proof.
  destruct c as [n]. unfold CLEVRSize.to_num, size_names. cbn [CLEVRSize.name].
  eqb_cases; first [split; [in_names|lia] | not_in_names].
Qed.

Lemma material_to_num_spec (c : CLEVRMaterial.t) :
  match CLEVRMaterial.to_num c with
  | Some k => CLEVRMaterial.name c ∈ material_names ∧ 1 ≤ k ≤ 2
  | None => CLEVRMaterial.name c ∉ material_names
  end.
Proof.
  destruct c as [n]. unfold CLEVRMaterial.to_num, material_names. cbn [CLEVRMaterial.name].
  eqb_cases; first [split; [in_names|lia] | not_in_names].
Qed.

Lemma color_to_num_inj c c' k :
  CLEVRColor.to_num c = Some k → CLEVRColor.to_num c' = Some k → c = c'.
Proof.
  destruct c as [n], c' as [n']. unfold CLEVRColor.to_num. cbn [CLEVRColor.name].
  intros H H'. eqb_cases; congruence.
Qed.

Lemma shape_to_num_inj c c' k :
  CLEVRShape.to_num c = Some k → CLEVRShape.to_num c' = Some k → c = c'.
Proof.
  destruct c as [n], c' as [n']. unfold CLEVRShape.to_num. cbn [CLEVRShape.name].
  intros H H'. eqb_cases; congruence.
Qed.

Lemma size_to_num_inj c c' k :
  CLEVRSize.to_num c = Some k → CLEVRSize.to_num c' = Some k → c = c'.
Proof.
  destruct c as [n], c' as [n']. unfold CLEVRSize.to_num. cbn [CLEVRSize.name].
  intros H H'. eqb_cases; congruence.
Qed.

Lemma material_to_num_inj c c' k :
  CLEVRMaterial.to_num c = Some k → CLEVRMaterial.to_num c' = Some k → c = c'.
Proof.
  destruct c as [n], c' as [n']. unfold CLEVRMaterial.to_num. cbn [CLEVRMaterial.name].
  intros H H'. eqb_cases; congruence.
Qed.

(** The number of an object has the codes of size, shape, colour and
    material as its four decimal digits. *)
Lemma to_num_digits o n :
  CLEVRObject.to_num o = Ok n →
  ∃ z s c m,
    CLEVRSize.to_num (CLEVRObject.size o) = Some z ∧
    CLEVRShape.to_num (CLEVRObject.shape o) = Some s ∧
    CLEVRColor.to_num (CLEVRObject.color o) = Some c ∧
    CLEVRMaterial.to_num (CLEVRObject.material o) = Some m ∧
    n = 1000 * z + 100 * s + 10 * c + m ∧
    1 ≤ z ≤ 2 ∧ 1 ≤ s ≤ 3 ∧ 1 ≤ c ≤ 8 ∧ 1 ≤ m ≤ 2.
Proof.
  unfold CLEVRObject.to_num.
  pose proof (size_to_num_spec (CLEVRObject.size o)) as Hz.
  pose proof (shape_to_num_spec (CLEVRObject.shape o)) as Hs.
  pose proof (color_to_num_spec (CLEVRObject.color o)) as Hc.
  pose proof (material_to_num_spec (CLEVRObject.material o)) as Hm.
  destruct (CLEVRSize.to_num _) as [z|]; [|discriminate].
  destruct (CLEVRShape.to_num _) as [s|]; [|discriminate].
  destruct (CLEVRColor.to_num _) as [c|]; [|discriminate].
  destruct (CLEVRMaterial.to_num _) as [m|]; [|discriminate].
  cbn. intros [= <-]. exists z, s, c, m. intuition lia.
Qed.

Lemma to_num_inj a b n :
  CLEVRObject.to_num a = Ok n → CLEVRObject.to_num b = Ok n → a = b.
Proof.
  intros Ha Hb.
  apply to_num_digits in Ha as (z & s & c & m & Hz & Hs & Hc & Hm & -> & ?).
  apply to_num_digits in Hb as (z' & s' & c' & m' & Hz' & Hs' & Hc' & Hm' & Heq & ?).
  assert (z = z' ∧ s = s' ∧ c = c' ∧ m = m') as (-> & -> & -> & ->) by lia.
  destruct a as [ca sa za ma], b as [cb sb zb mb]. cbn in *.
  f_equal; [eapply color_to_num_inj|eapply shape_to_num_inj
           |eapply size_to_num_inj|eapply material_to_num_inj]; eassumption.
Qed.

(** X21 ([CLEVRObject.to_num]): the number of an object is defined exactly
    when its four names are among the listed ones, and then lies between
    1111 and 2382; with any other name the arithmetic on [None] raises
    [TypeError]. *)
Theorem to_num_defined_on_known_names o :
  match CLEVRObject.to_num o with
  | Ok n => known_names o ∧ 1111 ≤ n ≤ 2382
  | Raise e => ¬ known_names o ∧ e = TypeError
  end.
Proof.
  destruct (CLEVRObject.to_num o) as [n|e] eqn:E.
  - apply to_num_digits in E as (z & s & c & m & Hz & Hs & Hc & Hm & -> & ?).
    pose proof (size_to_num_spec (CLEVRObject.size o)) as Hz'.
    pose proof (shape_to_num_spec (CLEVRObject.shape o)) as Hs'.
    pose proof (color_to_num_spec (CLEVRObject.color o)) as Hc'.
    pose proof (material_to_num_spec (CLEVRObject.material o)) as Hm'.
    rewrite Hz in Hz'. rewrite Hs in Hs'. rewrite Hc in Hc'. rewrite Hm in Hm'.
    split; [unfold known_names; tauto|lia].
  - unfold CLEVRObject.to_num in E.
    pose proof (size_to_num_spec (CLEVRObject.size o)) as Hz.
    pose proof (shape_to_num_spec (CLEVRObject.shape o)) as Hs.
    pose proof (color_to_num_spec (CLEVRObject.color o)) as Hc.
    pose proof (material_to_num_spec (CLEVRObject.material o)) as Hm.
    unfold known_names.
    destruct (CLEVRSize.to_num _); [|cbn in E; split; [tauto|congruence]].
    destruct (CLEVRShape.to_num _); [|cbn in E; split; [tauto|congruence]].
    destruct (CLEVRColor.to_num _); [|cbn in E; split; [tauto|congruence]].
    destruct (CLEVRMaterial.to_num _); [|cbn in E; split; [tauto|congruence]].
    discriminate.
Qed.

(** X22 ([CLEVRObject.to_num]): two objects with the same number have the
    same four names. *)
Theorem to_num_injective a b n :
  CLEVRObject.to_num a = Ok n → CLEVRObject.to_num b = Ok n → a = b.
Proof. apply to_num_inj. Qed.

Lemma to_num_injective_witness :
  let o := {| CLEVRObject.color := {| CLEVRColor.name := "red" |};
              CLEVRObject.shape := {| CLEVRShape.name := "sphere" |};
              CLEVRObject.size := {| CLEVRSize.name := "large" |};
              CLEVRObject.material := {| CLEVRMaterial.name := "metal" |} |} in
  CLEVRObject.to_num o = Ok 2222 ∧ o = o.
Proof.
  intros o. split; [reflexivity|].
  apply (to_num_injective o o 2222); reflexivity.
Defined.

(** X23 ([CLEVRObject.__lt__]): on objects with listed names the
    comparison holds between an object and itself, holds in at least one
    direction between any two objects, and holds in both directions only
    between objects with the same names: it is the order [<=] of the
    numbers and not a strict order. *)
Theorem lt_is_not_strict a b n m :
  CLEVRObject.to_num a = Ok n → CLEVRObject.to_num b = Ok m →
  CLEVRObject.__lt__ a a = Ok true ∧
  CLEVRObject.__lt__ a b = Ok (n <=? m) ∧
  (CLEVRObject.__lt__ a b = Ok true ∨ CLEVRObject.__lt__ b a = Ok true) ∧
  (CLEVRObject.__lt__ a b = Ok true ∧ CLEVRObject.__lt__ b a = Ok true ↔ a = b).
Proof.
  intros Ha Hb. unfold CLEVRObject.__lt__. rewrite Ha, Hb. cbn.
  split; [by rewrite Z.leb_refl|]. split; [done|]. split.
  - destruct (Z.leb_spec n m), (Z.leb_spec m n); auto; lia.
  - split.
    + intros [[= H1] [= H2]]. apply Z.leb_le in H1, H2.
      assert (n = m) as -> by lia. eapply to_num_inj; eassumption.
    + intros ->. rewrite Ha in Hb. injection Hb as ->. by rewrite Z.leb_refl.
Qed.

Lemma lt_is_not_strict_witness :
  let o := {| CLEVRObject.color := {| CLEVRColor.name := "red" |};
              CLEVRObject.shape := {| CLEVRShape.name := "sphere" |};
              CLEVRObject.size := {| CLEVRSize.name := "large" |};
              CLEVRObject.material := {| CLEVRMaterial.name := "metal" |} |} in
  let o' := {| CLEVRObject.color := {| CLEVRColor.name := "gray" |};
               CLEVRObject.shape := {| CLEVRShape.name := "sphere" |};
               CLEVRObject.size := {| CLEVRSize.name := "large" |};
               CLEVRObject.material := {| CLEVRMaterial.name := "metal" |} |} in
  CLEVRObject.to_num o = Ok 2222 ∧ CLEVRObject.to_num o' = Ok 2212 ∧
  CLEVRObject.__lt__ o o = Ok true.
Proof.
  intros o o'. split; [reflexivity|]. split; [reflexivity|].
  exact (proj1 (lt_is_not_strict o o' 2222 2212 eq_refl eq_refl)).
Defined.

Lemma comma_free_cons c s :
  comma_free (String c s) ↔ c ≠ ","%char ∧ comma_free s.
Proof.
  unfold comma_free. cbn [contains String.prefix].
  destruct (ascii_dec "," c) as [<-|Hne].
  - replace (String.prefix "" s) with true by (by destruct s).
    split; [discriminate|]. by intros [[] _].
  - cbn. split; [intros H; split; [congruence|done]|by intros [_ H]].
Qed.

Lemma str_app_nil (t : string) : "" +:+ t = t.
Proof. reflexivity. Qed.

Lemma str_app_cons (a : ascii) (s t : string) :
  String a s +:+ t = String a (s +:+ t).
Proof. reflexivity. Qed.

Lemma split_at_comma c1 c2 r1 r2 :
  comma_free c1 → comma_free c2 →
  c1 +:+ "," +:+ r1 = c2 +:+ "," +:+ r2 → c1 = c2 ∧ r1 = r2.
Proof.
  revert c2. induction c1 as [|a c1 IH]; intros [|b c2] H1 H2;
    rewrite ?str_app_nil, ?str_app_cons, ?str_app_nil; intros H.
  - by injection H as ->.
  - injection H as <- _. by apply comma_free_cons in H2 as [[] _].
  - injection H as -> _. by apply comma_free_cons in H1 as [[] _].
  - injection H as -> H. apply comma_free_cons in H1 as [_ H1].
    apply comma_free_cons in H2 as [_ H2].
    destruct (IH c2 H1 H2 H) as [-> ->]. done.
Qed.

Lemma str_app_inv_tail (s1 s2 t : string) :
  s1 +:+ t = s2 +:+ t → s1 = s2.
Proof.
  intros H.
  assert (String.length s1 = String.length s2) as Hlen.
  { apply (f_equal String.length) in H. rewrite !str_length_app in H. lia. }
  revert s2 H Hlen. induction s1 as [|a s1 IH]; intros [|b s2] H Hlen;
    cbn in Hlen; try done.
  rewrite !str_app_cons in H.
  injection H as -> H. f_equal. apply IH; [done|lia].
Qed.

(** X24 ([CLEVRObject.__eq__]): equality compares the printed forms; when
    the colour, shape and size names of both objects contain no comma, two
    objects are equal exactly when their four names are the same. *)
Theorem eq_compares_names a b :
  comma_free_names a → comma_free_names b →
  (CLEVRObject.__eq__ a b = true ↔ a = b).
Proof.
  intros (Hc & Hs & Hz) (Hc' & Hs' & Hz'). unfold CLEVRObject.__eq__. split.
  - intros H. apply String.eqb_eq in H. unfold CLEVRObject.__str__ in H.
    destruct a as [[c] [s] [z] [m]], b as [[c'] [s'] [z'] [m']].
    unfold CLEVRColor.__str__, CLEVRShape.__str__, CLEVRSize.__str__,
      CLEVRMaterial.__str__ in H.
    cbn [CLEVRObject.color CLEVRObject.shape CLEVRObject.size CLEVRObject.material
         CLEVRColor.name CLEVRShape.name CLEVRSize.name CLEVRMaterial.name] in *.
    rewrite !str_app_cons, !str_app_nil in H.
    injection H as H.
    apply split_at_comma in H as [-> H]; [|done..].
    apply split_at_comma in H as [-> H]; [|done..].
    apply split_at_comma in H as [-> H]; [|done..].
    apply str_app_inv_tail in H as ->. done.
  - intros ->. apply String.eqb_refl.
Qed.

Lemma eq_compares_names_witness :
  let o := {| CLEVRObject.color := {| CLEVRColor.name := "red" |};
              CLEVRObject.shape := {| CLEVRShape.name := "sphere" |};
              CLEVRObject.size := {| CLEVRSize.name := "large" |};
              CLEVRObject.material := {| CLEVRMaterial.name := "metal" |} |} in
  let o' := {| CLEVRObject.color := {| CLEVRColor.name := "gray" |};
               CLEVRObject.shape := {| CLEVRShape.name := "sphere" |};
               CLEVRObject.size := {| CLEVRSize.name := "large" |};
               CLEVRObject.material := {| CLEVRMaterial.name := "metal" |} |} in
  comma_free_names o ∧ comma_free_names o' ∧
  (CLEVRObject.__eq__ o o' = true ↔ o = o').
Proof.
  intros o o'.
  assert (comma_free_names o) as H by (repeat split; reflexivity).
  assert (comma_free_names o') as H' by (repeat split; reflexivity).
  split; [exact H|]. split; [exact H'|].
  exact (eq_compares_names o o' H H').
Defined.

(** A comma in a name moves the boundary between two names of the printed
    form: objects with different names compare equal. *)
Example eq_confuses_names_with_commas :
  let o := {| CLEVRObject.color := {| CLEVRColor.name := "red,cube" |};
              CLEVRObject.shape := {| CLEVRShape.name := "sphere" |};
              CLEVRObject.size := {| CLEVRSize.name := "large" |};
              CLEVRObject.material := {| CLEVRMaterial.name := "metal" |} |} in
  let o' := {| CLEVRObject.color := {| CLEVRColor.name := "red" |};
               CLEVRObject.shape := {| CLEVRShape.name := "cube,sphere" |};
               CLEVRObject.size := {| CLEVRSize.name := "large" |};
               CLEVRObject.material := {| CLEVRMaterial.name := "metal" |} |} in
  CLEVRObject.__eq__ o o' = true ∧ o ≠ o'.
Proof. split; [reflexivity|discriminate]. Qed.

(** * Helpers of the list data sets *)

Lemma suffixes_cons {A} (x : A) (l : list A) :
  suffixes (x :: l) = (x :: l) :: suffixes l.
Proof.
  unfold suffixes. cbn [length]. change (seq 0 (S (S (length l)))) with
    (0%nat :: seq 1 (S (length l))).
  rewrite fmap_cons. f_equal. rewrite <- (fmap_S_seq 0), <- list_fmap_compose.
  reflexivity.
Qed.

(** X25 ([get_sublist]): on a non-empty list whose length does not exceed
    the recursion depth available, the function returns all suffixes, from
    the list itself down to the empty list; on the empty list, and on a
    list longer than that depth, the recursion never reaches its base case
    and ends in [RecursionError]. *)
Theorem get_sublist_suffixes {A} (fuel : nat) (ls : list A) :
  IlpDataGen.get_sublist fuel ls =
  if bool_decide (ls ≠ [] ∧ (length ls ≤ fuel)%nat) then Some (suffixes ls) else None.
Proof.
  revert ls. induction fuel as [|fuel IH]; intros ls.
  - cbn. case_bool_decide as H; [|done]. destruct H as [H1 H2].
    destruct ls; [done|cbn in H2; lia].
  - cbn [IlpDataGen.get_sublist]. destruct ls as [|x [|y l]].
    + cbn. rewrite IH. rewrite !bool_decide_eq_false_2; [done|naive_solver..].
    + cbn. rewrite (bool_decide_eq_true_2 (1%nat = 1%nat)) by done.
      rewrite bool_decide_eq_true_2; [done|]. split; [done|lia].
    + rewrite (bool_decide_eq_false_2 (length (x :: y :: l) = 1%nat)) by (cbn; lia).
      cbn [drop]. rewrite IH. rewrite (suffixes_cons x (y :: l)).
      case_bool_decide as H; case_bool_decide as H'; try reflexivity.
      * destruct H'. split; [done|]. destruct H as [_ H]. cbn in *. lia.
      * destruct H. split; [done|]. destruct H' as [_ H']. cbn in *. lia.
Qed.

Section RandomFacts.
Context {rng : Type}.
Variable randbelow : nat → rng → nat * rng.

Lemma choice_nonempty {A} (ls : list A) (g : rng) :
  ls ≠ [] → ∃ x g', choice randbelow ls g = Ok (x, g') ∧ x ∈ ls.
Proof.
  intros Hne. unfold choice. destruct (randbelow (length ls) g) as [i g'].
  assert (i `mod` length ls < length ls)%nat as Hlt.
  { apply Nat.mod_upper_bound. destruct ls; [done|cbn; lia]. }
  apply lookup_lt_is_Some_2 in Hlt as [x Hx].
  exists x, g'. unfold py_index. rewrite Hx. cbn. split; [done|].
  by eapply list_elem_of_lookup_2.
Qed.

Lemma choice_empty {A} (g : rng) :
  choice randbelow (@nil A) g = Raise IndexError.
Proof. unfold choice. destruct (randbelow _ g). reflexivity. Qed.

Lemma random_choices_loop_nonempty {A} (ls : list A) (k : nat) (g : rng) :
  ls ≠ [] →
  ∃ xs g', IlpDataGen.random_choices_loop randbelow ls k g = Ok (xs, g') ∧
    length xs = k ∧ Forall (λ x, x ∈ ls) xs.
Proof.
  intros Hne. revert g. induction k as [|k IH]; intros g.
  - exists [], g. by repeat split.
  - cbn [IlpDataGen.random_choices_loop].
    destruct (choice_nonempty ls g Hne) as (x & g1 & -> & Hx).
    destruct (IH g1) as (xs & g2 & E & Hlen & Hall). cbn. rewrite E. cbn.
    exists (x :: xs), g2. split; [done|]. split; [cbn; lia|by constructor].
Qed.

(** X26 ([random_choices]): from a non-empty list the function returns a
    list of [k] elements (none for a negative [k]), each of them an
    element of the list. *)
Theorem random_choices_draws {A} (ls : list A) (k : Z) (g : rng) :
  ls ≠ [] →
  ∃ xs g', IlpDataGen.random_choices randbelow ls k g = Ok (xs, g') ∧
    length xs = Z.to_nat k ∧ Forall (λ x, x ∈ ls) xs.
Proof.
  intros Hne. unfold IlpDataGen.random_choices.
  destruct (Z.eqb_spec k 0) as [->|_].
  - exists [], g. by repeat split.
  - by apply random_choices_loop_nonempty.
Qed.

(** X27 ([random_choices]): on the empty list the function raises
    [IndexError] as soon as one element is asked for; for [k <= 0] it
    returns the empty list and draws nothing. *)
Theorem random_choices_of_nothing {A} (k : Z) (g : rng) :
  IlpDataGen.random_choices randbelow (@nil A) k g =
  if bool_decide (0 < k) then Raise IndexError else Ok ([], g).
Proof.
  unfold IlpDataGen.random_choices. destruct (Z.eqb_spec k 0) as [->|Hk].
  - by rewrite bool_decide_eq_false_2 by lia.
  - case_bool_decide as H.
    + destruct (Z.to_nat k) as [|n] eqn:E; [lia|].
      cbn [IlpDataGen.random_choices_loop]. by rewrite choice_empty.
    + replace (Z.to_nat k) with 0%nat by lia. reflexivity.
Qed.
End RandomFacts.

Lemma random_choices_draws_witness :
  ∃ xs g', IlpDataGen.random_choices Demo.randbelow ["a"; "b"; "c"] 2 0%nat = Ok (xs, g') ∧
    length xs = Z.to_nat 2 ∧ Forall (λ x, x ∈ ["a"; "b"; "c"]) xs.
Proof. apply (random_choices_draws Demo.randbelow ["a"; "b"; "c"] 2 0%nat). discriminate. Defined.

Lemma delete_from_counted a c ls :
  c ≠ 0%nat → IlpDataGen.delete_from a c ls = ls.
Proof.
  intros Hc. induction ls as [|x ls IH]; [done|]. cbn.
  rewrite (bool_decide_eq_false_2 (c = 0%nat)) by done.
  rewrite andb_false_r. by rewrite IH.
Qed.

(** X28 ([delete] of the data sets): when the list holds an element equal
    to [a], the function removes the first such element and nothing else;
    otherwise it returns the list unchanged. *)
Theorem delete_removes_first_equal a ls :
  if IlpDataGen.list_in a ls
  then ∃ l1 x l2, ls = l1 ++ x :: l2 ∧ CLEVRObject.__eq__ a x = true ∧
         IlpDataGen.list_in a l1 = false ∧ IlpDataGen.delete a ls = l1 ++ l2
  else IlpDataGen.delete a ls = ls.
Proof.
  unfold IlpDataGen.delete, IlpDataGen.list_in.
  induction ls as [|y ls IH]; [done|]. cbn.
  destruct (CLEVRObject.__eq__ a y) eqn:E; cbn.
  - exists [], y, ls. repeat split; [done|]. cbn.
    apply delete_from_counted. done.
  - destruct (existsb (CLEVRObject.__eq__ a) ls).
    + destruct IH as (l1 & x & l2 & -> & Hx & Hl1 & Hd).
      exists (y :: l1), x, l2. repeat split; [done|by cbn; rewrite E|].
      cbn. by rewrite Hd.
    + by rewrite IH.
Qed.

(** * The delete and append data sets *)

Section ProblemFacts.
Context {rng : Type}.
Variable randbelow : nat → rng → nat * rng.
Variable randint : Z → Z → rng → result (Z * rng).

Lemma delete_pos_round_inv self g self' g' :
  IlpDataGen.DeleteProblem.pos_round randbelow randint self g = Ok (self', g') →
  Forall delete_fact (IlpDataGen.pos_examples self) →
  Forall delete_fact (IlpDataGen.pos_examples self') ∧
  IlpDataGen.neg_examples self' = IlpDataGen.neg_examples self ∧
  same_parameters self self' ∧
  (length (IlpDataGen.pos_examples self) ≤ length (IlpDataGen.pos_examples self')
     ≤ S (length (IlpDataGen.pos_examples self)))%nat.
Proof.
  unfold IlpDataGen.DeleteProblem.pos_round. intros H Hpos.
  destruct (choice _ _ _) as [[a1 g1]|]; [|discriminate]. cbn in H.
  destruct (randint _ _ _) as [[n2 g2]|]; [|discriminate]. cbn in H.
  destruct (IlpDataGen.random_choices _ _ _ _) as [[ls2 g3]|]; [|discriminate].
  cbn in H. destruct (IlpDataGen.list_in a1 ls2) eqn:Hin.
  - apply Ok_inj in H. injection H as <- <-. cbn. split.
    + apply Forall_app. split; [done|]. constructor; [|done]. by exists a1.
    + split; [done|]. split; [done|]. rewrite length_app. cbn. lia.
  - apply Ok_inj in H. injection H as <- <-. split; [done|]. split; [done|].
    split; [done|]. lia.
Qed.

Lemma delete_get_pos_examples_inv fuel self g self' g' :
  IlpDataGen.DeleteProblem.get_pos_examples randbelow randint fuel self g
    = Some (Ok (self', g')) →
  Forall delete_fact (IlpDataGen.pos_examples self) →
  (length (IlpDataGen.pos_examples self) ≤ Z.to_nat (IlpDataGen.n self))%nat →
  Forall delete_fact (IlpDataGen.pos_examples self') ∧
  IlpDataGen.neg_examples self' = IlpDataGen.neg_examples self ∧
  same_parameters self self' ∧
  length (IlpDataGen.pos_examples self') = Z.to_nat (IlpDataGen.n self).
Proof.
  revert self g. induction fuel as [|fuel IH]; intros self g H Hpos Hlen; [done|].
  cbn [IlpDataGen.DeleteProblem.get_pos_examples] in H.
  destruct (Z.ltb_spec (Z.of_nat (length (IlpDataGen.pos_examples self)))
              (IlpDataGen.n self)) as [Hlt|Hge].
  - destruct (IlpDataGen.DeleteProblem.pos_round _ _ _ _) as [[self1 g1]|] eqn:E;
      [|discriminate].
    apply delete_pos_round_inv in E as (Hpos1 & Hneg1 & Hsame1 & Hlen1); [|done].
    destruct Hsame1 as (Hn & Hmin & Hmax & Hsym & Hbg).
    apply IH in H as (Hpos2 & Hneg2 & Hsame2 & Hlen2); [|done|rewrite Hn; lia].
    destruct Hsame2 as (Hn2 & Hmin2 & Hmax2 & Hsym2 & Hbg2).
    split; [done|]. split; [congruence|]. split; [|congruence].
    repeat split; congruence.
  - injection H as <- <-. split; [done|]. split; [done|]. split; [done|]. lia.
Qed.

Lemma delete_neg_round_inv self i g self' i' g' :
  IlpDataGen.DeleteProblem.neg_round randbelow randint self i g = Ok (self', i', g') →
  Forall delete_non_fact (IlpDataGen.neg_examples self) →
  Forall delete_non_fact (IlpDataGen.neg_examples self') ∧
  IlpDataGen.pos_examples self' = IlpDataGen.pos_examples self ∧
  same_parameters self self' ∧
  i ≤ i' ≤ i + 1 ∧
  Z.of_nat (length (IlpDataGen.neg_examples self')) - i'
    = Z.of_nat (length (IlpDataGen.neg_examples self)) - i.
Proof.
  unfold IlpDataGen.DeleteProblem.neg_round. intros H Hneg.
  destruct (choice _ _ _) as [[a1 g1]|]; [|discriminate]. cbn in H.
  destruct (randint _ _ g1) as [[n2 g2]|]; [|discriminate]. cbn in H.
  destruct (IlpDataGen.random_choices _ _ n2 _) as [[ls2 g3]|]; [|discriminate].
  cbn in H.
  destruct (randint _ _ g3) as [[n3 g4]|]; [|discriminate]. cbn in H.
  destruct (IlpDataGen.random_choices _ _ n3 _) as [[ls3 g5]|]; [|discriminate].
  cbn in H.
  destruct (IlpDataGen.list_in a1 ls2) eqn:Hin;
    [destruct (IlpDataGen.list_eq (IlpDataGen.delete a1 ls2) ls3) eqn:Heq|];
    cbn in H; apply Ok_inj in H; injection H as <- <- <-.
  - repeat split; try done; lia.
  - cbn. split.
    + apply Forall_app. split; [done|]. constructor; [|done]. by exists a1.
    + split; [done|]. split; [done|]. rewrite length_app. cbn. lia.
  - repeat split; try done; lia.
Qed.

Lemma delete_neg_loop_inv fuel self i g self' g' :
  IlpDataGen.DeleteProblem.neg_loop randbelow randint fuel self i g
    = Some (Ok (self', g')) →
  Forall delete_non_fact (IlpDataGen.neg_examples self) →
  Z.of_nat (length (IlpDataGen.neg_examples self)) = i →
  i ≤ Z.max 0 (IlpDataGen.n self) →
  Forall delete_non_fact (IlpDataGen.neg_examples self') ∧
  IlpDataGen.pos_examples self' = IlpDataGen.pos_examples self ∧
  same_parameters self self' ∧
  length (IlpDataGen.neg_examples self') = Z.to_nat (IlpDataGen.n self).
Proof.
  revert self i g. induction fuel as [|fuel IH]; intros self i g H Hneg Hlen Hi;
    [done|].
  cbn [IlpDataGen.DeleteProblem.neg_loop] in H.
  destruct (Z.ltb_spec i (IlpDataGen.n self)) as [Hlt|Hge].
  - destruct (IlpDataGen.DeleteProblem.neg_round _ _ _ _ _) as [[[self1 i1] g1]|] eqn:E;
      [|discriminate].
    apply delete_neg_round_inv in E as (Hneg1 & Hpos1 & Hsame1 & Hi1 & Hlen1); [|done].
    destruct Hsame1 as (Hn & Hmin & Hmax & Hsym & Hbg).
    apply IH in H as (Hneg2 & Hpos2 & Hsame2 & Hlen2); [|done|lia|rewrite Hn; lia].
    destruct Hsame2 as (Hn2 & Hmin2 & Hmax2 & Hsym2 & Hbg2).
    split; [done|]. split; [congruence|]. split; [|congruence].
    repeat split; congruence.
  - injection H as <- <-. split; [done|]. split; [done|]. split; [done|]. lia.
Qed.

Lemma background_is_delete_fact (s : CLEVRObject.t) :
  delete_fact ([s], [s], []).
Proof.
  exists s. cbn. unfold IlpDataGen.list_in, IlpDataGen.delete. cbn.
  unfold CLEVRObject.__eq__. rewrite String.eqb_refl. cbn. done.
Qed.

(** X29 ([DeleteProblem]): when the constructor returns, every positive
    example and every background example is a true instance of delete (a
    single object, a list that holds it, and that list without the first
    occurrence of the object), every negative example pairs such an object
    and list with a third list that differs from the result of delete, and
    there are [n] positive and [n] negative examples (none for a negative
    [n]) and one background example per symbol. *)
Theorem delete_problem_examples_sound fuel n max_len min_len g self g' :
  IlpDataGen.DeleteProblem.__init__ randbelow randint fuel n max_len min_len g
    = Some (Ok (self, g')) →
  Forall delete_fact (IlpDataGen.pos_examples self) ∧
  Forall delete_fact (IlpDataGen.backgrounds self) ∧
  Forall delete_non_fact (IlpDataGen.neg_examples self) ∧
  length (IlpDataGen.pos_examples self) = Z.to_nat n ∧
  length (IlpDataGen.neg_examples self) = Z.to_nat n ∧
  length (IlpDataGen.backgrounds self) = length IlpDataGen.gen_all_properties.
Proof.
  unfold IlpDataGen.DeleteProblem.__init__. intros H.
  destruct (IlpDataGen.DeleteProblem.get_pos_examples _ _ _ _ _)
    as [[[self1 g1]|]|] eqn:E1; [|discriminate..].
  destruct (IlpDataGen.DeleteProblem.get_neg_examples _ _ _ _ _)
    as [[[self2 g2]|]|] eqn:E2; [|discriminate..].
  injection H as <- <-.
  apply delete_get_pos_examples_inv in E1 as (Hpos1 & Hneg1 & Hsame1 & Hlen1);
    [|by constructor|cbn; lia].
  destruct Hsame1 as (Hn & Hmin & Hmax & Hsym & Hbg). cbn in Hneg1, Hn, Hsym, Hbg, Hlen1.
  unfold IlpDataGen.DeleteProblem.get_neg_examples in E2.
  apply delete_neg_loop_inv in E2 as (Hneg2 & Hpos2 & Hsame2 & Hlen2);
    [|by rewrite Hneg1; constructor|by rewrite Hneg1|lia].
  destruct Hsame2 as (Hn2 & Hmin2 & Hmax2 & Hsym2 & Hbg2).
  cbn [IlpDataGen.DeleteProblem.get_backgrounds IlpDataGen.with_backgrounds
       IlpDataGen.pos_examples IlpDataGen.neg_examples IlpDataGen.backgrounds].
  rewrite Hpos2, Hbg2, Hbg, Hsym2, Hsym. cbn [app].
  split; [done|]. split.
  - apply Forall_fmap. apply Forall_forall. intros s _. apply background_is_delete_fact.
  - split; [done|]. split; [done|]. split; [congruence|]. by rewrite length_fmap.
Qed.

Lemma append_pos_round_ok self g :
  randint_in_range randint →
  1 ≤ IlpDataGen.min_len self ≤ IlpDataGen.max_len self →
  IlpDataGen.symbols self ≠ [] →
  ∃ e g',
    IlpDataGen.AppendProblem.pos_round randbelow randint self g
      = Ok (IlpDataGen.with_pos_examples self (IlpDataGen.pos_examples self ++ [e]), g') ∧
    append_fact self e.
Proof.
  intros Hri Hlen Hsym. unfold IlpDataGen.AppendProblem.pos_round.
  destruct (choice_nonempty randbelow (IlpDataGen.symbols self) g Hsym)
    as (a1 & g1 & -> & Ha1). cbn.
  destruct (Hri (IlpDataGen.min_len self - 1) (IlpDataGen.max_len self - 1) g1)
    as (n2 & g2 & -> & Hn2); [lia|]. cbn.
  destruct (random_choices_loop_nonempty randbelow (IlpDataGen.symbols self)
              (Z.to_nat n2) g2 Hsym) as (ls2 & g3 & E & Hl & Hall).
  unfold IlpDataGen.random_choices. destruct (Z.eqb_spec n2 0) as [->|Hne].
  - cbn. eexists _, _. split; [reflexivity|]. exists a1. cbn.
    repeat split; [by repeat constructor|lia..].
  - rewrite E. cbn. eexists _, _. split; [reflexivity|]. exists a1. cbn.
    repeat split; [by constructor|lia..].
Qed.

(** X30 ([AppendProblem.get_pos_examples]): when [randint] answers within
    its bounds, [1 <= min_len <= max_len] and there is a symbol, the loop
    ends after [n] rounds; started without examples it leaves exactly [n]
    of them, each a single symbol [a], a list of symbols, and that list
    with [a] put in front, of a length between [min_len] and [max_len]. *)
Theorem append_pos_examples_returns fuel self g :
  randint_in_range randint →
  1 ≤ IlpDataGen.min_len self ≤ IlpDataGen.max_len self →
  IlpDataGen.symbols self ≠ [] →
  IlpDataGen.pos_examples self = [] →
  (Z.to_nat (IlpDataGen.n self) < fuel)%nat →
  ∃ pos g',
    IlpDataGen.AppendProblem.get_pos_examples randbelow randint fuel self g
      = Some (Ok (IlpDataGen.with_pos_examples self pos, g')) ∧
    length pos = Z.to_nat (IlpDataGen.n self) ∧
    Forall (append_fact self) pos.
Proof.
  intros Hri Hlen Hsym Hnil Hfuel.
  assert (∀ fuel pos g,
    (length pos ≤ Z.to_nat (IlpDataGen.n self))%nat →
    (Z.to_nat (IlpDataGen.n self) - length pos < fuel)%nat →
    Forall (append_fact self) pos →
    ∃ pos' g',
      IlpDataGen.AppendProblem.get_pos_examples randbelow randint fuel
        (IlpDataGen.with_pos_examples self pos) g
        = Some (Ok (IlpDataGen.with_pos_examples self pos', g')) ∧
      length pos' = Z.to_nat (IlpDataGen.n self) ∧
      Forall (append_fact self) pos') as Hloop.
  { clear fuel g Hfuel. induction fuel as [|fuel IH]; intros pos g Hle Hf Hpos; [lia|].
    cbn [IlpDataGen.AppendProblem.get_pos_examples IlpDataGen.with_pos_examples
         IlpDataGen.pos_examples IlpDataGen.n].
    destruct (Z.ltb_spec (Z.of_nat (length pos)) (IlpDataGen.n self)) as [Hlt|Hge].
    - destruct (append_pos_round_ok (IlpDataGen.with_pos_examples self pos) g)
        as (e & g1 & E & He); [done..|].
      unfold IlpDataGen.with_pos_examples in E at 1. cbn in E.
      unfold IlpDataGen.with_pos_examples at 1. rewrite E.
      destruct (IH (pos ++ [e]) g1) as (pos' & g' & E' & Hlen' & Hall').
      + rewrite length_app. cbn. lia.
      + rewrite length_app. cbn. lia.
      + apply Forall_app. split; [done|]. by constructor.
      + exists pos', g'. split; [|done]. exact E'.
    - exists pos, g. split; [done|]. split; [lia|done]. }
  destruct (Hloop fuel [] g) as (pos & g' & E & Hl & Hall); [cbn; lia..|done|].
  exists pos, g'. split; [|done].
  replace self with (IlpDataGen.with_pos_examples self []) at 1; [exact E|].
  destruct self. cbn in Hnil. subst. reflexivity.
Qed.
End ProblemFacts.

Lemma delete_problem_examples_sound_witness :
  ∃ self g',
    IlpDataGen.DeleteProblem.__init__ Demo.randbelow_uneven Demo.randint 40 2 3 3 0%nat
      = Some (Ok (self, g'))
    ∧ Forall delete_fact (IlpDataGen.pos_examples self)
    ∧ Forall delete_fact (IlpDataGen.backgrounds self)
    ∧ Forall delete_non_fact (IlpDataGen.neg_examples self)
    ∧ length (IlpDataGen.pos_examples self) = Z.to_nat 2
    ∧ length (IlpDataGen.neg_examples self) = Z.to_nat 2
    ∧ length (IlpDataGen.backgrounds self) = length IlpDataGen.gen_all_properties.
Proof.
  eexists _, _. split; [vm_compute; reflexivity|].
  eapply (delete_problem_examples_sound Demo.randbelow_uneven Demo.randint 40 2 3 3 0%nat).
  vm_compute. reflexivity.
Defined.

Lemma append_pos_examples_returns_witness :
  ∃ pos g',
    IlpDataGen.AppendProblem.get_pos_examples Demo.randbelow Demo.randint 3
      (IlpDataGen.new_problem "append" 2 3 3) 0%nat
      = Some (Ok (IlpDataGen.with_pos_examples (IlpDataGen.new_problem "append" 2 3 3) pos, g'))
    ∧ length pos = Z.to_nat 2
    ∧ Forall (append_fact (IlpDataGen.new_problem "append" 2 3 3)) pos.
Proof.
  apply (append_pos_examples_returns Demo.randbelow Demo.randint 3
           (IlpDataGen.new_problem "append" 2 3 3) 0%nat).
  - intros a b g Hab. eexists _, _. split; [reflexivity|].
    pose proof (Z.mod_pos_bound (Z.of_nat g) (b - a + 1)). lia.
  - cbn. lia.
  - discriminate.
  - reflexivity.
  - cbn. lia.
Defined.
